(** * Two-stage recourse models of [recourse.py]

    A shallow embedding of the model-formulation layer and of the five
    evaluation procedures (EV, EEV, TS, WS, MRP) of [src/recourse.py],
    followed by the properties of the specification that were checked
    against it.

    Conventions of the embedding.
    - Floating-point numbers are idealised as real numbers ([R]); the
      exceptional values of numpy arithmetic (nan, inf) are kept apart in
      [npfloat].  A number stated below is the one the code computes up
      to the rounding of each operation, and the constraints and the
      objective of a model are read as the optimiser reads them, over
      real assignments of the variables.  No property of a computed
      number rests on a cancellation that rounding can break (a sum of S
      equal terms divided by S, a term added and subtracted again);
      where a claim of the specification rests on one, the module
      [Binary64] embeds the function on IEEE 754 binary64 numbers.
    - Integers obtained from floats ([astype(int)]) are 64-bit signed
      integers.
    - A numpy array of rank 2 is a list of rows, one of rank 3 a list of
      such matrices (one per scenario).
    - The Gurobi model is a record that is threaded through the code; the
      library state (live models, random generator) is the state of the
      monad [M]; Python exceptions are the [Raised] results.
    - The optimiser, the scenario sampler and the Student-t quantile are
      external capabilities, given as type classes.
    - Console verbosity ([verbose], [LogToConsole]) and the [tqdm] progress
      bars have no effect on any value and are left out. *)

From Stdlib Require Import String ZArith Bool Arith Lia List.
From Stdlib Require Floats.
From Stdlib Require Import Reals Lra.
Import ListNotations.

Set Implicit Arguments.
Local Open Scope R_scope.

(* ================================================================= *)
(** ** Python exceptions and fallible results *)

Inductive exn : Type :=
| ZeroDivisionError
| AttributeError
| IndexError
| GurobiError.

Inductive result (A : Type) : Type :=
| Ok (a : A)
| Raised (e : exn).

Arguments Ok {A} a.
Arguments Raised {A} e.

Definition rbind {A B} (r : result A) (k : A -> result B) : result B :=
  match r with
  | Ok a => k a
  | Raised e => Raised e
  end.

Definition rmap {A B} (f : A -> B) (r : result A) : result B :=
  rbind r (fun a => Ok (f a)).

Declare Scope result_scope.
Delimit Scope result_scope with res.
Notation "x <- r ;; k" := (rbind r (fun x => k))
  (at level 61, r at next level, right associativity) : result_scope.
Notation "' p <- r ;; k" := (rbind r (fun x => match x with p => k end))
  (at level 61, p pattern, r at next level, right associativity) : result_scope.

(** [mapR f l] runs [f] over [l] from left to right and stops at the first
    exception, like a comprehension whose element expression may raise. *)
Fixpoint mapR {A B} (f : A -> result B) (l : list A) : result (list B) :=
  match l with
  | [] => Ok []
  | a :: l' =>
      (b <- f a ;; bs <- mapR f l' ;; Ok (b :: bs))%res
  end.

(* ================================================================= *)
(** ** numpy arrays *)

Definition vec (T : Type) := list T.
Definition mat (T : Type) := list (list T).

(** Second-stage arrays have rank 2 (one scenario, shape n x s) or rank 3
    (shape S x n x s). *)
Inductive ndarray (T : Type) : Type :=
| Arr2 (a : mat T)
| Arr3 (a : list (mat T)).

Arguments Arr2 {T} a.
Arguments Arr3 {T} a.

Definition ndim {T} (a : ndarray T) : nat :=
  match a with Arr2 _ => 2 | Arr3 _ => 3 end.

(** [a.shape[0]] *)
Definition shape0 {T} (a : ndarray T) : nat :=
  match a with Arr2 m => length m | Arr3 t => length t end.

(** [a.flatten()] in row-major order. *)
Definition mflatten {T} (m : mat T) : list T := concat m.

Definition flatten {T} (a : ndarray T) : list T :=
  match a with
  | Arr2 m => mflatten m
  | Arr3 t => concat (map (@mflatten T) t)
  end.

Definition nd_map {T U} (f : T -> U) (a : ndarray T) : ndarray U :=
  match a with
  | Arr2 m => Arr2 (map (map f) m)
  | Arr3 t => Arr3 (map (map (map f)) t)
  end.

(** Element-wise binary operation on two lists of equal length. *)
Fixpoint map2 {A B C} (f : A -> B -> C) (l1 : list A) (l2 : list B) : list C :=
  match l1, l2 with
  | a :: l1', b :: l2' => f a b :: map2 f l1' l2'
  | _, _ => []
  end.

Definition mat_map2 {A B C} (f : A -> B -> C) (a : mat A) (b : mat B) : mat C :=
  map2 (map2 f) a b.

(** Element-wise operation with numpy broadcasting of a rank-2 operand
    along the scenario axis of a rank-3 one.  Operands are shape-consistent
    (the Parameters invariant of the specification). *)
Definition nd_map2 {A B C} (f : A -> B -> C)
    (a : ndarray A) (b : ndarray B) : ndarray C :=
  match a, b with
  | Arr2 x, Arr2 y => Arr2 (mat_map2 f x y)
  | Arr2 x, Arr3 ys => Arr3 (map (fun y => mat_map2 f x y) ys)
  | Arr3 xs, Arr2 y => Arr3 (map (fun x => mat_map2 f x y) xs)
  | Arr3 xs, Arr3 ys => Arr3 (map2 (mat_map2 f) xs ys)
  end.

(** Indexing with a default, used to state properties entry by entry. *)
Definition vget {T} (d : T) (v : vec T) (t : nat) : T := nth t v d.
Definition mget {T} (d : T) (m : mat T) (i t : nat) : T := nth t (nth i m []) d.
Definition nd_get {T} (d : T) (a : ndarray T) (k i t : nat) : T :=
  match a with
  | Arr2 m => mget d m i t
  | Arr3 ts => mget d (nth k ts []) i t
  end.

(** [m] has shape (r, c). *)
Definition mat_shape {T} (m : mat T) (r c : nat) : Prop :=
  length m = r /\ Forall (fun row => length row = c) m.

(** Number of scenarios carried by a second-stage array. *)
Definition scenarios_of {T} (a : ndarray T) : nat :=
  match a with Arr2 _ => 1 | Arr3 ts => length ts end.

Definition nd_shape {T} (a : ndarray T) (S n s : nat) : Prop :=
  match a with
  | Arr2 m => S = 1%nat /\ mat_shape m n s
  | Arr3 ts => length ts = S /\ Forall (fun m => mat_shape m n s) ts
  end.

(* ================================================================= *)
(** ** Numbers and linear expressions

    The objective and constraint builders of [recourse.py] work on
    arrays of numbers and on arrays of solver variables alike.  [Lin]
    is the interface they rely on. *)

Class Lin (T : Type) : Type := {
  lzero : T;
  ladd : T -> T -> T;
  lscale : R -> T -> T;      (* number * element *)
  ldiv : T -> R -> T         (* element / number, for a non-zero number *)
}.

(** Numbers.  A Python float is an IEEE 754 binary64 number; it is read
    here as the real number it denotes and the operations as the exact
    ones, so a value computed below is the code's up to the rounding of
    each operation.  The properties of computed numbers state which
    operations the code applies to which operands; none relies on terms
    cancelling exactly (see [Binary64] for a case where they do not). *)
#[export] Instance Lin_R : Lin R := {
  lzero := 0;
  ladd := Rplus;
  lscale := Rmult;
  ldiv := Rdiv
}.

(** [a.sum()] *)
Definition lsum {T} `{Lin T} (l : list T) : T := fold_right ladd lzero l.

(* ================================================================= *)
(** ** The solver adapter (gurobipy) *)

(** A solver variable, identified as [addVars] does: by the name of its
    group and its index tuple. *)
Record Var : Type := mkVar { vname : string; vidx : list nat }.

Fixpoint index_eqb (a b : list nat) : bool :=
  match a, b with
  | [], [] => true
  | x :: a', y :: b' => Nat.eqb x y && index_eqb a' b'
  | _, _ => false
  end.

Definition Var_eqb (a b : Var) : bool :=
  String.eqb (vname a) (vname b) && index_eqb (vidx a) (vidx b).

(** [gurobipy.LinExpr]: a list of (coefficient, variable) terms and a
    constant. *)
Record LinExpr : Type := mkLin { terms : list (R * Var); const : R }.

Definition of_num (c : R) : LinExpr := mkLin [] c.
Definition of_var (v : Var) : LinExpr := mkLin [(1, v)] 0.

Definition lin_add (a b : LinExpr) : LinExpr :=
  mkLin (terms a ++ terms b) (const a + const b).

Definition lin_scale (c : R) (a : LinExpr) : LinExpr :=
  mkLin (map (fun t => (c * fst t, snd t)) (terms a)) (c * const a).

Definition lin_sub (a b : LinExpr) : LinExpr :=
  lin_add a (lin_scale (-1) b).

#[export] Instance Lin_LinExpr : Lin LinExpr := {
  lzero := of_num 0;
  ladd := lin_add;
  lscale := lin_scale;
  ldiv := fun e a => lin_scale (1 / a) e
}.

(** Value of an expression under an assignment of the variables
    ([LinExpr.getValue]). *)
Definition eval (rho : Var -> R) (e : LinExpr) : R :=
  fold_right (fun t acc => fst t * rho (snd t) + acc) 0 (terms e) + const e.

Inductive VType : Type := CONTINUOUS | INTEGER.

(** A declared variable with its bounds; [UB = None] is the default
    infinite upper bound. *)
Record VarDecl : Type := mkDecl {
  dvar : Var;
  LB : R;
  UB : option R;
  VTypeOf : VType
}.

Inductive Sense : Type := LessEqual | Equal.

(** A linear constraint [lhs <= 0] or [lhs == 0], with the name of its
    family and its index in the family. *)
Record Constr : Type := mkConstr {
  cname : string;
  cindex : nat;
  clhs : LinExpr;
  csense : Sense
}.

Definition holds (rho : Var -> R) (c : Constr) : Prop :=
  match csense c with
  | LessEqual => eval rho (clhs c) <= 0
  | Equal => eval rho (clhs c) = 0
  end.

(** Optimisation status codes of the solver. *)
Inductive Status : Type :=
| LOADED | OPTIMAL | INFEASIBLE | INF_OR_UNBD | UNBOUNDED | CUTOFF
| ITERATION_LIMIT | NODE_LIMIT | TIME_LIMIT | SOLUTION_LIMIT
| INTERRUPTED | NUMERIC | SUBOPTIMAL.

Definition Status_eqb (a b : Status) : bool :=
  match a, b with
  | LOADED, LOADED | OPTIMAL, OPTIMAL | INFEASIBLE, INFEASIBLE
  | INF_OR_UNBD, INF_OR_UNBD | UNBOUNDED, UNBOUNDED | CUTOFF, CUTOFF
  | ITERATION_LIMIT, ITERATION_LIMIT | NODE_LIMIT, NODE_LIMIT
  | TIME_LIMIT, TIME_LIMIT | SOLUTION_LIMIT, SOLUTION_LIMIT
  | INTERRUPTED, INTERRUPTED | NUMERIC, NUMERIC
  | SUBOPTIMAL, SUBOPTIMAL => true
  | _, _ => false
  end.

(** What an optimisation pass leaves on the model: a status and, when a
    solution is available, its objective value and the value of every
    variable. *)
Record SolutionVals : Type := mkSol { sol_obj : R; sol_x : Var -> R }.
Record Outcome : Type := mkOutcome { status : Status; solution : option SolutionVals }.

Definition no_outcome : Outcome := mkOutcome LOADED None.

Record Problem : Type := mkProblem {
  pvars : list VarDecl;
  pconstrs : list Constr;
  pobjective : LinExpr          (* always minimised *)
}.

Record Model : Type := mkModel {
  mid : nat;                    (* handle of the model in the library *)
  mname : string;
  problem : Problem;
  outcome : Outcome             (* left by the last [optimize] *)
}.

(** The external optimiser: one optimisation pass over a problem either
    raises or reports an outcome. *)
Class SolverAdapter : Type := {
  grb_optimize : Problem -> result Outcome
}.

(** [mdl.optimize()] *)
Definition optimize `{SolverAdapter} (mdl : Model) : result Model :=
  (o <- grb_optimize (problem mdl) ;;
   Ok (mkModel (mid mdl) (mname mdl) (problem mdl) o))%res.

(** [mdl.Status] *)
Definition Status_of (mdl : Model) : Status := status (outcome mdl).

(** [mdl.ObjVal]: available only when the model holds a solution. *)
Definition ObjVal (mdl : Model) : result R :=
  match solution (outcome mdl) with
  | Some sv => Ok (sol_obj sv)
  | None => Raised AttributeError
  end.

(** [v.X] *)
Definition X_of (mdl : Model) (v : Var) : result R :=
  match solution (outcome mdl) with
  | Some sv => Ok (sol_x sv v)
  | None => Raised AttributeError
  end.

Definition set_problem (mdl : Model) (p : Problem) : Model :=
  mkModel (mid mdl) (mname mdl) p (outcome mdl).

(** The index tuples of an array of shape (r, c), and of shape
    (k, r, c), in row-major order. *)
Definition index2 (r c : nat) : mat (list nat) :=
  map (fun i => map (fun t => [i; t]) (seq 0 c)) (seq 0 r).

Definition index3 (k r c : nat) : list (mat (list nat)) :=
  map (fun j => map (fun i => map (fun t => [j; i; t]) (seq 0 c)) (seq 0 r))
      (seq 0 k).

Definition decl (lb : R) (ub : option R) (ty : VType) (v : Var) : VarDecl :=
  mkDecl v lb ub ty.

Definition add_decls (mdl : Model) (ds : list VarDecl) : Model :=
  set_problem mdl
    (mkProblem (pvars (problem mdl) ++ ds) (pconstrs (problem mdl))
               (pobjective (problem mdl))).

(** [np.array(mdl.addVars(size, lb=.., ub=.., vtype=.., name=..).values())]
    reshaped to [size], for a size tuple of length 1, 2 and 3: the new
    variables are declared on the model, and returned in row-major order
    of their index tuples. *)
Definition addVars1 (mdl : Model) (len : nat) (lb : R) (ub : option R)
    (ty : VType) (name : string) : Model * vec Var :=
  let vs := map (fun t => mkVar name [t]) (seq 0 len) in
  (add_decls mdl (map (decl lb ub ty) vs), vs).

Definition addVars2 (mdl : Model) (r c : nat) (lb : R) (ub : option R)
    (ty : VType) (name : string) : Model * mat Var :=
  let vs := map (map (mkVar name)) (index2 r c) in
  (add_decls mdl (map (decl lb ub ty) (mflatten vs)), vs).

Definition addVars3 (mdl : Model) (k r c : nat) (lb : R) (ub : option R)
    (ty : VType) (name : string) : Model * list (mat Var) :=
  let vs := map (map (map (mkVar name))) (index3 k r c) in
  (add_decls mdl (map (decl lb ub ty) (flatten (Arr3 vs))), vs).

(** [mdl.addConstrs((con[i] <sense> 0 for i in range(con.size)), name=..)] *)
Definition mk_constrs (name : string) (sense : Sense) (con : list LinExpr)
    : list Constr :=
  map (fun ie => mkConstr name (fst ie) (snd ie) sense)
      (combine (seq 0 (length con)) con).

Definition addConstrs (mdl : Model) (name : string) (sense : Sense)
    (con : list LinExpr) : Model :=
  set_problem mdl
    (mkProblem (pvars (problem mdl))
               (pconstrs (problem mdl) ++ mk_constrs name sense con)
               (pobjective (problem mdl))).

(** [mdl.setObjective(expr, GRB.MINIMIZE)] *)
Definition setObjective (mdl : Model) (e : LinExpr) : Model :=
  set_problem mdl
    (mkProblem (pvars (problem mdl)) (pconstrs (problem mdl)) e).

(** [mdl.setAttr(GRB.Attr.LB, vars, values)] and the same for [UB]: the
    attribute of each listed variable is set to the value at the same
    position, in list order. *)
Definition set_LB (v : Var) (x : R) (d : VarDecl) : VarDecl :=
  if Var_eqb (dvar d) v then mkDecl (dvar d) x (UB d) (VTypeOf d) else d.

Definition set_UB (v : Var) (x : R) (d : VarDecl) : VarDecl :=
  if Var_eqb (dvar d) v then mkDecl (dvar d) (LB d) (Some x) (VTypeOf d) else d.

Definition setAttr (setter : Var -> R -> VarDecl -> VarDecl)
    (vars : list Var) (values : list R) (ds : list VarDecl) : list VarDecl :=
  fold_left (fun acc vx => map (setter (fst vx) (snd vx)) acc)
            (combine vars values) ds.

(* ================================================================= *)
(** ** The library state and the monad of the procedures *)

(** The scenario sample handed out by the sampler: shape (S, n, s). *)
Definition Sample := list (mat R).

Record Env : Type := mkEnv {
  next_id : nat;                (* next model handle *)
  live : list nat;              (* models created and not yet disposed *)
  entropy : nat;                (* state of the unseeded random source *)
  drawn : list Sample           (* samples handed out so far, oldest first *)
}.

Definition M (A : Type) : Type := Env -> Env * result A.

Definition ret {A} (a : A) : M A := fun env => (env, Ok a).

Definition bind {A B} (m : M A) (k : A -> M B) : M B :=
  fun env =>
    match m env with
    | (env', Ok a) => k a env'
    | (env', Raised e) => (env', Raised e)
    end.

(** A computation that does not touch the library state. *)
Definition lift {A} (r : result A) : M A := fun env => (env, r).

Declare Scope monad_scope.
Delimit Scope monad_scope with M.
Notation "x <- m ;; k" := (bind m (fun x => k))
  (at level 61, m at next level, right associativity) : monad_scope.
Notation "' p <- m ;; k" := (bind m (fun x => match x with p => k end))
  (at level 61, p pattern, m at next level, right associativity) : monad_scope.

(** [gb.Model(name=..)]: an empty model under a fresh handle, which
    becomes live. *)
Definition fresh_model (name : string) (env : Env) : Model :=
  mkModel (next_id env) name (mkProblem [] [] (of_num 0)) no_outcome.

Definition env_with_model (env : Env) : Env :=
  mkEnv (S (next_id env)) (next_id env :: live env) (entropy env) (drawn env).

Definition new_Model (name : string) : M Model :=
  fun env => (env_with_model env, Ok (fresh_model name env)).

(** [mdl.dispose()] *)
Definition dispose (mdl : Model) : M unit :=
  fun env =>
    (mkEnv (next_id env)
           (filter (fun h => negb (Nat.eqb h (mid mdl))) (live env))
           (entropy env) (drawn env),
     Ok tt).

(** A loop over a list with an accumulator. *)
Fixpoint foldM {A B} (f : B -> A -> M B) (l : list A) (b : B) : M B :=
  match l with
  | [] => ret b
  | a :: l' => (b' <- f b a ;; foldM f l' b')%M
  end.

(* ================================================================= *)
(** ** numpy scalars with exceptional values *)

(** A numpy float: [Some x] is the finite number [x], [None] a value that
    is not a finite number (nan or an infinity; numpy produces them with a
    warning instead of raising).  The two are not told apart: every
    operation below yields a non-finite result from a non-finite operand,
    and the only divisors are finite counts and results of [np_sqrt],
    which is never infinite. *)
Definition npfloat := option R.

Definition nan : npfloat := None.

Definition np_lift2 (f : R -> R -> R) (a b : npfloat) : npfloat :=
  match a, b with
  | Some x, Some y => Some (f x y)
  | _, _ => None
  end.

Definition np_add := np_lift2 Rplus.
Definition np_sub := np_lift2 Rminus.
Definition np_mul := np_lift2 Rmult.

Definition np_div (a b : npfloat) : npfloat :=
  match a, b with
  | Some x, Some y => if Req_dec_T y 0 then None else Some (x / y)
  | _, _ => None
  end.

(** [np.sqrt]: nan on a negative argument. *)
Definition np_sqrt (a : npfloat) : npfloat :=
  match a with
  | Some x => if Rlt_dec x 0 then None else Some (sqrt x)
  | None => None
  end.

(** [a.sum()] of a float array. *)
Definition np_sum (l : list npfloat) : npfloat := fold_right np_add (Some 0) l.

Definition Rsum (l : list R) : R := fold_right Rplus 0 l.

(** [a.mean()]: nan on an empty array. *)
Definition np_mean (l : list R) : npfloat :=
  match l with
  | [] => nan
  | _ => Some (Rsum l / INR (length l))
  end.

(** The range of [int], numpy's 64-bit signed integer. *)
Definition int64_min : Z := (- 2 ^ 63)%Z.
Definition int64_max : Z := (2 ^ 63 - 1)%Z.

(** A number with its fractional part dropped. *)
Definition trunc (x : R) : Z :=
  if Rle_dec 0 x then Int_part x else (- Int_part (- x))%Z.

(** [x.astype(int)]: conversion of a float to a 64-bit integer drops the
    fractional part (truncation toward zero).  A float whose truncation
    is outside the range of [int] has no image; the conversion
    instruction of x86-64 then yields the smallest 64-bit integer, and
    this is what numpy stores (with a warning at most). *)
Definition astype_int (x : R) : Z :=
  let z := trunc x in
  if ((int64_min <=? z) && (z <=? int64_max))%Z then z else int64_min.

(** Python's [a / b] on integers. *)
Definition py_truediv (a b : Z) : result R :=
  if Z.eqb b 0 then Raised ZeroDivisionError else Ok (IZR a / IZR b).

(* ================================================================= *)
(** ** Parameters, variable groups *)

(** The parameter dictionary [pars]; the field [par_K] is [pars['K']]
    (with [p]/[m] for the [+]/[-] of the key). *)
Record Pars : Type := mkPars {
  par_s : nat;                  (* planning periods *)
  par_n : nat;                  (* products *)
  par_m : nat;                  (* resources *)
  par_C1 : mat R;
  par_C2 : mat R;
  par_C3p : vec R;
  par_C3m : vec R;
  par_Qp : mat R;
  par_Qm : mat R;
  par_A : mat R;                (* n x m *)
  par_B : mat R;                (* m x s *)
  par_UB : mat R;               (* m x s *)
  par_demand_mean : mat R
}.

(** The dictionary of first-stage groups ['X'], ['U'], ['Z+'], ['Z-'],
    of solver variables or of numbers. *)
Record Vars1 (T : Type) : Type := mkVars1 {
  var_X : mat T;
  var_U : mat T;
  var_Zp : vec T;
  var_Zm : vec T
}.

(** The dictionary of second-stage groups ['Y+'], ['Y-']. *)
Record Vars2 (T : Type) : Type := mkVars2 {
  var_Yp : ndarray T;
  var_Ym : ndarray T
}.

Definition Vars1_map {T U} (f : T -> U) (v : Vars1 T) : Vars1 U :=
  mkVars1 (map (map f) (var_X v)) (map (map f) (var_U v))
          (map f (var_Zp v)) (map f (var_Zm v)).

Definition Vars2_map {T U} (f : T -> U) (v : Vars2 T) : Vars2 U :=
  mkVars2 (nd_map f (var_Yp v)) (nd_map f (var_Ym v)).

(* ================================================================= *)
(** ** The model builder of [recourse.py] *)

Definition vtype_of (intvars : bool) : VType :=
  if intvars then INTEGER else CONTINUOUS.

Definition add_1st_stage_variables (mdl : Model) (pars : Pars)
    (intvars : bool) : Model * Vars1 Var :=
  let TYPE := vtype_of intvars in
  let s := par_s pars in
  let n := par_n pars in
  let m := par_m pars in
  let '(mdl, X) := addVars2 mdl n s 0 None TYPE "X" in
  let '(mdl, U) := addVars2 mdl m s 0 None TYPE "U" in
  let '(mdl, Zp) := addVars1 mdl (s - 1) 0 None TYPE "Z+" in
  let '(mdl, Zm) := addVars1 mdl (s - 1) 0 None TYPE "Z-" in
  (mdl, mkVars1 X U Zp Zm).

(** A group of shape (n, s) when [scenarios] is 1 and (scenarios, n, s)
    otherwise. *)
Definition addVars_nd (mdl : Model) (scenarios n s : nat) (lb : R)
    (ub : option R) (ty : VType) (name : string) : Model * ndarray Var :=
  if Nat.eqb scenarios 1 then
    let '(mdl, v) := addVars2 mdl n s lb ub ty name in (mdl, Arr2 v)
  else
    let '(mdl, v) := addVars3 mdl scenarios n s lb ub ty name in (mdl, Arr3 v).

Definition add_2nd_stage_variables (mdl : Model) (pars : Pars)
    (scenarios : nat) (intvars : bool) : Model * Vars2 Var :=
  let TYPE := vtype_of intvars in
  let s := par_s pars in
  let n := par_n pars in
  let '(mdl, Yp) := addVars_nd mdl scenarios n s 0 None TYPE "Y+" in
  let '(mdl, Ym) := addVars_nd mdl scenarios n s 0 None TYPE "Y-" in
  (mdl, mkVars2 Yp Ym).

(** Both lists have the size of the variable array (a scenario has the
    shape of the demand placeholder, a solution the shape of its group). *)
Definition fix_bounds (p : Problem) (var : list Var) (value : list R)
    : Problem :=
  let ds := setAttr set_LB var value (pvars p) in
  let ds := setAttr set_UB var value ds in
  mkProblem ds (pconstrs p) (pobjective p).

Definition fix_var (mdl : Model) (var : ndarray Var) (value : ndarray R)
    : Model :=
  let var := flatten var in
  let value := flatten value in
  set_problem mdl (fix_bounds (problem mdl) var value).

(** [(cost * var).sum()] for a group of rank 1. *)
Definition cost_sum1 {T} `{Lin T} (cost : vec R) (var : vec T) : T :=
  lsum (map2 lscale cost var).

(** [(cost * var).sum()] for a group of rank 2. *)
Definition cost_sum2 {T} `{Lin T} (cost : mat R) (var : mat T) : T :=
  lsum (mflatten (mat_map2 lscale cost var)).

(** [(cost * var).sum()] for a second-stage group (the cost of rank 2 is
    broadcast over the scenarios). *)
Definition cost_sum_nd {T} `{Lin T} (cost : mat R) (var : ndarray T) : T :=
  lsum (flatten (nd_map2 lscale (Arr2 cost) var)).

Definition get_1st_stage_objective {T} `{Lin T} (pars : Pars)
    (vars : Vars1 T) : T :=
  lsum [ cost_sum2 (par_C1 pars) (var_X vars);
         cost_sum2 (par_C2 pars) (var_U vars);
         cost_sum1 (par_C3p pars) (var_Zp vars);
         cost_sum1 (par_C3m pars) (var_Zm vars) ].

(** The number of scenarios of a second-stage array: 1 if it has rank 2,
    its first dimension otherwise. *)
Definition scenario_count {T} (Yp : ndarray T) : nat :=
  if Nat.eqb (ndim Yp) 2 then 1 else shape0 Yp.

Definition get_2nd_stage_objective {T} `{Lin T} (pars : Pars)
    (vars : Vars2 T) : result T :=
  let S := scenario_count (var_Yp vars) in
  let obj := lsum [ cost_sum_nd (par_Qp pars) (var_Yp vars);
                    cost_sum_nd (par_Qm pars) (var_Ym vars) ] in
  if Nat.eqb S 0 then Raised ZeroDivisionError else Ok (ldiv obj (INR S)).

(** Number of columns of a matrix with at least one row. *)
Definition ncols {T} (a : mat T) : nat :=
  match a with
  | [] => 0
  | r :: _ => length r
  end.

(** [a.T] *)
Definition transpose (a : mat R) : mat R :=
  map (fun j => map (fun row => nth j row 0) a) (seq 0 (ncols a)).

(** [v @ x] for a vector [v] of length n and a matrix [x] of shape (n, c):
    entry t is the sum over i of [v[i] * x[i][t]]. *)
Definition vecmat {T} `{Lin T} (v : vec R) (x : mat T) : vec T :=
  map (fun t => lsum (map2 (fun c row => lscale c (nth t row lzero)) v x))
      (seq 0 (ncols x)).

(** [a @ x] *)
Definition matmul {T} `{Lin T} (a : mat R) (x : mat T) : mat T :=
  map (fun arow => vecmat arow x) a.

(** [a[:, -1]] *)
Definition last_column (a : mat R) : vec R := map (fun row => last row 0) a.

Definition lin_sub_num (e : LinExpr) (c : R) : LinExpr := lin_sub e (of_num c).

Definition add_1st_stage_constraints (mdl : Model) (pars : Pars)
    (vars : Vars1 Var) : Model :=
  let X := map (map of_var) (var_X vars) in
  let U := map (map of_var) (var_U vars) in
  let Zp := map of_var (var_Zp vars) in
  let Zm := map of_var (var_Zm vars) in
  (* sufficient sources to produce necessary products *)
  let A := par_A pars in
  let B := par_B pars in
  let con :=
    mflatten (mat_map2 lin_sub (mat_map2 lin_sub_num (matmul (transpose A) X) B) U) in
  let mdl := addConstrs mdl "con_product" LessEqual con in
  (* work force level increase/decrease *)
  let dX := mat_map2 lin_sub (map (@tl _) X) (map (@removelast _) X) in
  let con := map2 lin_sub (map2 lin_sub Zp Zm) (vecmat (last_column A) dX) in
  let mdl := addConstrs mdl "con_work" Equal con in
  (* extra capacity upper bounds *)
  let UB := par_UB pars in
  let con := mflatten (mat_map2 lin_sub_num U UB) in
  addConstrs mdl "con_extracap" LessEqual con.

(** An operation on the last axis of a second-stage array. *)
Definition nd_rows {T U} (f : list T -> list U) (a : ndarray T) : ndarray U :=
  match a with
  | Arr2 m => Arr2 (map f m)
  | Arr3 ts => Arr3 (map (map f) ts)
  end.

(** [vars_1st] is read at ['X'] only, so the embedding takes that array;
    it holds solver variables (EV, TS, WS, MRP) or numbers (EEV), both
    seen as linear expressions.  [demands = None] is the default
    argument. *)
Definition add_2nd_stage_constraints (mdl : Model) (pars : Pars)
    (X : mat LinExpr) (vars_2nd : Vars2 Var) (demands : option (ndarray R))
    : Model * option (ndarray Var) :=
  let S := scenario_count (var_Yp vars_2nd) in
  let s := par_s pars in
  let n := par_n pars in
  let Yp := nd_map of_var (var_Yp vars_2nd) in
  let Ym := nd_map of_var (var_Ym vars_2nd) in
  let '(mdl, return_, dvars, demands) :=
    match demands with
    | None =>
        let '(mdl, d) := addVars_nd mdl S n s 0 (Some 0) CONTINUOUS "demand" in
        (mdl, true, Some d, nd_map of_var d)
    | Some d => (mdl, false, None, nd_map of_num d)
    end in
  (* in the first period, zero surplus is assumed *)
  let Ym := nd_rows (fun row => of_num 0 :: row) Ym in
  let con :=
    flatten
      (nd_map2 lin_sub
         (nd_map2 lin_sub
            (nd_map2 lin_add
               (nd_map2 lin_add (Arr2 X) (nd_rows (@removelast _) Ym))
               Yp)
            (nd_rows (@tl _) Ym))
         demands) in
  let mdl := addConstrs mdl "con_demand" Equal con in
  (mdl, if return_ then dvars else None).

(* ================================================================= *)
(** ** External helpers of [util] and [scipy] *)

(** Modelled from the spec: [util.var2val], the shared numeric conversion
    helper, is not part of the analysed file.  It turns an array of
    resolved solver variables into the array of their values ([v.X] of
    every entry), which fails when the model holds no solution. *)
Definition var2val_vec (mdl : Model) (o : vec Var) : result (vec R) :=
  mapR (X_of mdl) o.

Definition var2val_mat (mdl : Model) (o : mat Var) : result (mat R) :=
  mapR (var2val_vec mdl) o.

Definition var2val_nd (mdl : Model) (o : ndarray Var) : result (ndarray R) :=
  match o with
  | Arr2 a => rmap Arr2 (var2val_mat mdl a)
  | Arr3 a => rmap Arr3 (mapR (var2val_mat mdl) a)
  end.

(** The dictionary comprehension [{name: f(var) for name, var in vars1.items()}]. *)
Definition Vars1_values (mdl : Model) (f : R -> R) (v : Vars1 Var)
    : result (Vars1 R) :=
  (X <- var2val_mat mdl (var_X v) ;;
   U <- var2val_mat mdl (var_U v) ;;
   Zp <- var2val_vec mdl (var_Zp v) ;;
   Zm <- var2val_vec mdl (var_Zm v) ;;
   Ok (Vars1_map f (mkVars1 X U Zp Zm)))%res.

Definition Vars2_values (mdl : Model) (f : R -> R) (v : Vars2 Var)
    : result (Vars2 R) :=
  (Yp <- var2val_nd mdl (var_Yp v) ;;
   Ym <- var2val_nd mdl (var_Ym v) ;;
   Ok (Vars2_map f (mkVars2 Yp Ym)))%res.

(** Modelled from the spec: [util.draw_samples], the scenario sampler, is
    not part of the analysed file.  Given a sample count, the parameter
    set, an integer-rounding flag and an optional random seed it returns
    an array of demand draws of shape (count, n, s).  A call with a seed
    is reproducible: its result is a function of the arguments.  A call
    without one consumes the ambient random source. *)
Class Sampler : Type := {
  lhs_seeded : nat -> Pars -> bool -> Z -> Sample;
  lhs_unseeded : nat -> Pars -> bool -> nat -> Sample * nat
}.

Definition draw_samples `{Sampler} (size : nat) (pars : Pars) (asint : bool)
    (seed : option Z) : M Sample :=
  fun env =>
    match seed with
    | Some z =>
        let smp := lhs_seeded size pars asint z in
        (mkEnv (next_id env) (live env) (entropy env) (drawn env ++ [smp]),
         Ok smp)
    | None =>
        let '(smp, e) := lhs_unseeded size pars asint (entropy env) in
        (mkEnv (next_id env) (live env) e (drawn env ++ [smp]), Ok smp)
    end.

(** [scipy.stats.t.ppf(q, df)]: the quantile function of the Student-t
    distribution (nan outside its domain). *)
Class Statistics : Type := {
  t_ppf : R -> Z -> npfloat
}.

(* ================================================================= *)
(** ** The evaluation procedures of [recourse.py] *)

Section Procedures.

Context `{SolverAdapter} `{Sampler} `{Statistics}.

(** The [convert] lambda of [optimize_EV] and [optimize_TS], entry-wise. *)
Definition convert (intvars : bool) : R -> R :=
  if intvars then (fun x => IZR (astype_int x)) else (fun x => x).

(** The model of [optimize_EV] as it stands when [mdl.optimize()] is
    called, with its variable groups. *)
Definition EV_model (mdl : Model) (pars : Pars) (intvars : bool)
    : result (Model * Vars1 Var * Vars2 Var) :=
  (* create the variables *)
  let '(mdl, vars1) := add_1st_stage_variables mdl pars intvars in
  let '(mdl, vars2) := add_2nd_stage_variables mdl pars 1 intvars in
  (* get the 1st and 2nd stage objectives, and sum them up *)
  (obj2 <- get_2nd_stage_objective pars (Vars2_map of_var vars2) ;;
   let mdl :=
     setObjective mdl
       (ladd (get_1st_stage_objective pars (Vars1_map of_var vars1)) obj2) in
   (* add 1st stage constraints *)
   let mdl := add_1st_stage_constraints mdl pars vars1 in
   (* the random variables are replaced with their expected value *)
   let d_mean := par_demand_mean pars in
   let d_mean :=
     if intvars then map (map (fun x => IZR (astype_int x))) d_mean
     else d_mean in
   let '(mdl, _) :=
     add_2nd_stage_constraints mdl pars (map (map of_var) (var_X vars1))
       vars2 (Some (Arr2 d_mean)) in
   Ok (mdl, vars1, vars2))%res.

Definition optimize_EV (pars : Pars) (intvars : bool)
    : M (R * Vars1 R * Vars2 R) :=
  (* initialize model *)
  (mdl <- new_Model "EV" ;;
   '(mdl, vars1, vars2) <- lift (EV_model mdl pars intvars) ;;
   (* run optimization *)
   mdl <- lift (optimize mdl) ;;
   (* retrieve optimal objective value and optimal variables *)
   objval <- lift (ObjVal mdl) ;;
   sol1 <- lift (Vars1_values mdl (convert intvars) vars1) ;;
   sol2 <- lift (Vars2_values mdl (convert intvars) vars2) ;;
   _ <- dispose mdl ;;
   ret (objval, sol1, sol2))%M.

(** The loop [for i in range(S)] of [optimize_EEV] and of [optimize_WS]
    (the two loops are the same text): the demand placeholder is fixed to
    the i-th sample, the model optimised, and the objective appended
    unless the status is INFEASIBLE. *)
Fixpoint solve_scenarios (mdl : Model) (demands : ndarray Var)
    (samples : list (mat R)) (results : list R)
    : result (Model * list R) :=
  match samples with
  | [] => Ok (mdl, results)
  | sample_i :: rest =>
      (* set demands to the i-th sample *)
      let mdl := fix_var mdl demands (Arr2 sample_i) in
      (* run optimization and save its result *)
      (mdl <- optimize mdl ;;
       if negb (Status_eqb (Status_of mdl) INFEASIBLE) then
         (v <- ObjVal mdl ;;
          solve_scenarios mdl demands rest (results ++ [v]))
       else solve_scenarios mdl demands rest results)%res
  end.

(** [add_2nd_stage_constraints] called without demands returns the
    placeholder. *)
Definition placeholder (d : option (ndarray Var)) : ndarray Var :=
  match d with
  | Some a => a
  | None => Arr2 []
  end.

(** The model of [optimize_EEV] before its loop, with the demand
    placeholder. *)
Definition EEV_model (mdl : Model) (pars : Pars) (EV_vars1 : Vars1 R)
    (intvars : bool) : result (Model * ndarray Var) :=
  (* create only 2nd variables, 1st stage variables are taken from the EV sol *)
  let '(mdl, vars2) := add_2nd_stage_variables mdl pars 1 intvars in
  (* get numerical 1st stage and symbolical 2nd stage objectives *)
  (obj2 <- get_2nd_stage_objective pars (Vars2_map of_var vars2) ;;
   let mdl :=
     setObjective mdl
       (ladd (of_num (get_1st_stage_objective pars EV_vars1)) obj2) in
   (* add only 2nd stage constraints *)
   let '(mdl, demands) :=
     add_2nd_stage_constraints mdl pars (map (map of_num) (var_X EV_vars1))
       vars2 None in
   Ok (mdl, placeholder demands))%res.

Definition optimize_EEV (pars : Pars) (EV_vars1 : Vars1 R)
    (samples : Sample) (intvars : bool) : M (list R) :=
  (mdl <- new_Model "EEV" ;;
   '(mdl, demands) <- lift (EEV_model mdl pars EV_vars1 intvars) ;;
   (* solve each scenario *)
   '(mdl, results) <- lift (solve_scenarios mdl demands samples []) ;;
   _ <- dispose mdl ;;
   ret results)%M.

(** [(a > 0).sum() / a.size] *)
Definition positive_fraction (a : ndarray R) : npfloat :=
  let l := flatten a in
  np_div (Some (INR (length (filter (fun x => if Rlt_dec 0 x then true else false) l))))
         (Some (INR (length l))).

Definition TS_model (mdl : Model) (pars : Pars) (samples : Sample)
    (intvars : bool) : result (Model * Vars1 Var * Vars2 Var) :=
  (* get the number of scenarios *)
  let S := length samples in
  (* create 1st stage variables and 2nd stage variables, one per scenario *)
  let '(mdl, vars1) := add_1st_stage_variables mdl pars intvars in
  let '(mdl, vars2) := add_2nd_stage_variables mdl pars S intvars in
  (* set objective *)
  let obj1 := get_1st_stage_objective pars (Vars1_map of_var vars1) in
  (obj2 <- get_2nd_stage_objective pars (Vars2_map of_var vars2) ;;
   let mdl := setObjective mdl (ladd obj1 obj2) in
   (* set constraints *)
   let mdl := add_1st_stage_constraints mdl pars vars1 in
   let '(mdl, _) :=
     add_2nd_stage_constraints mdl pars (map (map of_var) (var_X vars1))
       vars2 (Some (Arr3 samples)) in
   Ok (mdl, vars1, vars2))%res.

Definition optimize_TS (pars : Pars) (samples : Sample) (intvars : bool)
    : M (R * Vars1 R * npfloat) :=
  (mdl <- new_Model "LSDE" ;;
   '(mdl, vars1, vars2) <- lift (TS_model mdl pars samples intvars) ;;
   (* solve *)
   mdl <- lift (optimize mdl) ;;
   (* return the solution *)
   objval <- lift (ObjVal mdl) ;;
   sol1 <- lift (Vars1_values mdl (convert intvars) vars1) ;;
   sol2 <- lift (Vars2_values mdl (convert intvars) vars2) ;;
   (* compute the purchase probability *)
   let purchase_prob := positive_fraction (var_Yp sol2) in
   _ <- dispose mdl ;;
   ret (objval, sol1, purchase_prob))%M.

(** The model of [optimize_WS] before its loop. *)
Definition WS_model (mdl : Model) (pars : Pars) (intvars : bool)
    : result (Model * ndarray Var) :=
  (* create 1st and 2nd stage variables *)
  let '(mdl, vars1) := add_1st_stage_variables mdl pars intvars in
  let '(mdl, vars2) := add_2nd_stage_variables mdl pars 1 intvars in
  (* set objective *)
  (obj2 <- get_2nd_stage_objective pars (Vars2_map of_var vars2) ;;
   let mdl :=
     setObjective mdl
       (ladd (get_1st_stage_objective pars (Vars1_map of_var vars1)) obj2) in
   (* set constraints *)
   let mdl := add_1st_stage_constraints mdl pars vars1 in
   let '(mdl, demands) :=
     add_2nd_stage_constraints mdl pars (map (map of_var) (var_X vars1))
       vars2 None in
   Ok (mdl, placeholder demands))%res.

Definition optimize_WS (pars : Pars) (samples : Sample) (intvars : bool)
    : M (list R) :=
  (mdl <- new_Model "LSDE" ;;
   '(mdl, demands) <- lift (WS_model mdl pars intvars) ;;
   (* solve each scenario *)
   '(mdl, results) <- lift (solve_scenarios mdl demands samples []) ;;
   ret results)%M.

(** A loop in the [result] monad with an accumulator. *)
Fixpoint foldR {A B} (f : B -> A -> result B) (l : list A) (b : B)
    : result B :=
  match l with
  | [] => Ok b
  | a :: l' => (b' <- f b a ;; foldR f l' b')%res
  end.

(** [sample[i]] *)
Definition sample_at (sample : Sample) (i : nat) : result (mat R) :=
  match nth_error sample i with
  | Some d => Ok d
  | None => Raised IndexError
  end.

(** The main model of [run_MRP]: first-stage variables, one set of
    second-stage variables per scenario, demand as placeholders. *)
Definition MRP_model (mdl : Model) (pars : Pars) (S : nat) (intvars : bool)
    : result (Model * Vars1 Var * ndarray Var) :=
  let '(mdl, vars1) := add_1st_stage_variables mdl pars intvars in
  let '(mdl, vars2) := add_2nd_stage_variables mdl pars S intvars in
  let obj1 := get_1st_stage_objective pars (Vars1_map of_var vars1) in
  (obj2 <- get_2nd_stage_objective pars (Vars2_map of_var vars2) ;;
   let mdl := setObjective mdl (ladd obj1 obj2) in
   let mdl := add_1st_stage_constraints mdl pars vars1 in
   let '(mdl, demands) :=
     add_2nd_stage_constraints mdl pars (map (map of_var) (var_X vars1))
       vars2 None in
   Ok (mdl, vars1, placeholder demands))%res.

(** The submodel of [run_MRP], which solves only the second-stage
    problem: a placeholder for X, second-stage variables of one scenario
    and a demand placeholder. *)
Definition MRP_submodel (sub : Model) (pars : Pars) (intvars : bool)
    : result (Model * mat Var * ndarray Var) :=
  let n := par_n pars in
  let s := par_s pars in
  let '(sub, sub_X) := addVars2 sub n s 0 (Some 0) CONTINUOUS "X" in
  let '(sub, sub_vars2) := add_2nd_stage_variables sub pars 1 intvars in
  (obj2 <- get_2nd_stage_objective pars (Vars2_map of_var sub_vars2) ;;
   let sub := setObjective sub obj2 in
   let '(sub, sub_demand) :=
     add_2nd_stage_constraints sub pars (map (map of_var) sub_X)
       sub_vars2 None in
   Ok (sub, sub_X, placeholder sub_demand))%res.

(** One pass of the inner loop [for i in range(S)] of [run_MRP]. *)
Definition MRP_scenario (pars : Pars) (solution vars1_k : Vars1 R)
    (S : nat) (sample : Sample) (sub_X : mat Var) (sub_demand : ndarray Var)
    (st : Model * R) (i : nat) : result (Model * R) :=
  let '(sub, G_k) := st in
  (* solve v(w_k_s, x_hat) *)
  (d <- sample_at sample i ;;
   let sub := fix_var sub sub_demand (Arr2 d) in
   let sub := fix_var sub (Arr2 sub_X) (Arr2 (var_X solution)) in
   sub <- optimize sub ;;
   objval <- ObjVal sub ;;
   let a := get_1st_stage_objective pars solution + objval in
   (* solve v(w_k_s, x_k) *)
   let sub := fix_var sub (Arr2 sub_X) (Arr2 (var_X vars1_k)) in
   objval <- ObjVal sub ;;
   let b := get_1st_stage_objective pars vars1_k + objval in
   (* accumulate in G_k *)
   Ok (sub, G_k + (a - b) / INR S))%res.

(** The state carried by the loop over the replicas: the two models and
    the list G. *)
Definition MRP_state : Type := Model * Model * list R.

(** One pass of the loop [for _ in range(replicas)] of [run_MRP]. *)
Definition MRP_replica (pars : Pars) (solution : Vars1 R) (S : nat)
    (intvars : bool) (seed : option Z) (vars1 : Vars1 Var)
    (demands : ndarray Var) (sub_X : mat Var) (sub_demand : ndarray Var)
    (st : MRP_state) (_ : nat) : M MRP_state :=
  let '(mdl, sub, G) := st in
  (* draw a sample *)
  (sample <- draw_samples S pars intvars seed ;;
   lift
     ((* fix the problem's demands to this sample *)
      let mdl := fix_var mdl demands (Arr3 sample) in
      (* solve the problem *)
      mdl <- optimize mdl ;;
      vars1_k <- Vars1_values mdl (fun x => x) vars1 ;;
      (* calculate G_k *)
      '(sub, G_k) <-
        foldR (MRP_scenario pars solution vars1_k S sample sub_X sub_demand)
              (seq 0 S) (sub, 0) ;;
      Ok (mdl, sub, G ++ [G_k]))%res)%M.

(** The statistics that close [run_MRP]: the upper confidence bound
    computed from the list G.  [sG_ = G.std(ddof=1)] is computed by the
    source and never used; it cannot raise. *)
Definition confidence_bound (alpha : R) (replicas : Z) (G : list R)
    : result npfloat :=
  let G_bar := np_mean G in
  (inv <- py_truediv 1 (replicas - 1) ;;
   let sq := map (fun g => let d := np_sub (Some g) G_bar in np_mul d d) G in
   let sG := np_sqrt (np_mul (Some inv) (np_sum sq)) in
   let eps :=
     np_div (np_mul (t_ppf alpha (replicas - 1)) sG)
            (np_sqrt (Some (IZR replicas))) in
   Ok (np_add G_bar eps))%res.

(** The part of [run_MRP] that produces the list G of per-replica gap
    values: both models are built, the replicas run, the models
    disposed. *)
Definition MRP_gaps (pars : Pars) (solution : Vars1 R) (sample_size : nat)
    (replicas : Z) (intvars : bool) (seed : option Z) : M (list R) :=
  let S := sample_size in
  (mdl <- new_Model "LSDE" ;;
   '(mdl, vars1, demands) <- lift (MRP_model mdl pars S intvars) ;;
   (* create also a submodel to solve only the second stage problem *)
   sub <- new_Model "sub" ;;
   '(sub, sub_X, sub_demand) <- lift (MRP_submodel sub pars intvars) ;;
   (* start the MRP *)
   '(mdl, sub, G) <-
     foldM (MRP_replica pars solution S intvars seed vars1 demands
              sub_X sub_demand)
           (seq 0 (Z.to_nat replicas)) (mdl, sub, []) ;;
   _ <- dispose mdl ;;
   _ <- dispose sub ;;
   ret G)%M.

Definition run_MRP (pars : Pars) (solution : Vars1 R) (sample_size : nat)
    (alpha : R) (replicas : Z) (intvars : bool) (seed : option Z)
    : M npfloat :=
  (G <- MRP_gaps pars solution sample_size replicas intvars seed ;;
   (* compute the confidence interval *)
   lift (confidence_bound alpha replicas G))%M.

End Procedures.

(* ================================================================= *)
(** * Reference definitions

    Quantities named by the specification, written from its words; the
    properties below compare them with what the code computes. *)

(** The sum of [f i] for i below [n]. *)
Definition Rsum_below (n : nat) (f : nat -> R) : R := Rsum (map f (seq 0 n)).

(** The cost of the quantities [y] of one scenario at the unit costs
    [cost]: over the n products and the s periods, the quantity of
    product i in period t times its unit cost. *)
Definition weighted_total (n s : nat) (cost y : mat R) : R :=
  Rsum_below n
    (fun i => Rsum_below s (fun t => mget 0 cost i t * mget 0 y i t)).

(** The recourse cost of one scenario: shortage and surplus weighted by
    their costs. *)
Definition recourse_cost (pars : Pars) (yp ym : mat R) : R :=
  weighted_total (par_n pars) (par_s pars) (par_Qp pars) yp
  + weighted_total (par_n pars) (par_s pars) (par_Qm pars) ym.

(** The shortage cost and the surplus cost summed over the scenarios of
    a rank-3 solution. *)
Definition summed_recourse_cost (pars : Pars) (yps yms : list (mat R)) : R :=
  Rsum_below (length yps)
    (fun k => weighted_total (par_n pars) (par_s pars) (par_Qp pars)
                (nth k yps []))
  + Rsum_below (length yms)
      (fun k => weighted_total (par_n pars) (par_s pars) (par_Qm pars)
                  (nth k yms [])).

(** The arithmetic mean of the [replicas] values of G. *)
Definition G_mean (replicas : Z) (G : list R) : R := Rsum G / IZR replicas.

(** The sample standard deviation of the values of G, with denominator
    [replicas - 1]. *)
Definition G_sample_std (replicas : Z) (G : list R) : R :=
  sqrt (Rsum (map (fun g => (g - G_mean replicas G) ^ 2) G)
        / (IZR replicas - 1)).

(** The one-sided upper confidence bound with Student-t quantile [t]. *)
Definition gap_upper_bound (t : R) (replicas : Z) (G : list R) : R :=
  G_mean replicas G + t * G_sample_std replicas G / sqrt (IZR replicas).

(** A second-stage array fits [K] scenarios of shape (n, s): a rank-2
    array has shape (n, s), a rank-3 array shape (K, n, s). *)
Definition nd_compat {T} (a : ndarray T) (K n s : nat) : Prop :=
  match a with
  | Arr2 m => mat_shape m n s
  | Arr3 ts => length ts = K /\ Forall (fun m => mat_shape m n s) ts
  end.

Definition is_rank3 {T} (a : ndarray T) : bool :=
  match a with Arr2 _ => false | Arr3 _ => true end.

(** Default entry for indexing arrays of variables out of range. *)
Definition no_var : Var := mkVar "" [].

(** The surplus carried into period [t] of product [i] in scenario [k]
    under the assignment [rho]: zero at the first period, the surplus
    ['Y-'] of the previous period afterwards. *)
Definition carried_surplus (rho : Var -> R) (Ym : ndarray Var)
    (k i t : nat) : R :=
  match t with
  | O => 0
  | S t' => rho (nd_get no_var Ym k i t')
  end.

(** The arrays that [count] successive unseeded calls of the sampler hand
    out when the random source starts in state [e]. *)
Fixpoint successive_draws `{Sampler} (size : nat) (pars : Pars)
    (asint : bool) (e : nat) (count : nat) : list Sample :=
  match count with
  | O => []
  | S count' =>
      let '(smp, e') := lhs_unseeded size pars asint e in
      smp :: successive_draws size pars asint e' count'
  end.

(** The total cost of a first-stage solution under one scenario, as the
    submodel of the MRP evaluates it: the demand placeholder is fixed to
    the scenario, the placeholder of X to the solution, the submodel is
    optimised, and its objective added to the first-stage cost. *)
Definition total_cost `{SolverAdapter} (pars : Pars) (sub : Model)
    (sub_X : mat Var) (sub_demand : ndarray Var) (first_stage : Vars1 R)
    (d : mat R) : result R :=
  let sub := fix_var sub sub_demand (Arr2 d) in
  let sub := fix_var sub (Arr2 sub_X) (Arr2 (var_X first_stage)) in
  (sub <- optimize sub ;;
   objval <- ObjVal sub ;;
   Ok (get_1st_stage_objective pars first_stage + objval))%res.

(** The per-replica gap value of the paired-sample estimator: over the
    scenarios of the replica, the sum of (total cost of the candidate
    minus total cost of the replica's own solution [x_k], both under the
    same scenario) divided by the number of scenarios. *)
Definition paired_gap `{SolverAdapter} (pars : Pars) (sub : Model)
    (sub_X : mat Var) (sub_demand : ndarray Var)
    (candidate x_k : Vars1 R) (sample : Sample) : result R :=
  (diffs <-
     mapR (fun d =>
             a <- total_cost pars sub sub_X sub_demand candidate d ;;
             b <- total_cost pars sub sub_X sub_demand x_k d ;;
             Ok (a - b))
          sample ;;
   Ok (Rsum (map (fun c => c / INR (length sample)) diffs)))%res.



(** The problems handed to the optimiser, one per scenario, by the loop
    of [optimize_EEV] and [optimize_WS] started on problem [p]: at each
    pass the bounds of the demand placeholder are overwritten. *)
Fixpoint scenario_problems (p : Problem) (demands : ndarray Var)
    (samples : list (mat R)) : list Problem :=
  match samples with
  | [] => []
  | d :: rest =>
      let p' := fix_bounds p (flatten demands) (flatten (Arr2 d)) in
      p' :: scenario_problems p' demands rest
  end.

Definition EEV_problems (pars : Pars) (EV_vars1 : Vars1 R) (intvars : bool)
    (samples : Sample) (env : Env) : list Problem :=
  match EEV_model (fresh_model "EEV" env) pars EV_vars1 intvars with
  | Ok (mdl, demands) => scenario_problems (problem mdl) demands samples
  | Raised _ => []
  end.

Definition WS_problems (pars : Pars) (intvars : bool) (samples : Sample)
    (env : Env) : list Problem :=
  match WS_model (fresh_model "LSDE" env) pars intvars with
  | Ok (mdl, demands) => scenario_problems (problem mdl) demands samples
  | Raised _ => []
  end.

(** The solve reported the INFEASIBLE status. *)
Definition infeasible (r : result Outcome) : bool :=
  match r with
  | Ok o => Status_eqb (status o) INFEASIBLE
  | Raised _ => false
  end.

(** The solve did not raise and, unless it reported INFEASIBLE, left an
    objective value to read. *)
Definition usable (r : result Outcome) : Prop :=
  match r with
  | Ok o => status o = INFEASIBLE \/ solution o <> None
  | Raised _ => False
  end.

(** What a scenario contributes to the returned list. *)
Definition objective_of (r : result Outcome) : list R :=
  match r with
  | Ok o =>
      if Status_eqb (status o) INFEASIBLE then []
      else match solution o with
           | Some sv => [sol_obj sv]
           | None => []
           end
  | Raised _ => []
  end.

(** The value that [setAttr] leaves on the variable [v] once the pairs of
    [vars] and [values] have been applied in list order: the value of the
    last pair that names [v], if there is one. *)
Fixpoint assigned (v : Var) (vars : list Var) (values : list R) : option R :=
  match vars, values with
  | w :: vars', x :: values' =>
      match assigned v vars' values' with
      | Some y => Some y
      | None => if Var_eqb v w then Some x else None
      end
  | _, _ => None
  end.

(** A declaration whose two bounds are the value assigned to its
    variable; a declaration of a variable that is not listed is kept. *)
Definition fixed_decl (vars : list Var) (values : list R) (d : VarDecl)
    : VarDecl :=
  match assigned (dvar d) vars values with
  | Some x => mkDecl (dvar d) x (Some x) (VTypeOf d)
  | None => d
  end.

(** The conditions that the first-stage constraints put on an assignment
    [rho] of the variables.  Capacity: in every period the consumption of
    every resource is at most its base capacity plus the extra capacity
    bought. *)
Definition capacity_respected (pars : Pars) (rho : Var -> R)
    (vars : Vars1 Var) : Prop :=
  forall j t, (j < par_m pars)%nat -> (t < par_s pars)%nat ->
    Rsum_below (par_n pars)
      (fun i => mget 0 (par_A pars) i j * rho (mget no_var (var_X vars) i t))
    <= mget 0 (par_B pars) j t + rho (mget no_var (var_U vars) j t).

(** Workforce: between consecutive periods the increase minus the
    decrease equals the change of the consumption of the last resource. *)
Definition workforce_balanced (pars : Pars) (rho : Var -> R)
    (vars : Vars1 Var) : Prop :=
  forall t, (t < par_s pars - 1)%nat ->
    rho (nth t (var_Zp vars) no_var) - rho (nth t (var_Zm vars) no_var)
    = Rsum_below (par_n pars)
        (fun i => mget 0 (par_A pars) i (par_m pars - 1)
                  * (rho (mget no_var (var_X vars) i (S t))
                     - rho (mget no_var (var_X vars) i t))).

(** Extra capacity: at most its upper bound. *)
Definition extra_capacity_bounded (pars : Pars) (rho : Var -> R)
    (vars : Vars1 Var) : Prop :=
  forall j t, (j < par_m pars)%nat -> (t < par_s pars)%nat ->
    rho (mget no_var (var_U vars) j t) <= mget 0 (par_UB pars) j t.

(** Demand balance over [K] scenarios: production plus the surplus
    carried over plus the shortage minus the surplus equals the demand. *)
Definition demand_balanced (pars : Pars) (rho : Var -> R) (X : mat Var)
    (vars : Vars2 Var) (K : nat) (demand : nat -> nat -> nat -> R) : Prop :=
  forall k i t, (k < K)%nat -> (i < par_n pars)%nat -> (t < par_s pars)%nat ->
    rho (mget no_var X i t) + carried_surplus rho (var_Ym vars) k i t
    + rho (nd_get no_var (var_Yp vars) k i t)
    - rho (nd_get no_var (var_Ym vars) k i t)
    = demand k i t.

(** What an optimiser is asked for.  An assignment is feasible for a
    problem when every variable is within its bounds, every variable
    declared INTEGER has an integer value, and every constraint holds. *)
Definition within_bounds (rho : Var -> R) (d : VarDecl) : Prop :=
  LB d <= rho (dvar d)
  /\ match UB d with Some u => rho (dvar d) <= u | None => True end.

Definition integral (rho : Var -> R) (d : VarDecl) : Prop :=
  match VTypeOf d with
  | INTEGER => exists z : Z, rho (dvar d) = IZR z
  | CONTINUOUS => True
  end.

Definition feasible (p : Problem) (rho : Var -> R) : Prop :=
  Forall (within_bounds rho) (pvars p)
  /\ Forall (integral rho) (pvars p)
  /\ Forall (holds rho) (pconstrs p).

(** A solution is an optimum of a problem when it is feasible, its
    objective value is the value of the objective at it, and no feasible
    assignment has a smaller one. *)
Definition optimum (p : Problem) (sv : SolutionVals) : Prop :=
  feasible p (sol_x sv)
  /\ sol_obj sv = eval (sol_x sv) (pobjective p)
  /\ forall rho, feasible p rho -> sol_obj sv <= eval rho (pobjective p).

(** The objective that the submodel of the MRP reports for the scenario
    [d] when its first-stage placeholder holds the production of
    [first_stage]. *)
Definition recourse_value `{SolverAdapter} (sub : Model) (sub_X : mat Var)
    (sub_demand : ndarray Var) (first_stage : Vars1 R) (d : mat R)
    : result R :=
  let sub := fix_var sub sub_demand (Arr2 d) in
  let sub := fix_var sub (Arr2 sub_X) (Arr2 (var_X first_stage)) in
  (sub <- optimize sub ;; ObjVal sub)%res.

(** The value that the inner loop of [run_MRP] accumulates from the
    recourse values [objs] of the scenarios, taken in order: for each
    scenario the total cost of the candidate minus the total cost of
    [x_k], both formed with the same recourse value, divided by the
    number of scenarios. *)
Definition accumulated_gap (pars : Pars) (candidate x_k : Vars1 R) (S : nat)
    (objs : list R) : R :=
  fold_left
    (fun G_k o =>
       G_k + ((get_1st_stage_objective pars candidate + o)
              - (get_1st_stage_objective pars x_k + o)) / INR S)
    objs 0.

(** The parameter arrays have the shapes that the counts n, s, m
    announce, with at least one product and one resource. *)
Definition consistent (pars : Pars) : Prop :=
  (1 <= par_n pars)%nat /\ (1 <= par_m pars)%nat
  /\ mat_shape (par_A pars) (par_n pars) (par_m pars)
  /\ mat_shape (par_B pars) (par_m pars) (par_s pars)
  /\ mat_shape (par_UB pars) (par_m pars) (par_s pars).

(* ================================================================= *)
(** * A small instance

    One product, one period, one resource: production costs 1 per unit,
    a shortage 3 and a surplus 1; capacity 10 and no extra capacity.  For
    a demand d between 0 and 10 the two-stage optimum produces X = d at
    cost d, and the recourse cost of a fixed production x is
    3 max(d - x, 0) + max(x - d, 0). *)

Definition pars0 : Pars :=
  mkPars 1 1 1 [[1]] [[0]] [] [] [[3]] [[1]] [[1]] [[10]] [[0]] [[5]].

(** The same product over two periods, with a unit cost for changing the
    workforce. *)
Definition pars2 : Pars :=
  mkPars 2 1 1 [[1; 1]] [[0; 0]] [1] [1] [[3; 3]] [[1; 1]] [[1]]
         [[10; 10]] [[0; 0]] [[5; 5]].

(** The variable groups of one scenario on [pars2]. *)
Definition vars1_2 : Vars1 Var :=
  snd (add_1st_stage_variables
         (mkModel 0 "EV" (mkProblem [] [] (of_num 0)) no_outcome) pars2 false).

Definition vars2_2 : Vars2 Var :=
  snd (add_2nd_stage_variables
         (mkModel 0 "EV" (mkProblem [] [] (of_num 0)) no_outcome) pars2 1 false).

(** A first-stage plan that produces [x] units. *)
Definition plan (x : R) : Vars1 R := mkVars1 [[x]] [[0]] [] [].

Definition find_decl (v : Var) (ds : list VarDecl) : option VarDecl :=
  find (fun d => Var_eqb (dvar d) v) ds.

Definition LB_of (p : Problem) (name : string) (idx : list nat) : R :=
  match find_decl (mkVar name idx) (pvars p) with
  | Some d => LB d
  | None => 0
  end.

Definition is_fixed (p : Problem) (name : string) (idx : list nat) : bool :=
  match find_decl (mkVar name idx) (pvars p) with
  | Some d => match UB d with Some _ => true | None => false end
  | None => false
  end.

(** The exact optimiser of the models that [run_MRP] builds on [pars0]
    with one scenario per sample: the submodel (X fixed by its bounds) is
    solved by the recourse formula, the main model by producing the
    demand. *)
Definition solve0 (p : Problem) : result Outcome :=
  let d := LB_of p "demand" [0; 0]%nat in
  if is_fixed p "X" [0; 0]%nat then
    let x := LB_of p "X" [0; 0]%nat in
    let yp := Rmax (d - x) 0 in
    let ym := Rmax (x - d) 0 in
    Ok (mkOutcome OPTIMAL
          (Some (mkSol (3 * yp + 1 * ym)
                   (fun v =>
                      if String.eqb (vname v) "Y+" then yp
                      else if String.eqb (vname v) "Y-" then ym
                      else if String.eqb (vname v) "X" then x
                      else d))))
  else
    Ok (mkOutcome OPTIMAL
          (Some (mkSol (1 * d)
                   (fun v =>
                      if String.eqb (vname v) "X" then d
                      else if String.eqb (vname v) "demand" then d
                      else 0)))).

Definition solver0 : SolverAdapter := Build_SolverAdapter solve0.

(** A solver for the scenario loops on [pars0]: a demand above the
    capacity 10 is INFEASIBLE, any other demand d is met at cost d. *)
Definition solve_capacity (p : Problem) : result Outcome :=
  let d := LB_of p "demand" [0; 0]%nat in
  if Rlt_dec 10 d then Ok (mkOutcome INFEASIBLE None)
  else Ok (mkOutcome OPTIMAL (Some (mkSol (1 * d) (fun _ => d)))).

Definition solver_capacity : SolverAdapter :=
  Build_SolverAdapter solve_capacity.

(** A solver that gives the same answer to every problem. *)
Definition constant_solver (r : result Outcome) : SolverAdapter :=
  Build_SolverAdapter (fun _ => r).

(** A sampler whose draws are constant arrays: the seed itself when one
    is given, the state of the random source (which then advances)
    otherwise. *)
Definition constant_sample (size : nat) (pars : Pars) (x : R) : Sample :=
  repeat (repeat (repeat x (par_s pars)) (par_n pars)) size.

Definition sampler0 : Sampler :=
  Build_Sampler
    (fun size pars _ z => constant_sample size pars (IZR z))
    (fun size pars _ e => (constant_sample size pars (INR e), Datatypes.S e)).

(** A quantile function that answers 2 on every valid query. *)
Definition statistics0 : Statistics :=
  Build_Statistics (fun _ df => if (df <=? 0)%Z then nan else Some 2).

(** A quantile function that is defined for levels strictly between 0
    and 1 only. *)
Definition statistics_open_interval : Statistics :=
  Build_Statistics
    (fun q _ =>
       if Rlt_dec 0 q then if Rlt_dec q 1 then Some 2 else nan else nan).


(** The demand d of a model built with a constant demand for one
    product and one period: its demand constraint reads
    X + 0 + Y+ - Y- - d == 0, so d is the opposite of the constant of
    the left-hand side. *)
Definition demand_of (p : Problem) : R :=
  match find (fun c => String.eqb (cname c) "con_demand") (pconstrs p) with
  | Some c => - const (clhs c)
  | None => 0
  end.

(** The exact optimiser of the models that [optimize_EV] and
    [optimize_TS] (with one scenario) build on the costs and the capacity
    of [pars0]: a demand d between 0 and 10 is produced at cost d; of a
    larger one 10 units are produced and the rest is a shortage; a
    negative one leaves the surplus -d. *)
Definition solve_mean (p : Problem) : result Outcome :=
  let d := demand_of p in
  let x := Rmax 0 (Rmin d 10) in
  let yp := Rmax (d - 10) 0 in
  let ym := Rmax (- d) 0 in
  Ok (mkOutcome OPTIMAL
        (Some (mkSol (1 * x + (3 * yp + 1 * ym))
                 (fun v =>
                    if String.eqb (vname v) "X" then x
                    else if String.eqb (vname v) "Y+" then yp
                    else if String.eqb (vname v) "Y-" then ym
                    else 0)))).

Definition solver_mean : SolverAdapter := Build_SolverAdapter solve_mean.

Definition env0 : Env := mkEnv 0 [] 0 [].

(** An assignment of the variables of the two-period instance: 3 units
    are produced in the first period and 5 in the second, and the
    workforce is increased by 2 in between. *)
Definition assignment2 (v : Var) : R :=
  if String.eqb (vname v) "X" then
    if index_eqb (vidx v) [0; 1]%nat then 5 else 3
  else if String.eqb (vname v) "Z+" then 2
  else 0.

(** Two scenarios: a demand of 5 and a demand of 20, above the capacity. *)
Definition samples0 : Sample := [[[5]]; [[20]]].

(* ================================================================= *)
(** * The second-stage objective on machine numbers

    [get_2nd_stage_objective] once more, for arrays of numbers, with the
    entries read as IEEE 754 binary64 numbers and every operation
    rounded as the machine rounds it. *)

Module Binary64.

Import Floats.
Local Open Scope float_scope.

(** The two keys of [pars] that the function reads. *)
Record Pars : Type := mkPars { par_Qp : mat float; par_Qm : mat float }.

Record Vars2 : Type := mkVars2 {
  var_Yp : ndarray float;
  var_Ym : ndarray float
}.

(** The order in which [a.sum()] adds the entries of an array is numpy's
    business, and so is the way in which gurobipy divides an expression
    by a number; both are parameters of the function below. *)
Section Objective.

Variable array_sum : list float -> float.
Variable divide : float -> float -> float.

(** [(cost * var).sum()] *)
Definition cost_sum_nd (cost : mat float) (var : ndarray float) : float :=
  array_sum (flatten (nd_map2 PrimFloat.mul (Arr2 cost) var)).

(** [gb.quicksum]: the terms are added to an empty expression one after
    the other. *)
Definition quicksum (l : list float) : float := fold_left PrimFloat.add l 0.

(** The float that a count converts to (exact below 2^53). *)
Definition float_of_nat (n : nat) : float :=
  PrimFloat.of_uint63 (Uint63.of_Z (Z.of_nat n)).

Definition get_2nd_stage_objective (pars : Pars) (vars : Vars2)
    : result float :=
  let S := scenario_count (var_Yp vars) in
  let obj := quicksum [ cost_sum_nd (par_Qp pars) (var_Yp vars);
                        cost_sum_nd (par_Qm pars) (var_Ym vars) ] in
  if Nat.eqb S 0 then Raised ZeroDivisionError
  else Ok (divide obj (float_of_nat S)).

End Objective.

(** The entries added from the first to the last, and from the last to
    the first. *)
Definition sum_forward (l : list float) : float :=
  fold_left PrimFloat.add l 0.

Definition sum_backward (l : list float) : float :=
  fold_right PrimFloat.add 0 l.

(** Division proper, and multiplication by the reciprocal. *)
Definition true_division (x y : float) : float := x / y.

Definition by_reciprocal (x y : float) : float := x * (1 / y).

(** Unit costs of 1, a shortage of 0.7 (the binary64 number nearest to
    it) and no surplus. *)
Definition unit_costs : Pars := mkPars [[1]] [[1]].

Definition seven_tenths : float := 0x1.6666666666666p-1.

Definition shortage : mat float := [[seven_tenths]].

Definition no_surplus : mat float := [[0]].

(** The binary64 number just below [seven_tenths], by one unit in the
    last place: 0.6999999999999998 to sixteen digits. *)
Definition below_seven_tenths : float := 0x1.6666666666665p-1.

End Binary64.

(* ================================================================= *)
(** * Properties *)

(** ** Sums of real lists *)

Lemma lsum_R_eq (l : list R) : lsum l = Rsum l.
Proof. reflexivity. Qed.

Lemma Rsum_app (l1 l2 : list R) : Rsum (l1 ++ l2) = Rsum l1 + Rsum l2.
Proof.
  induction l1 as [|x l1 IH]; simpl.
  - lra.
  - rewrite IH. lra.
Qed.

Lemma cost_sum_nd_Arr3 (cost : mat R) (ys : list (mat R)) :
  cost_sum_nd cost (Arr3 ys) = Rsum (map (cost_sum2 cost) ys).
Proof.
  unfold cost_sum_nd, cost_sum2. rewrite lsum_R_eq. simpl.
  induction ys as [|y ys IH]; simpl.
  - reflexivity.
  - rewrite Rsum_app, IH. reflexivity.
Qed.

(** ** Inversion of the monadic combinators *)

Lemma rbind_Ok_inv {A B} (r : result A) (k : A -> result B) (b : B) :
  rbind r k = Ok b -> exists a, r = Ok a /\ k a = Ok b.
Proof.
  destruct r as [a|e]; simpl; intros E; [eauto | discriminate].
Qed.

Lemma bind_Ok_inv {A B} (m : M A) (k : A -> M B) env env' (b : B) :
  bind m k env = (env', Ok b) ->
  exists env1 a, m env = (env1, Ok a) /\ k a env1 = (env', Ok b).
Proof.
  unfold bind. destruct (m env) as [env1 [a|e]]; intros E.
  - eauto.
  - discriminate.
Qed.

Lemma lift_inv {A} (r : result A) env env' (r' : result A) :
  lift r env = (env', r') -> env' = env /\ r' = r.
Proof. unfold lift. intros E. inversion E. auto. Qed.

Lemma ret_inv {A} (a : A) env env' (r' : result A) :
  ret a env = (env', r') -> env' = env /\ r' = Ok a.
Proof. unfold ret. intros E. inversion E. auto. Qed.

Lemma bind_new_Model {B} (name : string) (k : Model -> M B) env :
  bind (new_Model name) k env = k (fresh_model name env) (env_with_model env).
Proof. reflexivity. Qed.

Lemma bind_lift_Ok {A B} (r : result A) (a : A) (k : A -> M B) env :
  r = Ok a -> bind (lift r) k env = k a env.
Proof. intros ->. reflexivity. Qed.

Lemma bind_lift_Raised {A B} (r : result A) (e : exn) (k : A -> M B) env :
  r = Raised e -> bind (lift r) k env = (env, Raised e).
Proof. intros ->. reflexivity. Qed.

Lemma bind_run_Ok {A B} (m : M A) (k : A -> M B) env env1 (a : A) :
  m env = (env1, Ok a) -> bind m k env = k a env1.
Proof. unfold bind. intros ->. reflexivity. Qed.

Lemma bind_run_Raised {A B} (m : M A) (k : A -> M B) env env1 (e : exn) :
  m env = (env1, Raised e) -> bind m k env = (env1, Raised e).
Proof. unfold bind. intros ->. reflexivity. Qed.

Lemma bind_ret {A B} (a : A) (k : A -> M B) env :
  bind (ret a) k env = k a env.
Proof. reflexivity. Qed.

Ltac inv_bind H :=
  let env1 := fresh "env" in
  let a := fresh "a" in
  let H1 := fresh "Hrun" in
  apply bind_Ok_inv in H; destruct H as (env1 & a & H1 & H).

Ltac inv_rbind H :=
  let a := fresh "a" in
  let H1 := fresh "Hres" in
  apply rbind_Ok_inv in H; destruct H as (a & H1 & H).

Section Properties.

Context `{SolverAdapter} `{Sampler} `{Statistics}.

(** ** The loop over the replicas appends one value per pass *)

Lemma MRP_replica_length pars solution S intvars seed vars1 demands
    sub_X sub_demand mdl sub G i env env' mdl' sub' G' :
  MRP_replica pars solution S intvars seed vars1 demands sub_X sub_demand
    (mdl, sub, G) i env = (env', Ok (mdl', sub', G')) ->
  length G' = (length G + 1)%nat.
Proof.
  unfold MRP_replica. intros E.
  inv_bind E. apply lift_inv in E. destruct E as [_ E]. symmetry in E.
  inv_rbind E. inv_rbind E. inv_rbind E. destruct a2 as [sub1 Gk].
  inversion E; subst. rewrite length_app. simpl. lia.
Qed.

Lemma MRP_loop_length pars solution S intvars seed vars1 demands
    sub_X sub_demand (l : list nat) :
  forall st env env' st',
    foldM (MRP_replica pars solution S intvars seed vars1 demands
             sub_X sub_demand) l st env = (env', Ok st') ->
    length (snd st') = (length (snd st) + length l)%nat.
Proof.
  induction l as [|i l IH]; intros st env env' st' E; simpl in E.
  - apply ret_inv in E. destruct E as [_ E]. inversion E. simpl. lia.
  - inv_bind E. destruct st as [[mdl sub] G]. destruct a as [[mdl1 sub1] G1].
    apply MRP_replica_length in Hrun.
    apply IH in E. simpl in *. lia.
Qed.

Lemma MRP_gaps_length pars solution sample_size replicas intvars seed
    env env' G :
  MRP_gaps pars solution sample_size replicas intvars seed env = (env', Ok G) ->
  length G = Z.to_nat replicas.
Proof.
  unfold MRP_gaps. intros E.
  inv_bind E. inv_bind E. destruct a0 as [[mdl vars1] demands].
  inv_bind E. inv_bind E. destruct a1 as [[sub sub_X] sub_demand].
  inv_bind E. destruct a1 as [[mdl1 sub1] G1].
  inv_bind E. inv_bind E. apply ret_inv in E. destruct E as [_ E].
  inversion E; subst.
  apply MRP_loop_length in Hrun3. simpl in Hrun3.
  rewrite length_seq in Hrun3. exact Hrun3.
Qed.

End Properties.

(** ** The closing statistics of [run_MRP] *)

Lemma np_sum_Some (l : list R) : np_sum (map (@Some R) l) = Some (Rsum l).
Proof.
  unfold np_sum. induction l as [|x l IH]; simpl; [reflexivity|].
  rewrite IH. reflexivity.
Qed.

Lemma Rsum_squares_nonneg (c : R) (l : list R) :
  0 <= Rsum (map (fun g => (g - c) * (g - c)) l).
Proof.
  induction l as [|x l IH]; [simpl; lra|].
  change (0 <= (x - c) * (x - c)
               + Rsum (map (fun g => (g - c) * (g - c)) l)).
  pose proof (Rle_0_sqr (x - c)) as Hsq. unfold Rsqr in Hsq. lra.
Qed.

Lemma Rsum_map_ext (f g : R -> R) (l : list R) :
  (forall x, f x = g x) -> Rsum (map f l) = Rsum (map g l).
Proof.
  intros E. induction l as [|x l IH]; [reflexivity|].
  change (f x + Rsum (map f l) = g x + Rsum (map g l)).
  now rewrite E, IH.
Qed.

Section Statistics_properties.

Context `{Statistics}.

Lemma confidence_bound_two_or_more (alpha t : R) (replicas : Z) (G : list R) :
  (2 <= replicas)%Z ->
  length G = Z.to_nat replicas ->
  t_ppf alpha (replicas - 1) = Some t ->
  confidence_bound alpha replicas G = Ok (Some (gap_upper_bound t replicas G)).
Proof.
  intros Hrep Hlen Ht.
  assert (Hn : INR (length G) = IZR replicas).
  { rewrite Hlen, INR_IZR_INZ, Z2Nat.id by lia. reflexivity. }
  assert (Hpos : 2 <= IZR replicas) by (apply IZR_le in Hrep; exact Hrep).
  unfold confidence_bound, py_truediv.
  destruct (Z.eqb_spec (replicas - 1) 0) as [E|_]; [lia|].
  unfold rbind. cbv zeta.
  assert (Hmean : np_mean G = Some (G_mean replicas G)).
  { destruct G as [|g G]; [simpl in Hlen; lia|].
    unfold np_mean, G_mean. rewrite Hn. reflexivity. }
  rewrite Hmean, Ht.
  set (c := G_mean replicas G).
  replace (map (fun g => np_mul (np_sub (Some g) (Some c))
                                (np_sub (Some g) (Some c))) G)
    with (map (@Some R) (map (fun g => (g - c) * (g - c)) G))
    by (rewrite map_map; reflexivity).
  rewrite np_sum_Some. simpl np_mul. unfold np_sqrt at 1.
  pose proof (Rsum_squares_nonneg c G) as Hss.
  assert (Hinv : 0 < 1 / IZR (replicas - 1)).
  { rewrite minus_IZR. apply Rdiv_lt_0_compat; lra. }
  destruct (Rlt_dec _ 0) as [Hneg|_].
  { exfalso. apply (Rlt_not_le _ _ Hneg).
    apply Rmult_le_pos; [lra | exact Hss]. }
  simpl np_mul. unfold np_sqrt.
  destruct (Rlt_dec (IZR replicas) 0) as [Hneg|_]; [lra|].
  unfold np_div.
  assert (Hsq : 0 < sqrt (IZR replicas)) by (apply sqrt_lt_R0; lra).
  destruct (Req_dec_T (sqrt (IZR replicas)) 0) as [E0|_]; [lra|].
  simpl. unfold gap_upper_bound, G_sample_std. fold c.
  do 4 f_equal.
  rewrite minus_IZR.
  rewrite (Rsum_map_ext (fun g => (g - c) ^ 2) (fun g => (g - c) * (g - c)))
    by (intros; ring).
  do 2 f_equal. field. lra.
Qed.

Lemma confidence_bound_one (alpha : R) (G : list R) :
  confidence_bound alpha 1 G = Raised ZeroDivisionError.
Proof. reflexivity. Qed.

Lemma confidence_bound_empty (alpha : R) (replicas : Z) :
  (replicas <= 0)%Z ->
  confidence_bound alpha replicas [] = Ok nan.
Proof.
  intros Hrep. unfold confidence_bound, py_truediv.
  destruct (Z.eqb_spec (replicas - 1) 0) as [E|_]; [lia|].
  reflexivity.
Qed.

End Statistics_properties.

(** ** Building the models never fails for a positive sample size *)

Lemma scenario_count_nd_map {T U} (f : T -> U) (a : ndarray T) :
  scenario_count (nd_map f a) = scenario_count a.
Proof.
  destruct a; unfold scenario_count; simpl; [reflexivity|].
  now rewrite length_map.
Qed.

Lemma addVars_nd_count mdl k r c lb ub ty name :
  (1 <= k)%nat ->
  scenario_count (snd (addVars_nd mdl k r c lb ub ty name)) = k.
Proof.
  intros Hk. unfold addVars_nd.
  destruct (Nat.eqb_spec k 1) as [E|E]; simpl.
  - now subst.
  - unfold scenario_count, index3. simpl.
    now rewrite !length_map, length_seq.
Qed.

Lemma add_2nd_stage_variables_count mdl pars k intvars :
  (1 <= k)%nat ->
  scenario_count (var_Yp (snd (add_2nd_stage_variables mdl pars k intvars))) = k.
Proof.
  intros Hk. unfold add_2nd_stage_variables.
  pose proof (addVars_nd_count mdl (par_n pars) (par_s pars) 0 None
                (vtype_of intvars) "Y+" Hk) as E.
  destruct (addVars_nd mdl k (par_n pars) (par_s pars) 0 None
              (vtype_of intvars) "Y+") as [mdl1 Yp].
  destruct (addVars_nd mdl1 k (par_n pars) (par_s pars) 0 None
              (vtype_of intvars) "Y-") as [mdl2 Ym].
  exact E.
Qed.

Lemma get_2nd_stage_objective_Ok {T} `{Lin T} pars (v : Vars2 T) :
  scenario_count (var_Yp v) <> 0%nat ->
  exists e, get_2nd_stage_objective pars v = Ok e.
Proof.
  intros Hc. unfold get_2nd_stage_objective.
  destruct (Nat.eqb_spec (scenario_count (var_Yp v)) 0) as [E|_];
    [contradiction | eauto].
Qed.

Lemma symbolic_objective_Ok mdl pars k intvars :
  (1 <= k)%nat ->
  exists e,
    get_2nd_stage_objective pars
      (Vars2_map of_var (snd (add_2nd_stage_variables mdl pars k intvars)))
    = Ok e.
Proof.
  intros Hk. apply get_2nd_stage_objective_Ok.
  unfold Vars2_map. cbn [var_Yp].
  rewrite scenario_count_nd_map, add_2nd_stage_variables_count by exact Hk.
  lia.
Qed.

Section Model_building.

Context `{SolverAdapter}.

Lemma MRP_model_Ok mdl pars k intvars :
  (1 <= k)%nat -> exists r, MRP_model mdl pars k intvars = Ok r.
Proof.
  intros Hk. unfold MRP_model.
  destruct (add_1st_stage_variables mdl pars intvars) as [mdl1 vars1].
  destruct (symbolic_objective_Ok mdl1 pars intvars Hk) as [e He].
  destruct (add_2nd_stage_variables mdl1 pars k intvars) as [mdl2 vars2].
  simpl in He. rewrite He. simpl.
  destruct (add_2nd_stage_constraints _ _ _ _ _) as [mdl3 d]. eauto.
Qed.

Lemma MRP_submodel_Ok sub pars intvars :
  exists r, MRP_submodel sub pars intvars = Ok r.
Proof.
  unfold MRP_submodel.
  destruct (addVars2 sub (par_n pars) (par_s pars) 0 (Some 0) CONTINUOUS "X")
    as [sub1 sub_X].
  destruct (symbolic_objective_Ok sub1 pars intvars (le_n 1)) as [e He].
  destruct (add_2nd_stage_variables sub1 pars 1 intvars) as [sub2 vars2].
  simpl in He. rewrite He. simpl.
  destruct (add_2nd_stage_constraints _ _ _ _ _) as [sub3 d]. eauto.
Qed.

End Model_building.

Section MRP_properties.

Context `{SolverAdapter} `{Sampler} `{Statistics}.

Lemma MRP_gaps_no_replica pars solution sample_size replicas intvars seed env :
  (1 <= sample_size)%nat ->
  (replicas <= 0)%Z ->
  exists env',
    MRP_gaps pars solution sample_size replicas intvars seed env = (env', Ok []).
Proof.
  intros HS Hrep. unfold MRP_gaps.
  replace (Z.to_nat replicas) with 0%nat by lia.
  rewrite bind_new_Model.
  destruct (MRP_model_Ok (fresh_model "LSDE" env) pars intvars HS)
    as [[[mdl vars1] demands] E1].
  erewrite bind_lift_Ok by exact E1. cbv beta iota.
  rewrite bind_new_Model.
  destruct (MRP_submodel_Ok (fresh_model "sub" (env_with_model env))
              pars intvars) as [[[sub sub_X] sub_demand] E2].
  erewrite bind_lift_Ok by exact E2. cbv beta iota. simpl foldM.
  rewrite bind_ret. cbv beta iota. eexists. reflexivity.
Qed.

(** C3.  [run_MRP] returns G_bar + t s / sqrt(replicas), where G_bar is
    the arithmetic mean of the [replicas] per-replica gap values produced
    by its loop, s their sample standard deviation with denominator
    [replicas - 1], and t the Student-t quantile at level [alpha] with
    [replicas - 1] degrees of freedom, as [stats.t.ppf] reports it. *)
Theorem run_MRP_upper_bound pars solution sample_size alpha replicas
    intvars seed env (t : R) :
  (2 <= replicas)%Z ->
  t_ppf alpha (replicas - 1) = Some t ->
  run_MRP pars solution sample_size alpha replicas intvars seed env
  = (fst (MRP_gaps pars solution sample_size replicas intvars seed env),
     rmap (fun G => Some (gap_upper_bound t replicas G))
          (snd (MRP_gaps pars solution sample_size replicas intvars seed env)))
  /\ (forall env' G,
        MRP_gaps pars solution sample_size replicas intvars seed env
        = (env', Ok G) ->
        length G = Z.to_nat replicas).
Proof.
  intros Hrep Ht. split.
  - unfold run_MRP, bind.
    destruct (MRP_gaps pars solution sample_size replicas intvars seed env)
      as [env' [G|e]] eqn:E; simpl; [|reflexivity].
    unfold lift. f_equal.
    apply confidence_bound_two_or_more; try assumption.
    eapply MRP_gaps_length; eassumption.
  - intros env' G E. eapply MRP_gaps_length; eassumption.
Qed.

Lemma run_MRP_no_replica pars solution sample_size alpha replicas intvars
    seed env :
  (1 <= sample_size)%nat ->
  (replicas <= 0)%Z ->
  exists env',
    run_MRP pars solution sample_size alpha replicas intvars seed env
    = (env', Ok nan).
Proof.
  intros HS Hrep.
  destruct (MRP_gaps_no_replica pars solution intvars seed env HS Hrep)
    as [env' E].
  exists env'. unfold run_MRP, bind. rewrite E. unfold lift.
  now rewrite confidence_bound_empty.
Qed.

(** C10, as amended.  [run_MRP] called with [replicas = 1] never returns:
    the standard-deviation step divides by [replicas - 1], which is zero.
    It can return a number only when [replicas >= 2]; for
    [replicas <= 0] (and a positive sample size) the call does return,
    but the value is nan, the mean of an empty array. *)
Theorem run_MRP_replicas_needed pars solution sample_size alpha replicas
    intvars seed env :
  (replicas = 1%Z ->
   forall env' v,
     run_MRP pars solution sample_size alpha replicas intvars seed env
     <> (env', Ok v))
  /\ (forall env' x,
        run_MRP pars solution sample_size alpha replicas intvars seed env
        = (env', Ok (Some x)) ->
        (2 <= replicas)%Z)
  /\ ((replicas <= 0)%Z -> (1 <= sample_size)%nat ->
      exists env',
        run_MRP pars solution sample_size alpha replicas intvars seed env
        = (env', Ok nan)).
Proof.
  split; [|split].
  - intros -> env' v E. unfold run_MRP in E. inv_bind E.
    apply lift_inv in E. destruct E as [_ E].
    rewrite confidence_bound_one in E. discriminate.
  - intros env' x E. unfold run_MRP in E. inv_bind E.
    apply lift_inv in E. destruct E as [_ E].
    apply MRP_gaps_length in Hrun.
    destruct (Z_le_gt_dec replicas 0) as [Hle|Hgt].
    + replace (Z.to_nat replicas) with 0%nat in Hrun by lia.
      destruct a as [|g G]; [|discriminate].
      rewrite confidence_bound_empty in E by exact Hle. discriminate.
    + destruct (Z.eq_dec replicas 1) as [->|Hne]; [|lia].
      rewrite confidence_bound_one in E. discriminate.
  - intros Hrep HS. now apply run_MRP_no_replica.
Qed.

End MRP_properties.

(** C3, on the small instance with two replicas. *)
Lemma run_MRP_upper_bound_witness :
  (2 <= 2)%Z
  /\ @t_ppf statistics0 (95 / 100) (2 - 1) = Some 2
  /\ @run_MRP solver0 sampler0 statistics0 pars0 (plan 0) 1 (95 / 100) 2
       false None env0
     = (fst (@MRP_gaps solver0 sampler0 pars0 (plan 0) 1 2 false None env0),
        rmap (fun G => Some (gap_upper_bound 2 2 G))
          (snd (@MRP_gaps solver0 sampler0 pars0 (plan 0) 1 2 false None env0))).
Proof.
  split; [lia|]. split; [reflexivity|].
  apply (@run_MRP_upper_bound solver0 sampler0 statistics0 pars0 (plan 0) 1
           (95 / 100) 2 false None env0 2); [lia | reflexivity].
Defined.

(** C10: with no replica at all [run_MRP] returns (the value nan), so a
    return does not imply two replicas. *)
Lemma run_MRP_returns_without_replicas :
  ~ (forall (replicas : Z) env' v,
       @run_MRP solver0 sampler0 statistics0 pars0 (plan 0) 1 (95 / 100)
         replicas false None env0 = (env', Ok v) ->
       (2 <= replicas)%Z).
Proof.
  intros Hclaim.
  destruct (@run_MRP_no_replica solver0 sampler0 statistics0 pars0 (plan 0)
              1 (95 / 100) 0 false None env0) as [env' E]; [lia | lia |].
  apply Hclaim in E. lia.
Qed.

(** C10, as amended, on the small instance. *)
Lemma run_MRP_replicas_needed_witness :
  (0 <= 0)%Z /\ (1 <= 1)%nat
  /\ exists env',
       @run_MRP solver0 sampler0 statistics0 pars0 (plan 0) 1 (95 / 100) 0
         false None env0 = (env', Ok nan).
Proof.
  split; [lia|]. split; [lia|].
  apply (proj2 (proj2 (@run_MRP_replicas_needed solver0 sampler0 statistics0
                         pars0 (plan 0) 1 (95 / 100) 0 false None env0)));
    lia.
Defined.

(** ** The scenario loop of [optimize_EEV] and [optimize_WS] *)

Lemma Status_eqb_eq (a b : Status) : Status_eqb a b = true <-> a = b.
Proof. destruct a, b; simpl; split; intros E; try discriminate; reflexivity. Qed.

Lemma flatten_Arr2 {T} (m : mat T) : flatten (Arr2 m) = mflatten m.
Proof. reflexivity. Qed.

Section Scenario_loop.

Context `{SolverAdapter}.

Lemma solve_scenarios_collects (demands : ndarray Var) (samples : list (mat R)) :
  forall (mdl : Model) (results : list R),
    Forall usable
      (map grb_optimize (scenario_problems (problem mdl) demands samples)) ->
    exists mdl',
      solve_scenarios mdl demands samples results
      = Ok (mdl',
            results ++
            flat_map objective_of
              (map grb_optimize
                 (scenario_problems (problem mdl) demands samples))).
Proof.
  induction samples as [|d rest IH]; intros mdl results Hus.
  - simpl. rewrite app_nil_r. eauto.
  - cbn [scenario_problems map flat_map] in *.
    inversion Hus as [|r rs Hr Hrs]; subst. clear Hus.
    cbn [solve_scenarios]. unfold optimize.
    change (problem (fix_var mdl demands (Arr2 d)))
      with (fix_bounds (problem mdl) (flatten demands) (mflatten d)).
    change (flatten (Arr2 d)) with (mflatten d) in *.
    set (p' := fix_bounds (problem mdl) (flatten demands) (mflatten d)) in *.
    destruct (grb_optimize p') as [o|e] eqn:Eo; [|contradiction].
    cbn [rbind]. unfold Status_of. cbn [outcome].
    set (mdl1 := mkModel _ _ _ o).
    specialize (IH mdl1). change (problem mdl1) with p' in IH.
    cbn [objective_of].
    destruct (Status_eqb (status o) INFEASIBLE) eqn:Es; cbn [negb].
    + apply (IH results Hrs).
    + unfold ObjVal. cbn [outcome mdl1].
      destruct Hr as [Hr|Hr]; [apply Status_eqb_eq in Hr; congruence|].
      destruct (solution o) as [sv|]; [|contradiction].
      cbn [rbind]. destruct (IH (results ++ [sol_obj sv]) Hrs) as [mdl' E].
      exists mdl'. rewrite E. now rewrite <- app_assoc.
Qed.

Lemma scenario_problems_length p demands samples :
  length (scenario_problems p demands samples) = length samples.
Proof.
  revert p. induction samples as [|d rest IH]; intros p; simpl;
    [reflexivity | now rewrite IH].
Qed.

Lemma collected_length (outs : list (result Outcome)) :
  Forall usable outs ->
  (length (flat_map objective_of outs) + length (filter infeasible outs)
   = length outs)%nat.
Proof.
  induction 1 as [|r rs Hr Hrs IH]; [reflexivity|].
  cbn [flat_map filter]. rewrite length_app.
  destruct r as [o|e]; [|contradiction]. cbn [objective_of infeasible].
  destruct (Status_eqb (status o) INFEASIBLE) eqn:Es.
  - simpl. lia.
  - destruct Hr as [Hr|Hr]; [apply Status_eqb_eq in Hr; congruence|].
    destruct (solution o); [|contradiction]. simpl. lia.
Qed.

End Scenario_loop.

Lemma existsb_filter_length {A} (f : A -> bool) (l : list A) :
  existsb f l = true -> (1 <= length (filter f l))%nat.
Proof.
  induction l as [|a l IH]; simpl; [discriminate|].
  destruct (f a); simpl; [lia | exact IH].
Qed.

Section Scenario_procedures.

Context `{SolverAdapter}.

Lemma EEV_model_Ok mdl pars EV_vars1 intvars :
  exists r, EEV_model mdl pars EV_vars1 intvars = Ok r.
Proof.
  unfold EEV_model.
  destruct (symbolic_objective_Ok mdl pars intvars (le_n 1)) as [e He].
  destruct (add_2nd_stage_variables mdl pars 1 intvars) as [mdl2 vars2].
  simpl in He. rewrite He. simpl.
  destruct (add_2nd_stage_constraints _ _ _ _ _) as [mdl3 d]. eauto.
Qed.

Lemma WS_model_Ok mdl pars intvars :
  exists r, WS_model mdl pars intvars = Ok r.
Proof.
  unfold WS_model.
  destruct (add_1st_stage_variables mdl pars intvars) as [mdl1 vars1].
  destruct (symbolic_objective_Ok mdl1 pars intvars (le_n 1)) as [e He].
  destruct (add_2nd_stage_variables mdl1 pars 1 intvars) as [mdl2 vars2].
  simpl in He. rewrite He. simpl.
  destruct (add_2nd_stage_constraints _ _ _ _ _) as [mdl3 d]. eauto.
Qed.

Lemma optimize_EEV_collects pars EV_vars1 samples intvars env :
  Forall usable
    (map grb_optimize (EEV_problems pars EV_vars1 intvars samples env)) ->
  snd (optimize_EEV pars EV_vars1 samples intvars env)
  = Ok (flat_map objective_of
          (map grb_optimize (EEV_problems pars EV_vars1 intvars samples env))).
Proof.
  unfold EEV_problems, optimize_EEV. rewrite bind_new_Model.
  destruct (EEV_model_Ok (fresh_model "EEV" env) pars EV_vars1 intvars)
    as [[mdl demands] E].
  rewrite E. intros Hus.
  erewrite bind_lift_Ok by reflexivity. cbv beta iota.
  destruct (solve_scenarios_collects demands samples mdl [] Hus) as [mdl' E'].
  erewrite bind_lift_Ok by exact E'. reflexivity.
Qed.

Lemma optimize_WS_collects pars samples intvars env :
  Forall usable (map grb_optimize (WS_problems pars intvars samples env)) ->
  snd (optimize_WS pars samples intvars env)
  = Ok (flat_map objective_of
          (map grb_optimize (WS_problems pars intvars samples env))).
Proof.
  unfold WS_problems, optimize_WS. rewrite bind_new_Model.
  destruct (WS_model_Ok (fresh_model "LSDE" env) pars intvars)
    as [[mdl demands] E].
  rewrite E. intros Hus.
  erewrite bind_lift_Ok by reflexivity. cbv beta iota.
  destruct (solve_scenarios_collects demands samples mdl [] Hus) as [mdl' E'].
  erewrite bind_lift_Ok by exact E'. reflexivity.
Qed.

Lemma EEV_problems_length pars EV_vars1 intvars samples env :
  length (EEV_problems pars EV_vars1 intvars samples env) = length samples.
Proof.
  unfold EEV_problems.
  destruct (EEV_model_Ok (fresh_model "EEV" env) pars EV_vars1 intvars)
    as [[mdl demands] E].
  rewrite E. apply scenario_problems_length.
Qed.

Lemma WS_problems_length pars intvars samples env :
  length (WS_problems pars intvars samples env) = length samples.
Proof.
  unfold WS_problems.
  destruct (WS_model_Ok (fresh_model "LSDE" env) pars intvars)
    as [[mdl demands] E].
  rewrite E. apply scenario_problems_length.
Qed.

(** C6, as amended.  In [optimize_EEV] and [optimize_WS] a scenario whose
    solve reports the INFEASIBLE status is left out of the returned list
    and the loop goes on with the remaining scenarios; every other
    status has its objective value read and appended.  So, when every
    solve is usable (it does not raise and leaves an objective unless it
    is INFEASIBLE), the procedure returns the objectives of the scenarios
    that are not INFEASIBLE, in order, and an INFEASIBLE scenario makes
    the list strictly shorter than the sample. *)
Theorem infeasible_scenarios_are_skipped pars EV_vars1 samples intvars env :
  let eev := map grb_optimize (EEV_problems pars EV_vars1 intvars samples env) in
  let ws := map grb_optimize (WS_problems pars intvars samples env) in
  (Forall usable eev ->
   snd (optimize_EEV pars EV_vars1 samples intvars env)
   = Ok (flat_map objective_of eev)
   /\ (length (flat_map objective_of eev) + length (filter infeasible eev)
       = length samples)%nat
   /\ (existsb infeasible eev = true ->
       (length (flat_map objective_of eev) < length samples)%nat))
  /\ (Forall usable ws ->
      snd (optimize_WS pars samples intvars env)
      = Ok (flat_map objective_of ws)
      /\ (length (flat_map objective_of ws) + length (filter infeasible ws)
          = length samples)%nat
      /\ (existsb infeasible ws = true ->
          (length (flat_map objective_of ws) < length samples)%nat)).
Proof.
  intros eev ws.
  assert (Le : length eev = length samples)
    by (unfold eev; rewrite length_map; apply EEV_problems_length).
  assert (Lw : length ws = length samples)
    by (unfold ws; rewrite length_map; apply WS_problems_length).
  split; intros Hus.
  - pose proof (collected_length Hus) as Hc.
    split; [apply optimize_EEV_collects; exact Hus|].
    split; [lia|]. intros Hex. apply existsb_filter_length in Hex. lia.
  - pose proof (collected_length Hus) as Hc.
    split; [apply optimize_WS_collects; exact Hus|].
    split; [lia|]. intros Hex. apply existsb_filter_length in Hex. lia.
Qed.

End Scenario_procedures.

(** Decides the comparisons of concrete reals left by an evaluation. *)
Ltac decide_R :=
  repeat match goal with
  | |- context [Rlt_dec ?a ?b] =>
      destruct (Rlt_dec a b) as [?|?]; try (exfalso; lra)
  | |- context [Rle_dec ?a ?b] =>
      destruct (Rle_dec a b) as [?|?]; try (exfalso; lra)
  | |- context [Req_dec_T ?a ?b] =>
      destruct (Req_dec_T a b) as [?|?]; try (exfalso; lra)
  end.

(** C6, as amended, on the small instance: of the demands 5 and 20 the
    second exceeds the capacity, so one objective is returned for two
    scenarios. *)
Lemma infeasible_scenarios_are_skipped_witness :
  Forall usable
    (map (@grb_optimize solver_capacity)
         (EEV_problems pars0 (plan 5) false samples0 env0))
  /\ Forall usable
       (map (@grb_optimize solver_capacity)
            (WS_problems pars0 false samples0 env0))
  /\ (length
        (flat_map objective_of
           (map (@grb_optimize solver_capacity)
                (EEV_problems pars0 (plan 5) false samples0 env0)))
      < 2)%nat
  /\ (length
        (flat_map objective_of
           (map (@grb_optimize solver_capacity)
                (WS_problems pars0 false samples0 env0)))
      < 2)%nat.
Proof.
  assert (He : Forall usable
            (map (@grb_optimize solver_capacity)
               (EEV_problems pars0 (plan 5) false samples0 env0))).
  { vm_compute. decide_R.
    apply Forall_cons; [right; discriminate|].
    apply Forall_cons; [left; reflexivity | apply Forall_nil]. }
  assert (Hw : Forall usable
            (map (@grb_optimize solver_capacity)
               (WS_problems pars0 false samples0 env0))).
  { vm_compute. decide_R.
    apply Forall_cons; [right; discriminate|].
    apply Forall_cons; [left; reflexivity | apply Forall_nil]. }
  destruct (@infeasible_scenarios_are_skipped solver_capacity pars0 (plan 5)
              samples0 false env0) as [Heev Hws].
  destruct (Heev He) as (_ & _ & Hlt1).
  destruct (Hws Hw) as (_ & _ & Hlt2).
  split; [exact He|]. split; [exact Hw|]. split.
  - apply Hlt1. vm_compute. decide_R. reflexivity.
  - apply Hlt2. vm_compute. decide_R. reflexivity.
Defined.

(** C6: a status that is neither OPTIMAL nor INFEASIBLE is not skipped.
    With an incumbent at a time limit the objective is appended; without
    a solution (INF_OR_UNBD) reading the objective aborts the
    procedure. *)
Lemma non_optimal_status_not_skipped :
  snd (@optimize_EEV
         (constant_solver (Ok (mkOutcome TIME_LIMIT (Some (mkSol 7 (fun _ => 0))))))
         pars0 (plan 5) [[[5]]] true env0)
  = Ok [7]
  /\ snd (@optimize_EEV (constant_solver (Ok (mkOutcome INF_OR_UNBD None)))
            pars0 (plan 5) [[[5]]] false env0)
     = Raised AttributeError.
Proof.
  split.
  - vm_compute. reflexivity.
  - vm_compute. reflexivity.
Qed.

(** ** The handle of a model is kept by every operation on it *)

Lemma addVars_nd_mid mdl k r c lb ub ty name :
  mid (fst (addVars_nd mdl k r c lb ub ty name)) = mid mdl.
Proof. unfold addVars_nd. destruct (Nat.eqb k 1); reflexivity. Qed.

Lemma add_1st_stage_variables_mid mdl pars intvars :
  mid (fst (add_1st_stage_variables mdl pars intvars)) = mid mdl.
Proof. reflexivity. Qed.

Lemma add_2nd_stage_variables_mid mdl pars k intvars :
  mid (fst (add_2nd_stage_variables mdl pars k intvars)) = mid mdl.
Proof.
  unfold add_2nd_stage_variables.
  pose proof (addVars_nd_mid mdl k (par_n pars) (par_s pars) 0 None
                (vtype_of intvars) "Y+") as E1.
  destruct (addVars_nd mdl k (par_n pars) (par_s pars) 0 None
              (vtype_of intvars) "Y+") as [mdl1 Yp].
  pose proof (addVars_nd_mid mdl1 k (par_n pars) (par_s pars) 0 None
                (vtype_of intvars) "Y-") as E2.
  destruct (addVars_nd mdl1 k (par_n pars) (par_s pars) 0 None
              (vtype_of intvars) "Y-") as [mdl2 Ym].
  simpl in *. congruence.
Qed.

Lemma add_1st_stage_constraints_mid mdl pars vars :
  mid (add_1st_stage_constraints mdl pars vars) = mid mdl.
Proof. reflexivity. Qed.

Lemma add_2nd_stage_constraints_mid mdl pars X vars_2nd demands :
  mid (fst (add_2nd_stage_constraints mdl pars X vars_2nd demands)) = mid mdl.
Proof.
  unfold add_2nd_stage_constraints. destruct demands as [d|].
  - reflexivity.
  - pose proof (addVars_nd_mid mdl (scenario_count (var_Yp vars_2nd))
                  (par_n pars) (par_s pars) 0 (Some 0) CONTINUOUS "demand") as E.
    destruct (addVars_nd mdl (scenario_count (var_Yp vars_2nd))
                (par_n pars) (par_s pars) 0 (Some 0) CONTINUOUS "demand")
      as [mdl1 d].
    exact E.
Qed.

(** Takes a builder call apart, keeping what is known of its handle. *)
Ltac split_builder :=
  match goal with
  | |- context [add_1st_stage_variables ?m ?p ?i] =>
      let E := fresh "Emid" in
      pose proof (add_1st_stage_variables_mid m p i) as E;
      destruct (add_1st_stage_variables m p i) as [? ?]; cbn [fst] in E
  | |- context [add_2nd_stage_variables ?m ?p ?k ?i] =>
      let E := fresh "Emid" in
      pose proof (add_2nd_stage_variables_mid m p k i) as E;
      destruct (add_2nd_stage_variables m p k i) as [? ?]; cbn [fst] in E
  | |- context [add_2nd_stage_constraints ?m ?p ?x ?v ?d] =>
      let E := fresh "Emid" in
      pose proof (add_2nd_stage_constraints_mid m p x v d) as E;
      destruct (add_2nd_stage_constraints m p x v d) as [? ?]; cbn [fst] in E
  | |- context [get_2nd_stage_objective ?p ?v] =>
      destruct (get_2nd_stage_objective p v) as [?|?]; cbn [rbind]
  end.

Section Handles.

Context `{SolverAdapter}.

Lemma optimize_mid mdl mdl' : optimize mdl = Ok mdl' -> mid mdl' = mid mdl.
Proof.
  unfold optimize. destruct (grb_optimize (problem mdl)); simpl; intros E;
    inversion E; reflexivity.
Qed.

Lemma EV_model_mid mdl pars intvars mdl' vars1 vars2 :
  EV_model mdl pars intvars = Ok (mdl', vars1, vars2) -> mid mdl' = mid mdl.
Proof.
  unfold EV_model. repeat split_builder; intros E; inversion E; subst.
  rewrite add_1st_stage_constraints_mid in *. simpl in *. congruence.
Qed.

Lemma TS_model_mid mdl pars samples intvars mdl' vars1 vars2 :
  TS_model mdl pars samples intvars = Ok (mdl', vars1, vars2) ->
  mid mdl' = mid mdl.
Proof.
  unfold TS_model. repeat split_builder; intros E; inversion E; subst.
  rewrite add_1st_stage_constraints_mid in *. simpl in *. congruence.
Qed.

Lemma EEV_model_mid mdl pars EV_vars1 intvars mdl' demands :
  EEV_model mdl pars EV_vars1 intvars = Ok (mdl', demands) ->
  mid mdl' = mid mdl.
Proof.
  unfold EEV_model. repeat split_builder; intros E; inversion E; subst.
  simpl in *. congruence.
Qed.

Lemma WS_model_mid mdl pars intvars mdl' demands :
  WS_model mdl pars intvars = Ok (mdl', demands) -> mid mdl' = mid mdl.
Proof.
  unfold WS_model. repeat split_builder; intros E; inversion E; subst.
  rewrite add_1st_stage_constraints_mid in *. simpl in *. congruence.
Qed.

Lemma MRP_model_mid mdl pars k intvars mdl' vars1 demands :
  MRP_model mdl pars k intvars = Ok (mdl', vars1, demands) ->
  mid mdl' = mid mdl.
Proof.
  unfold MRP_model. repeat split_builder; intros E; inversion E; subst.
  rewrite add_1st_stage_constraints_mid in *. simpl in *. congruence.
Qed.

Lemma MRP_submodel_mid sub pars intvars sub' sub_X sub_demand :
  MRP_submodel sub pars intvars = Ok (sub', sub_X, sub_demand) ->
  mid sub' = mid sub.
Proof.
  unfold MRP_submodel. cbn [addVars2].
  repeat split_builder; intros E; inversion E; subst.
  simpl in *. congruence.
Qed.

Lemma solve_scenarios_mid demands samples :
  forall mdl results mdl' results',
    solve_scenarios mdl demands samples results = Ok (mdl', results') ->
    mid mdl' = mid mdl.
Proof.
  induction samples as [|d rest IH]; intros mdl results mdl' results' E.
  - inversion E. reflexivity.
  - cbn [solve_scenarios] in E. inv_rbind E.
    apply optimize_mid in Hres. cbn [fix_var set_problem mid] in Hres.
    destruct (negb _).
    + inv_rbind E. apply IH in E. congruence.
    + apply IH in E. congruence.
Qed.

End Handles.

(** ** Which models are live when a procedure ends *)

Lemma released_not_In (h : nat) (l : list nat) :
  ~ In h (filter (fun h' => negb (Nat.eqb h' h)) l).
Proof.
  intros Hin. apply filter_In in Hin. destruct Hin as [_ E].
  rewrite Nat.eqb_refl in E. discriminate.
Qed.

Lemma bind_lift_Ok_c {A B} (a : A) (k : A -> M B) env :
  bind (lift (Ok a)) k env = k a env.
Proof. reflexivity. Qed.

Lemma bind_lift_Raised_c {A B} (e : exn) (k : A -> M B) env :
  bind (lift (@Raised A e)) k env = (env, Raised e).
Proof. reflexivity. Qed.

Lemma dispose_then_ret {A} (mdl : Model) (a : A) env :
  bind (dispose mdl) (fun _ => ret a) env
  = (mkEnv (next_id env)
       (filter (fun h => negb (Nat.eqb h (mid mdl))) (live env))
       (entropy env) (drawn env),
     Ok a).
Proof. reflexivity. Qed.

(** One step of a procedure that does not touch the library state: it
    either raises, leaving the state as it is, or goes on. *)
Ltac step_lift :=
  match goal with
  | |- context [bind (lift ?r) _ _] =>
      let E := fresh "Estep" in
      destruct r as [?|?] eqn:E;
      [ rewrite bind_lift_Ok_c; cbv beta iota
      | rewrite bind_lift_Raised_c; cbn [fst snd env_with_model live];
        try (left; reflexivity) ]
  end.

Section Live_models.

Context `{SolverAdapter} `{Sampler} `{Statistics}.

Lemma optimize_EV_live pars intvars env :
  match snd (optimize_EV pars intvars env) with
  | Ok _ => ~ In (next_id env) (live (fst (optimize_EV pars intvars env)))
  | Raised _ => In (next_id env) (live (fst (optimize_EV pars intvars env)))
  end.
Proof.
  unfold optimize_EV. rewrite bind_new_Model.
  step_lift. destruct a as [[mdl vars1] vars2].
  apply EV_model_mid in Estep.
  step_lift. apply optimize_mid in Estep0.
  step_lift. step_lift. step_lift.
  rewrite dispose_then_ret. cbn [fst snd live].
  replace (mid a) with (next_id env) by (simpl in *; congruence).
  apply released_not_In.
Qed.

Lemma optimize_TS_live pars samples intvars env :
  match snd (optimize_TS pars samples intvars env) with
  | Ok _ => ~ In (next_id env) (live (fst (optimize_TS pars samples intvars env)))
  | Raised _ => In (next_id env) (live (fst (optimize_TS pars samples intvars env)))
  end.
Proof.
  unfold optimize_TS. rewrite bind_new_Model.
  step_lift. destruct a as [[mdl vars1] vars2].
  apply TS_model_mid in Estep.
  step_lift. apply optimize_mid in Estep0.
  step_lift. step_lift. step_lift.
  rewrite dispose_then_ret. cbn [fst snd live].
  replace (mid a) with (next_id env) by (simpl in *; congruence).
  apply released_not_In.
Qed.

Lemma optimize_EEV_live pars EV_vars1 samples intvars env :
  match snd (optimize_EEV pars EV_vars1 samples intvars env) with
  | Ok _ =>
      ~ In (next_id env)
           (live (fst (optimize_EEV pars EV_vars1 samples intvars env)))
  | Raised _ =>
      In (next_id env)
         (live (fst (optimize_EEV pars EV_vars1 samples intvars env)))
  end.
Proof.
  unfold optimize_EEV. rewrite bind_new_Model.
  step_lift. destruct a as [mdl demands].
  apply EEV_model_mid in Estep.
  step_lift. destruct a as [mdl' results].
  apply solve_scenarios_mid in Estep0.
  rewrite dispose_then_ret. cbn [fst snd live].
  replace (mid mdl') with (next_id env) by (simpl in *; congruence).
  apply released_not_In.
Qed.

(** [optimize_WS] has no dispose call: its model is live on every exit. *)
Lemma optimize_WS_live pars samples intvars env :
  In (next_id env) (live (fst (optimize_WS pars samples intvars env))).
Proof.
  unfold optimize_WS. rewrite bind_new_Model.
  step_lift. destruct a as [mdl demands].
  step_lift. destruct a as [mdl' results].
  cbn. left. reflexivity.
Qed.

End Live_models.

Section Live_models_MRP.

Context `{SolverAdapter} `{Sampler} `{Statistics}.

Lemma MRP_scenario_mid pars solution vars1_k k sample sub_X sub_demand
    sub G_k i sub' G_k' :
  MRP_scenario pars solution vars1_k k sample sub_X sub_demand (sub, G_k) i
  = Ok (sub', G_k') ->
  mid sub' = mid sub.
Proof.
  unfold MRP_scenario. intros E.
  inv_rbind E. inv_rbind E. apply optimize_mid in Hres0.
  inv_rbind E. inv_rbind E. inversion E; subst.
  cbn [fix_var set_problem mid] in *. exact Hres0.
Qed.

Lemma MRP_scenarios_mid pars solution vars1_k k sample sub_X sub_demand
    (l : list nat) :
  forall sub G_k sub' G_k',
    foldR (MRP_scenario pars solution vars1_k k sample sub_X sub_demand)
          l (sub, G_k) = Ok (sub', G_k') ->
    mid sub' = mid sub.
Proof.
  induction l as [|i l IH]; intros sub G_k sub' G_k' E.
  - inversion E. reflexivity.
  - cbn [foldR] in E. inv_rbind E. destruct a as [sub1 G1].
    apply MRP_scenario_mid in Hres. apply IH in E. congruence.
Qed.

Lemma draw_samples_frame size pars asint seed env :
  live (fst (draw_samples size pars asint seed env)) = live env
  /\ exists smp, snd (draw_samples size pars asint seed env) = Ok smp.
Proof.
  unfold draw_samples. destruct seed as [z|].
  - simpl. eauto.
  - destruct (lhs_unseeded size pars asint (entropy env)) as [smp e].
    simpl. eauto.
Qed.

Lemma MRP_replica_frame pars solution k intvars seed vars1 demands
    sub_X sub_demand mdl sub G i env :
  live (fst (MRP_replica pars solution k intvars seed vars1 demands
               sub_X sub_demand (mdl, sub, G) i env)) = live env
  /\ forall mdl' sub' G',
       snd (MRP_replica pars solution k intvars seed vars1 demands
              sub_X sub_demand (mdl, sub, G) i env) = Ok (mdl', sub', G') ->
       mid mdl' = mid mdl /\ mid sub' = mid sub.
Proof.
  unfold MRP_replica, bind.
  destruct (draw_samples_frame k pars intvars seed env) as [Hl [smp Hs]].
  destruct (draw_samples k pars intvars seed env) as [env1 r].
  cbn [fst snd] in *. subst r. unfold lift. cbn [fst snd].
  split; [exact Hl|].
  intros mdl' sub' G' E.
  inv_rbind E. apply optimize_mid in Hres.
  inv_rbind E. inv_rbind E. destruct a1 as [sub1 G_k].
  apply MRP_scenarios_mid in Hres1. inversion E; subst.
  cbn [fix_var set_problem mid] in *. split; assumption.
Qed.

Lemma MRP_loop_frame pars solution k intvars seed vars1 demands
    sub_X sub_demand (l : list nat) :
  forall mdl sub G env,
    live (fst (foldM (MRP_replica pars solution k intvars seed vars1 demands
                        sub_X sub_demand) l (mdl, sub, G) env)) = live env
    /\ forall mdl' sub' G',
         snd (foldM (MRP_replica pars solution k intvars seed vars1 demands
                       sub_X sub_demand) l (mdl, sub, G) env)
         = Ok (mdl', sub', G') ->
         mid mdl' = mid mdl /\ mid sub' = mid sub.
Proof.
  induction l as [|i l IH]; intros mdl sub G env.
  - simpl. split; [reflexivity|]. intros mdl' sub' G' E.
    inversion E. split; reflexivity.
  - cbn [foldM]. unfold bind.
    destruct (MRP_replica_frame pars solution k intvars seed vars1 demands
                sub_X sub_demand mdl sub G i env) as [Hl Hm].
    destruct (MRP_replica pars solution k intvars seed vars1 demands
                sub_X sub_demand (mdl, sub, G) i env) as [env1 [st1|e]].
    + destruct st1 as [[mdl1 sub1] G1]. cbn [fst snd] in *.
      destruct (Hm mdl1 sub1 G1 eq_refl) as [Hm1 Hm2].
      destruct (IH mdl1 sub1 G1 env1) as [Hl' Hm'].
      split; [congruence|].
      intros mdl' sub' G' E. destruct (Hm' _ _ _ E). split; congruence.
    + cbn [fst snd] in *. split; [exact Hl|]. discriminate.
Qed.

Lemma MRP_gaps_live pars solution sample_size replicas intvars seed env :
  match snd (MRP_gaps pars solution sample_size replicas intvars seed env) with
  | Ok _ =>
      ~ In (next_id env)
           (live (fst (MRP_gaps pars solution sample_size replicas
                         intvars seed env)))
      /\ ~ In (S (next_id env))
              (live (fst (MRP_gaps pars solution sample_size replicas
                            intvars seed env)))
  | Raised _ =>
      In (next_id env)
         (live (fst (MRP_gaps pars solution sample_size replicas
                       intvars seed env)))
  end.
Proof.
  unfold MRP_gaps. rewrite bind_new_Model.
  step_lift. destruct a as [[mdl vars1] demands].
  apply MRP_model_mid in Estep.
  rewrite bind_new_Model.
  step_lift; [|right; left; reflexivity].
  destruct a as [[sub sub_X] sub_demand].
  apply MRP_submodel_mid in Estep0.
  destruct (MRP_loop_frame pars solution sample_size intvars seed vars1
              demands sub_X sub_demand (seq 0 (Z.to_nat replicas))
              mdl sub [] (env_with_model (env_with_model env))) as [Hl Hm].
  destruct (foldM (MRP_replica pars solution sample_size intvars seed vars1
                     demands sub_X sub_demand)
              (seq 0 (Z.to_nat replicas)) (mdl, sub, [])
              (env_with_model (env_with_model env)))
    as [env1 [st1|e]] eqn:Eloop; cbn [fst snd] in *.
  - erewrite bind_run_Ok by exact Eloop.
    destruct st1 as [[mdl1 sub1] G1].
    destruct (Hm _ _ _ eq_refl) as [Hm1 Hm2].
    unfold bind, dispose, ret. cbn [fst snd live].
    replace (mid mdl1) with (next_id env) by (simpl in *; congruence).
    replace (mid sub1) with (S (next_id env)) by (simpl in *; congruence).
    split.
    + intros Hin. apply filter_In in Hin. destruct Hin as [Hin _].
      revert Hin. apply released_not_In.
    + apply released_not_In.
  - erewrite bind_run_Raised by exact Eloop. cbn [fst snd].
    rewrite Hl. simpl. right. left. reflexivity.
Qed.

Lemma run_MRP_env pars solution sample_size alpha replicas intvars seed env :
  fst (run_MRP pars solution sample_size alpha replicas intvars seed env)
  = fst (MRP_gaps pars solution sample_size replicas intvars seed env).
Proof.
  unfold run_MRP, bind.
  destruct (MRP_gaps pars solution sample_size replicas intvars seed env)
    as [env1 [G|e]]; reflexivity.
Qed.

End Live_models_MRP.

(** C8, as amended.  Each of EV, EEV, TS and MRP releases every solver
    model it creates on its normal return path (for MRP: once its loop
    over the replicas has completed, whatever the closing statistics
    do).  When an exception is raised between the creation of a model and
    its dispose call, in particular during a solve loop, that model is
    still live when the procedure ends: no procedure has a cleanup
    handler. *)
Theorem models_released_on_normal_return `{SolverAdapter} `{Sampler}
    `{Statistics} pars EV_vars1 solution samples sample_size alpha replicas
    intvars seed env :
  let h := next_id env in
  let ev := optimize_EV pars intvars env in
  let eev := optimize_EEV pars EV_vars1 samples intvars env in
  let ts := optimize_TS pars samples intvars env in
  let mrp := run_MRP pars solution sample_size alpha replicas intvars seed env in
  let gaps := MRP_gaps pars solution sample_size replicas intvars seed env in
  match snd ev with
  | Ok _ => ~ In h (live (fst ev))
  | Raised _ => In h (live (fst ev))
  end
  /\ match snd eev with
     | Ok _ => ~ In h (live (fst eev))
     | Raised _ => In h (live (fst eev))
     end
  /\ match snd ts with
     | Ok _ => ~ In h (live (fst ts))
     | Raised _ => In h (live (fst ts))
     end
  /\ fst mrp = fst gaps
  /\ match snd gaps with
     | Ok _ => ~ In h (live (fst gaps)) /\ ~ In (S h) (live (fst gaps))
     | Raised _ => In h (live (fst gaps))
     end.
Proof.
  intros h ev eev ts mrp gaps.
  split; [apply optimize_EV_live|].
  split; [apply optimize_EEV_live|].
  split; [apply optimize_TS_live|].
  split; [apply run_MRP_env | apply MRP_gaps_live].
Qed.

(** C8, as amended, on the small instance: EV returns and its model is
    no longer live. *)
Lemma models_released_on_normal_return_witness :
  ~ In 0%nat (live (fst (@optimize_EV solver0 pars0 false env0))).
Proof.
  destruct (@models_released_on_normal_return solver0 sampler0 statistics0
              pars0 (plan 5) (plan 5) samples0 1 (95 / 100) 2 false None env0)
    as [Hev _].
  cbv zeta in Hev.
  destruct (snd (@optimize_EV solver0 pars0 false env0)) as [v|e] eqn:E.
  - exact Hev.
  - exfalso. vm_compute in E. discriminate E.
Defined.

(** C8: a model is not released when the solver raises during the loop
    of [optimize_EEV], and [optimize_WS] leaves its model live even when
    it returns normally. *)
Lemma models_not_released_on_all_paths :
  (snd (@optimize_EEV (constant_solver (Raised GurobiError)) pars0 (plan 5)
          samples0 false env0) = Raised GurobiError
   /\ live (fst (@optimize_EEV (constant_solver (Raised GurobiError)) pars0
                   (plan 5) samples0 false env0)) = [0%nat])
  /\ (snd (@optimize_WS solver_capacity pars0 samples0 false env0) = Ok [5]
      /\ live (fst (@optimize_WS solver_capacity pars0 samples0 false env0))
         = [0%nat]).
Proof.
  split; split.
  - vm_compute. reflexivity.
  - vm_compute. reflexivity.
  - vm_compute. decide_R. do 2 f_equal. lra.
  - vm_compute. decide_R. reflexivity.
Qed.

(** ** Conversion of a solution to integers *)

Lemma Int_part_bounds (x : R) : IZR (Int_part x) <= x < IZR (Int_part x) + 1.
Proof. destruct (base_Int_part x) as [H1 H2]. lra. Qed.

Lemma Int_part_unique (x : R) (z : Z) :
  IZR z <= x < IZR z + 1 -> Int_part x = z.
Proof.
  intros [H1 H2]. destruct (Int_part_bounds x) as [H3 H4].
  assert (Ha : (z < Int_part x + 1)%Z).
  { apply lt_IZR. rewrite plus_IZR. simpl. lra. }
  assert (Hb : (Int_part x < z + 1)%Z).
  { apply lt_IZR. rewrite plus_IZR. simpl. lra. }
  lia.
Qed.



Lemma trunc_IZR (z : Z) : trunc (IZR z) = z.
Proof.
  unfold trunc. destruct (Rle_dec 0 (IZR z)) as [Hz|Hz].
  - apply Int_part_unique. lra.
  - rewrite <- opp_IZR.
    rewrite (@Int_part_unique (IZR (- z)) (- z)%Z) by lra. lia.
Qed.






Lemma astype_int_bounds (x : R) :
  (int64_min <= astype_int x <= int64_max)%Z.
Proof.
  unfold astype_int. cbv zeta.
  destruct ((int64_min <=? trunc x)%Z && (trunc x <=? int64_max)%Z) eqn:E.
  - apply andb_true_iff in E. destruct E as [Hl Hu].
    apply Z.leb_le in Hl, Hu. lia.
  - unfold int64_min, int64_max. lia.
Qed.

(** An integer of the 64-bit range is its own image, any other integer
    is sent to the smallest one. *)
Lemma astype_int_IZR (z : Z) :
  (int64_min <= z <= int64_max)%Z -> astype_int (IZR z) = z.
Proof.
  intros [Hl Hu]. unfold astype_int. cbv zeta. rewrite trunc_IZR.
  apply Z.leb_le in Hl, Hu. now rewrite Hl, Hu.
Qed.


Lemma mapR_total {A B} (f : A -> B) (l : list A) :
  mapR (fun a => Ok (f a)) l = Ok (map f l).
Proof.
  induction l as [|a l IH]; simpl; [reflexivity|]. now rewrite IH.
Qed.

Lemma mapR_ext {A B} (f g : A -> result B) (l : list A) :
  (forall a, f a = g a) -> mapR f l = mapR g l.
Proof.
  intros E. induction l as [|a l IH]; simpl; [reflexivity|].
  now rewrite E, IH.
Qed.

Section Solution_values.

Variables (mdl : Model) (sv : SolutionVals).
Hypothesis Hsol : solution (outcome mdl) = Some sv.

Lemma X_of_solved (v : Var) : X_of mdl v = Ok (sol_x sv v).
Proof. unfold X_of. now rewrite Hsol. Qed.

Lemma var2val_vec_solved (o : vec Var) :
  var2val_vec mdl o = Ok (map (sol_x sv) o).
Proof.
  unfold var2val_vec. rewrite (mapR_ext _ (fun v => Ok (sol_x sv v)))
    by apply X_of_solved.
  apply mapR_total.
Qed.

Lemma var2val_mat_solved (o : mat Var) :
  var2val_mat mdl o = Ok (map (map (sol_x sv)) o).
Proof.
  unfold var2val_mat.
  rewrite (mapR_ext _ (fun r => Ok (map (sol_x sv) r)))
    by apply var2val_vec_solved.
  apply mapR_total.
Qed.

Lemma var2val_nd_solved (o : ndarray Var) :
  var2val_nd mdl o = Ok (nd_map (sol_x sv) o).
Proof.
  destruct o as [a|a]; unfold var2val_nd.
  - now rewrite var2val_mat_solved.
  - rewrite (mapR_ext _ (fun r => Ok (map (map (sol_x sv)) r)))
      by apply var2val_mat_solved.
    now rewrite mapR_total.
Qed.

Lemma Vars1_values_solved (f : R -> R) (v : Vars1 Var) :
  Vars1_values mdl f v = Ok (Vars1_map f (Vars1_map (sol_x sv) v)).
Proof.
  unfold Vars1_values.
  rewrite !var2val_mat_solved, !var2val_vec_solved. reflexivity.
Qed.

Lemma Vars2_values_solved (f : R -> R) (v : Vars2 Var) :
  Vars2_values mdl f v = Ok (Vars2_map f (Vars2_map (sol_x sv) v)).
Proof.
  unfold Vars2_values. rewrite !var2val_nd_solved. reflexivity.
Qed.

End Solution_values.

Section Returned_solutions.

Context `{SolverAdapter}.

Lemma EV_model_Ok mdl pars intvars :
  exists mdl' vars2,
    EV_model mdl pars intvars
    = Ok (mdl', snd (add_1st_stage_variables mdl pars intvars), vars2).
Proof.
  unfold EV_model.
  destruct (add_1st_stage_variables mdl pars intvars) as [mdl1 vars1].
  destruct (symbolic_objective_Ok mdl1 pars intvars (le_n 1)) as [e He].
  destruct (add_2nd_stage_variables mdl1 pars 1 intvars) as [mdl2 vars2].
  simpl in He. rewrite He. cbn [rbind snd].
  match goal with
  | |- context [add_2nd_stage_constraints ?a ?b ?c ?d ?e] =>
      destruct (add_2nd_stage_constraints a b c d e) as [mdl3 dd]
  end.
  eauto.
Qed.

Lemma optimize_solved mdl o :
  grb_optimize (problem mdl) = Ok o ->
  optimize mdl = Ok (mkModel (mid mdl) (mname mdl) (problem mdl) o).
Proof. unfold optimize. intros ->. reflexivity. Qed.


Lemma optimize_TS_solution pars samples intvars env mdl vars1 vars2 o sv :
  TS_model (fresh_model "LSDE" env) pars samples intvars
  = Ok (mdl, vars1, vars2) ->
  grb_optimize (problem mdl) = Ok o ->
  solution o = Some sv ->
  snd (optimize_TS pars samples intvars env)
  = Ok (sol_obj sv,
        Vars1_map (convert intvars) (Vars1_map (sol_x sv) vars1),
        positive_fraction
          (nd_map (convert intvars) (nd_map (sol_x sv) (var_Yp vars2)))).
Proof.
  intros Em Eo Es. unfold optimize_TS. rewrite bind_new_Model.
  erewrite bind_lift_Ok by exact Em. cbv beta iota.
  erewrite bind_lift_Ok by (apply optimize_solved; exact Eo).
  set (mdl1 := mkModel (mid mdl) (mname mdl) (problem mdl) o).
  assert (Hs : solution (outcome mdl1) = Some sv) by exact Es.
  erewrite bind_lift_Ok by (unfold ObjVal; rewrite Hs; reflexivity).
  erewrite bind_lift_Ok by (apply Vars1_values_solved; exact Hs).
  erewrite bind_lift_Ok by (apply Vars2_values_solved; exact Hs).
  reflexivity.
Qed.


End Returned_solutions.


Lemma IZR_pow63 : IZR (2 ^ 63) = 2 ^ 63.
Proof. change 63%Z with (Z.of_nat 63). rewrite <- pow_IZR. reflexivity. Qed.



Ltac each_entry := repeat first [apply Forall_nil | apply Forall_cons].

Ltac entries_of H :=
  repeat match type of H with
         | Forall _ (_ :: _) =>
             let H1 := fresh in
             apply Forall_cons_iff in H; destruct H as [H1 H]
         end.

(** A solution given by its values is an optimum of a problem given by
    its lists: bounds, integrality and constraints are checked entry by
    entry, and the objective of any feasible assignment is bounded by
    linear arithmetic from its bounds and constraints. *)
Ltac optimum_by_computation :=
  unfold optimum, feasible;
  cbn [problem pvars pconstrs pobjective sol_x sol_obj];
  split; [split; [|split]|split];
  [ each_entry; unfold within_bounds; simpl; lra
  | each_entry; unfold integral; cbn [VTypeOf dvar vname]; simpl;
    first [ exact I
          | now exists 0%Z
          | exists (2 ^ 63)%Z; symmetry; apply IZR_pow63 ]
  | each_entry; unfold holds, eval; simpl; lra
  | unfold eval; simpl; lra
  | let rho := fresh "rho" in
    let Hb := fresh "Hb" in
    let Hc := fresh "Hc" in
    intros rho (Hb & _ & Hc); entries_of Hb; entries_of Hc;
    unfold within_bounds, holds, eval in *; simpl in *; lra ].

(** The demand that [solve_mean] reads is between 0 and the capacity:
    it is produced. *)
Lemma solve_mean_produces (p : Problem) (d : R) :
  demand_of p = d -> 0 <= d <= 10 ->
  solve_mean p
  = Ok (mkOutcome OPTIMAL
          (Some (mkSol (1 * d + (3 * 0 + 1 * 0))
                   (fun v =>
                      if String.eqb (vname v) "X" then d
                      else if String.eqb (vname v) "Y+" then 0
                      else if String.eqb (vname v) "Y-" then 0
                      else 0)))).
Proof.
  intros Ed Hd. unfold solve_mean. cbv zeta. rewrite Ed.
  rewrite Rmin_left, (Rmax_right 0 d), (Rmax_right (d - 10) 0),
    (Rmax_right (- d) 0) by lra.
  reflexivity.
Qed.




(** ** The samples drawn by the replicas of [run_MRP] *)

Section Drawn_samples.

Context `{SolverAdapter} `{Sampler}.

Lemma MRP_replica_drawn pars solution k intvars z vars1 demands
    sub_X sub_demand st i env :
  drawn (fst (MRP_replica pars solution k intvars (Some z) vars1 demands
                sub_X sub_demand st i env))
  = drawn env ++ [lhs_seeded k pars intvars z].
Proof.
  destruct st as [[mdl sub] G]. unfold MRP_replica, bind, draw_samples, lift.
  cbn [fst snd]. reflexivity.
Qed.

Lemma MRP_loop_drawn pars solution k intvars z vars1 demands
    sub_X sub_demand (l : list nat) :
  forall st env env' st',
    foldM (MRP_replica pars solution k intvars (Some z) vars1 demands
             sub_X sub_demand) l st env = (env', Ok st') ->
    drawn env' = drawn env ++ repeat (lhs_seeded k pars intvars z) (length l).
Proof.
  induction l as [|i l IH]; intros st env env' st' E.
  - apply ret_inv in E. destruct E as [-> _]. simpl. now rewrite app_nil_r.
  - cbn [foldM] in E. inv_bind E.
    pose proof (MRP_replica_drawn pars solution k intvars z vars1 demands
                  sub_X sub_demand st i env) as Hd.
    rewrite Hrun in Hd. cbn [fst] in Hd.
    apply IH in E. rewrite E, Hd, <- app_assoc. reflexivity.
Qed.

(** C7.  When [run_MRP] is given a seed, every replica calls the sampler
    with that same seed: the [replicas] passes of a run that completes
    all receive one and the same array of scenarios, not fresh
    draws. *)
Theorem seeded_replicas_share_one_sample pars solution sample_size replicas
    intvars z env env' G :
  MRP_gaps pars solution sample_size replicas intvars (Some z) env
  = (env', Ok G) ->
  drawn env'
  = drawn env
    ++ repeat (lhs_seeded sample_size pars intvars z) (Z.to_nat replicas).
Proof.
  unfold MRP_gaps. intros E.
  inv_bind E. inv_bind E. destruct a0 as [[mdl vars1] demands].
  inv_bind E. inv_bind E. destruct a1 as [[sub sub_X] sub_demand].
  inv_bind E. destruct a1 as [[mdl1 sub1] G1].
  inv_bind E. inv_bind E. apply ret_inv in E. destruct E as [-> _].
  apply MRP_loop_drawn in Hrun3. rewrite length_seq in Hrun3.
  apply lift_inv in Hrun0. destruct Hrun0 as [-> _].
  apply lift_inv in Hrun2. destruct Hrun2 as [-> _].
  inversion Hrun; subst. inversion Hrun1; subst.
  inversion Hrun4; subst. inversion Hrun5; subst.
  exact Hrun3.
Qed.

Lemma MRP_replica_drawn_unseeded pars solution k intvars vars1 demands
    sub_X sub_demand st i env :
  drawn (fst (MRP_replica pars solution k intvars None vars1 demands
                sub_X sub_demand st i env))
  = drawn env ++ [fst (lhs_unseeded k pars intvars (entropy env))]
  /\ entropy (fst (MRP_replica pars solution k intvars None vars1 demands
                     sub_X sub_demand st i env))
     = snd (lhs_unseeded k pars intvars (entropy env)).
Proof.
  destruct st as [[mdl sub] G]. unfold MRP_replica, bind, draw_samples, lift.
  destruct (lhs_unseeded k pars intvars (entropy env)) as [smp e].
  cbn [fst snd]. split; reflexivity.
Qed.

(** Without a seed the replicas of a run that completes receive the
    successive draws of the random source. *)
Lemma MRP_loop_drawn_unseeded pars solution k intvars vars1 demands
    sub_X sub_demand (l : list nat) :
  forall st env env' st',
    foldM (MRP_replica pars solution k intvars None vars1 demands
             sub_X sub_demand) l st env = (env', Ok st') ->
    drawn env'
    = drawn env ++ successive_draws k pars intvars (entropy env) (length l).
Proof.
  induction l as [|i l IH]; intros st env env' st' E.
  - apply ret_inv in E. destruct E as [-> _]. simpl. now rewrite app_nil_r.
  - cbn [foldM] in E. inv_bind E.
    destruct (MRP_replica_drawn_unseeded pars solution k intvars vars1
                demands sub_X sub_demand st i env) as [Hd He].
    rewrite Hrun in Hd, He. cbn [fst] in Hd, He.
    apply IH in E. rewrite E, Hd, He, <- app_assoc.
    cbn [length successive_draws].
    destruct (lhs_unseeded k pars intvars (entropy env)) as [smp e].
    reflexivity.
Qed.

End Drawn_samples.

(** C7, on the small instance: with the seed 5 and two replicas, both
    replicas work on the same sample and yield the same gap value. *)
Lemma seeded_replicas_share_one_sample_witness :
  exists env' G,
    @MRP_gaps solver0 sampler0 pars0 (plan 0) 1 2 false (Some 5%Z) env0
    = (env', Ok G)
    /\ drawn env' = [ [[[5]]]; [[[5]]] ].
Proof.
  destruct (@MRP_gaps solver0 sampler0 pars0 (plan 0) 1 2 false (Some 5%Z) env0)
    as [env' [G|e]] eqn:E.
  - exists env', G. split; [reflexivity|].
    apply (@seeded_replicas_share_one_sample solver0 sampler0 pars0 (plan 0)
             1 2 false 5%Z env0 env' G E).
  - exfalso. vm_compute in E. discriminate E.
Defined.

(** On the small instance the seed decides: without one the two replicas
    work on different samples, with the seed 5 on the same one. *)
Lemma drawn_samples_on_small_instance :
  drawn (fst (@MRP_gaps solver0 sampler0 pars0 (plan 0) 1 2 false None env0))
  = [ [[[0]]]; [[[1]]] ]
  /\ drawn (fst (@MRP_gaps solver0 sampler0 pars0 (plan 0) 1 2 false
                   (Some 5%Z) env0))
     = [ [[[5]]]; [[[5]]] ].
Proof.
  split; vm_compute; repeat f_equal; lra.
Qed.

(** ** The per-replica gap value of [run_MRP] *)

Section Gap_value.

Context `{SolverAdapter}.

(** After the placeholder of X is fixed to [x_k] the submodel is not
    optimised again, so the objective read for [x_k] is the one left by
    the solve for the candidate: one pass of the inner loop forms both
    total costs with the same recourse value, the one of the
    candidate. *)
Lemma MRP_scenario_gap_ignores_recourse pars candidate vars1_k k sample
    sub_X sub_demand sub G_k i sub' G_k' :
  MRP_scenario pars candidate vars1_k k sample sub_X sub_demand (sub, G_k) i
  = Ok (sub', G_k') ->
  exists d o,
    sample_at sample i = Ok d
    /\ recourse_value sub sub_X sub_demand candidate d = Ok o
    /\ G_k' = G_k + ((get_1st_stage_objective pars candidate + o)
                     - (get_1st_stage_objective pars vars1_k + o)) / INR k
    /\ problem sub'
       = fix_bounds
           (fix_bounds
              (fix_bounds (problem sub) (flatten sub_demand) (mflatten d))
              (mflatten sub_X) (mflatten (var_X candidate)))
           (mflatten sub_X) (mflatten (var_X vars1_k)).
Proof.
  unfold MRP_scenario. intros E.
  inv_rbind E. inv_rbind E. inv_rbind E. inv_rbind E.
  inversion E; subst. clear E.
  exists a, a1. split; [exact Hres|].
  assert (Ea : a2 = a1).
  { unfold ObjVal in Hres1, Hres2.
    cbn [fix_var set_problem outcome] in Hres2.
    destruct (solution (outcome a0)); [|discriminate].
    inversion Hres1; inversion Hres2; subst; reflexivity. }
  subst a2. split; [|split; [reflexivity|]].
  - unfold recourse_value. cbv zeta. rewrite Hres0. cbn [rbind].
    exact Hres1.
  - unfold optimize in Hres0. inv_rbind Hres0. inversion Hres0; subst.
    reflexivity.
Qed.

End Gap_value.

(** C4, at a failing input.  On the small instance the candidate
    produces nothing and each replica draws the demand 5.  The replica's
    own solution produces 5, and the paired difference of total costs is
    (0 + 15) - (5 + 0) = 10.  [run_MRP] reads the stale objective 15 for
    the second cost and accumulates (0 + 15) - (5 + 15) = -5. *)
Theorem MRP_gap_on_small_instance :
  snd (@MRP_gaps solver0 sampler0 pars0 (plan 0) 1 2 false (Some 5%Z) env0)
  = Ok [-5; -5]
  /\ exists mdl vars1 demands mdl' sub sub_X sub_demand,
       MRP_model (fresh_model "LSDE" env0) pars0 1 false
       = Ok (mdl, vars1, demands)
       /\ @optimize solver0 (fix_var mdl demands (Arr3 [[[5]]])) = Ok mdl'
       /\ Vars1_values mdl' (fun x => x) vars1 = Ok (plan 5)
       /\ MRP_submodel (fresh_model "sub" (env_with_model env0)) pars0 false
          = Ok (sub, sub_X, sub_demand)
       /\ @paired_gap solver0 pars0 sub sub_X sub_demand (plan 0) (plan 5)
            [[[5]]]
          = Ok 10.
Proof.
  split.
  - vm_compute. decide_R. f_equal. f_equal; [lra|]. f_equal. lra.
  - do 7 eexists. split; [vm_compute; reflexivity|].
    split; [vm_compute; reflexivity|].
    split; [vm_compute; f_equal; unfold plan; repeat f_equal; lra|].
    split; [vm_compute; reflexivity|].
    vm_compute. decide_R. f_equal. lra.
Qed.

(** ** Arrays entry by entry *)

Lemma length_map2 {A B C} (f : A -> B -> C) (l1 : list A) (l2 : list B) :
  length (map2 f l1 l2) = Nat.min (length l1) (length l2).
Proof.
  revert l2. induction l1 as [|a l1 IH]; intros [|b l2]; simpl;
    try reflexivity. now rewrite IH.
Qed.

Lemma nth_map2 {A B C} (f : A -> B -> C) (l1 : list A) (l2 : list B)
    (da : A) (db : B) (dc : C) (i : nat) :
  (i < length l1)%nat -> (i < length l2)%nat ->
  nth i (map2 f l1 l2) dc = f (nth i l1 da) (nth i l2 db).
Proof.
  revert l2 i. induction l1 as [|a l1 IH]; intros [|b l2] [|i] H1 H2;
    simpl in *; try lia; try reflexivity.
  apply IH; lia.
Qed.

Lemma Forall_map2 {A B C} (P : A -> Prop) (Q : B -> Prop) (R' : C -> Prop)
    (g : A -> B -> C) (l1 : list A) (l2 : list B) :
  (forall x y, P x -> Q y -> R' (g x y)) ->
  Forall P l1 -> Forall Q l2 -> Forall R' (map2 g l1 l2).
Proof.
  intros Hg H1. revert l2. induction H1 as [|a l1 Ha H1 IH];
    intros l2 H2; [constructor|].
  destruct H2 as [|b l2 Hb H2]; simpl; constructor; auto.
Qed.

Lemma mat_shape_row {T} (m : mat T) (r c i : nat) :
  mat_shape m r c -> (i < r)%nat -> length (nth i m []) = c.
Proof.
  intros [Hr Hc] Hi. rewrite Forall_nth in Hc. apply Hc. lia.
Qed.

Lemma mat_shape_map2 {A B C} (f : A -> B -> C) (a : mat A) (b : mat B)
    (r c : nat) :
  mat_shape a r c -> mat_shape b r c -> mat_shape (mat_map2 f a b) r c.
Proof.
  intros [Ha1 Ha2] [Hb1 Hb2]. split.
  - unfold mat_map2. rewrite length_map2. lia.
  - unfold mat_map2.
    apply Forall_map2 with (P := fun row => length row = c)
                           (Q := fun row => length row = c);
      try assumption.
    intros x y Hx Hy. rewrite length_map2. lia.
Qed.

Lemma mget_map2 {A B C} (f : A -> B -> C) (a : mat A) (b : mat B)
    (da : A) (db : B) (dc : C) (r c i t : nat) :
  mat_shape a r c -> mat_shape b r c -> (i < r)%nat -> (t < c)%nat ->
  mget dc (mat_map2 f a b) i t = f (mget da a i t) (mget db b i t).
Proof.
  intros Ha Hb Hi Ht. unfold mget, mat_map2.
  rewrite (nth_map2 (map2 f) a b [] [] [] (i:=i))
    by (destruct Ha, Hb; lia).
  apply nth_map2.
  - rewrite (mat_shape_row Ha Hi). exact Ht.
  - rewrite (mat_shape_row Hb Hi). exact Ht.
Qed.

Lemma mat_shape_map {A B} (f : list A -> list B) (a : mat A) (r c c' : nat) :
  (forall row, length row = c -> length (f row) = c') ->
  mat_shape a r c -> mat_shape (map f a) r c'.
Proof.
  intros Hf [Ha1 Ha2]. split; [now rewrite length_map|].
  rewrite Forall_map. eapply Forall_impl; [|exact Ha2]. exact Hf.
Qed.

Lemma mget_map_rows {A B} (f : list A -> list B) (a : mat A) (db : B)
    (r i t : nat) :
  length a = r -> (i < r)%nat ->
  mget db (map f a) i t = nth t (f (nth i a [])) db.
Proof.
  intros Ha Hi. unfold mget.
  rewrite (nth_indep _ [] (f [])) by (rewrite length_map; lia).
  now rewrite map_nth.
Qed.

Lemma Forall_mflatten {T} (P : T -> Prop) (d : T) (m : mat T) (r c : nat) :
  mat_shape m r c ->
  (Forall P (mflatten m) <->
   forall i t, (i < r)%nat -> (t < c)%nat -> P (mget d m i t)).
Proof.
  intros Hm. unfold mflatten. rewrite Forall_concat. split.
  - intros HF i t Hi Ht. rewrite Forall_nth in HF.
    assert (Hrow : Forall P (nth i m [])) by (apply HF; destruct Hm; lia).
    rewrite Forall_nth in Hrow. apply Hrow.
    rewrite (mat_shape_row Hm Hi). exact Ht.
  - intros HF. apply Forall_nth. intros i d' Hi.
    rewrite (nth_indep _ d' []) by exact Hi.
    destruct Hm as [Hr Hc]. apply Forall_nth. intros t d'' Ht.
    rewrite (nth_indep _ d'' d) by exact Ht.
    apply HF; [lia|].
    rewrite Forall_nth in Hc. rewrite <- (Hc i [] Hi). exact Ht.
Qed.

Lemma length_mflatten {T} (m : mat T) (r c : nat) :
  mat_shape m r c -> length (mflatten m) = (r * c)%nat.
Proof.
  intros [Hr Hc]. subst r. unfold mflatten.
  induction Hc as [|row m Hrow Hc IH]; [reflexivity|].
  simpl. rewrite length_app, IH, Hrow. reflexivity.
Qed.

Lemma nd_compat_map2 {A B C} (f : A -> B -> C) (a : ndarray A)
    (b : ndarray B) (K n s : nat) :
  nd_compat a K n s -> nd_compat b K n s ->
  nd_compat (nd_map2 f a b) K n s.
Proof.
  destruct a as [x|xs], b as [y|ys]; simpl.
  - apply mat_shape_map2.
  - intros Hx [Hl Hy]. split; [now rewrite length_map|].
    rewrite Forall_map. eapply Forall_impl; [|exact Hy].
    intros m Hm. now apply mat_shape_map2.
  - intros [Hl Hx] Hy. split; [now rewrite length_map|].
    rewrite Forall_map. eapply Forall_impl; [|exact Hx].
    intros m Hm. now apply mat_shape_map2.
  - intros [Hl1 Hx] [Hl2 Hy]. split; [rewrite length_map2; lia|].
    apply Forall_map2 with (P := fun m => mat_shape m n s)
                           (Q := fun m => mat_shape m n s); try assumption.
    intros. now apply mat_shape_map2.
Qed.

Lemma nd_compat_scenario {T} (ts : list (mat T)) (K n s k : nat) :
  nd_compat (Arr3 ts) K n s -> (k < K)%nat -> mat_shape (nth k ts []) n s.
Proof.
  intros [Hl Hs] Hk. rewrite Forall_nth in Hs. apply Hs. lia.
Qed.

Lemma nd_get_map2 {A B C} (f : A -> B -> C) (a : ndarray A) (b : ndarray B)
    (da : A) (db : B) (dc : C) (K n s k i t : nat) :
  nd_compat a K n s -> nd_compat b K n s ->
  (k < K)%nat -> (i < n)%nat -> (t < s)%nat ->
  nd_get dc (nd_map2 f a b) k i t
  = f (nd_get da a k i t) (nd_get db b k i t).
Proof.
  intros Ha Hb Hk Hi Ht.
  destruct a as [x|xs], b as [y|ys]; cbn [nd_map2 nd_get].
  - now apply mget_map2 with (r := n) (c := s).
  - pose proof (nd_compat_scenario Hb Hk) as Hyk. destruct Hb as [Hl _].
    rewrite (nth_indep (map (fun y => mat_map2 f x y) ys) []
               (mat_map2 f x [])) by (rewrite length_map; lia).
    rewrite (map_nth (fun y => mat_map2 f x y)).
    now apply mget_map2 with (r := n) (c := s).
  - pose proof (nd_compat_scenario Ha Hk) as Hxk. destruct Ha as [Hl _].
    rewrite (nth_indep (map (fun x => mat_map2 f x y) xs) []
               (mat_map2 f [] y)) by (rewrite length_map; lia).
    rewrite (map_nth (fun x => mat_map2 f x y)).
    now apply mget_map2 with (r := n) (c := s).
  - pose proof (nd_compat_scenario Ha Hk) as Hxk.
    pose proof (nd_compat_scenario Hb Hk) as Hyk.
    destruct Ha as [Hl1 _], Hb as [Hl2 _].
    rewrite (nth_map2 (mat_map2 f) xs ys [] [] [] (i:=k)) by lia.
    now apply mget_map2 with (r := n) (c := s).
Qed.

Lemma is_rank3_map2 {A B C} (f : A -> B -> C) (a : ndarray A) (b : ndarray B) :
  is_rank3 (nd_map2 f a b) = is_rank3 a || is_rank3 b.
Proof. destruct a, b; reflexivity. Qed.

Lemma nd_compat_rows {A B} (f : list A -> list B) (a : ndarray A)
    (K n s s' : nat) :
  (forall row, length row = s -> length (f row) = s') ->
  nd_compat a K n s -> nd_compat (nd_rows f a) K n s'.
Proof.
  intros Hf. destruct a as [m|ts]; simpl.
  - now apply mat_shape_map.
  - intros [Hl Hs]. split; [now rewrite length_map|].
    rewrite Forall_map. eapply Forall_impl; [|exact Hs].
    intros m Hm. eapply mat_shape_map; eassumption.
Qed.

(** Row [i] of scenario [k]. *)
Lemma nd_get_rows {A B} (f : list A -> list B) (a : ndarray A) (db : B)
    (K n s k i t : nat) :
  nd_compat a K n s -> (k < K)%nat -> (i < n)%nat ->
  nd_get db (nd_rows f a) k i t
  = nth t (f (match a with
              | Arr2 m => nth i m []
              | Arr3 ts => nth i (nth k ts []) []
              end)) db.
Proof.
  intros Ha Hk Hi. destruct a as [m|ts]; cbn [nd_rows nd_get].
  - destruct Ha as [Hr _]. now apply mget_map_rows with (r := n).
  - pose proof (nd_compat_scenario Ha Hk) as [Hr _]. destruct Ha as [Hl _].
    rewrite (nth_indep (map (map f) ts) [] (map f []))
      by (rewrite length_map; unfold mat in *; lia).
    rewrite (map_nth (map f)).
    now apply mget_map_rows with (r := n).
Qed.

Lemma nd_get_map {A B} (f : A -> B) (a : ndarray A) (da : A) (db : B)
    (K n s k i t : nat) :
  nd_compat a K n s -> (k < K)%nat -> (i < n)%nat -> (t < s)%nat ->
  nd_get db (nd_map f a) k i t = f (nd_get da a k i t).
Proof.
  intros Ha Hk Hi Ht.
  replace (nd_map f a) with (nd_rows (map f) a) by (destruct a; reflexivity).
  erewrite nd_get_rows by eassumption.
  assert (Hrow : length (match a with
                         | Arr2 m => nth i m []
                         | Arr3 ts => nth i (nth k ts []) []
                         end) = s).
  { destruct a as [m|ts].
    - now apply mat_shape_row with (r := n).
    - apply mat_shape_row with (r := n); [|exact Hi].
      now apply nd_compat_scenario with (K := K). }
  rewrite (nth_indep _ db (f da)) by (rewrite length_map; lia).
  rewrite map_nth. destruct a; reflexivity.
Qed.

Lemma nd_compat_map {A B} (f : A -> B) (a : ndarray A) (K n s : nat) :
  nd_compat a K n s -> nd_compat (nd_map f a) K n s.
Proof.
  replace (nd_map f a) with (nd_rows (map f) a) by (destruct a; reflexivity).
  apply nd_compat_rows. intros row Hrow. now rewrite length_map.
Qed.

Lemma Forall_flatten {T} (P : T -> Prop) (d : T) (a : ndarray T)
    (K n s : nat) :
  nd_compat a K n s ->
  is_rank3 a = true \/ K = 1%nat ->
  (Forall P (flatten a) <->
   forall k i t, (k < K)%nat -> (i < n)%nat -> (t < s)%nat ->
                 P (nd_get d a k i t)).
Proof.
  intros Ha Hrank. destruct a as [m|ts]; cbn [flatten nd_get].
  - destruct Hrank as [Hr| ->]; [discriminate|].
    rewrite (Forall_mflatten P d Ha). split.
    + intros HF k i t _ Hi Ht. now apply HF.
    + intros HF i t Hi Ht. apply (HF 0%nat); [lia | exact Hi | exact Ht].
  - destruct Ha as [Hl Hs]. rewrite Forall_concat, Forall_map. split.
    + intros HF k i t Hk Hi Ht. rewrite Forall_nth in HF.
      assert (Hm : mat_shape (nth k ts []) n s)
        by (rewrite Forall_nth in Hs; apply Hs; lia).
      apply (Forall_mflatten P d Hm); [|exact Hi|exact Ht].
      apply HF. lia.
    + intros HF. apply Forall_nth. intros k d' Hk.
      rewrite (nth_indep _ d' []) by exact Hk.
      assert (Hm : mat_shape (nth k ts []) n s)
        by (rewrite Forall_nth in Hs; apply Hs; exact Hk).
      apply (Forall_mflatten P d Hm). intros i t Hi Ht.
      apply HF; [lia | exact Hi | exact Ht].
Qed.

Lemma length_flatten {T} (a : ndarray T) (K n s : nat) :
  nd_compat a K n s ->
  is_rank3 a = true \/ K = 1%nat ->
  length (flatten a) = (K * n * s)%nat.
Proof.
  intros Ha Hrank. destruct a as [m|ts]; cbn [flatten].
  - destruct Hrank as [Hr| ->]; [discriminate|].
    rewrite (length_mflatten Ha). lia.
  - destruct Ha as [Hl Hs]. subst K. clear Hrank.
    induction Hs as [|m ts Hm Hs IH]; [reflexivity|].
    cbn [map concat length]. rewrite length_app, IH, (length_mflatten Hm).
    lia.
Qed.

(** ** Values of linear expressions *)

Lemma eval_of_num rho (c : R) : eval rho (of_num c) = c.
Proof. unfold eval. simpl. lra. Qed.

Lemma eval_of_var rho (v : Var) : eval rho (of_var v) = rho v.
Proof. unfold eval. simpl. lra. Qed.

Lemma eval_terms_app rho (l1 l2 : list (R * Var)) :
  fold_right (fun t acc => fst t * rho (snd t) + acc) 0 (l1 ++ l2)
  = fold_right (fun t acc => fst t * rho (snd t) + acc) 0 l1
    + fold_right (fun t acc => fst t * rho (snd t) + acc) 0 l2.
Proof.
  induction l1 as [|t l1 IH]; simpl; [lra|]. rewrite IH. lra.
Qed.

Lemma eval_lin_add rho (a b : LinExpr) :
  eval rho (lin_add a b) = eval rho a + eval rho b.
Proof. unfold eval, lin_add. cbn [terms const]. rewrite eval_terms_app. lra. Qed.

Lemma eval_lin_scale rho (c : R) (a : LinExpr) :
  eval rho (lin_scale c a) = c * eval rho a.
Proof.
  unfold eval, lin_scale. cbn [terms const].
  induction (terms a) as [|t l IH]; simpl; [lra|].
  assert (E : fold_right (fun t acc => fst t * rho (snd t) + acc) 0
                (map (fun t => (c * fst t, snd t)) l)
              = c * fold_right (fun t acc => fst t * rho (snd t) + acc) 0 l)
    by lra.
  rewrite E. lra.
Qed.

Lemma eval_lin_sub rho (a b : LinExpr) :
  eval rho (lin_sub a b) = eval rho a - eval rho b.
Proof. unfold lin_sub. rewrite eval_lin_add, eval_lin_scale. lra. Qed.

Lemma eval_lin_sub_num rho (a : LinExpr) (c : R) :
  eval rho (lin_sub_num a c) = eval rho a - c.
Proof. unfold lin_sub_num. now rewrite eval_lin_sub, eval_of_num. Qed.

(** ** Families of constraints *)

Lemma map_snd_combine_seq {T} (l : list T) (start : nat) :
  map snd (combine (seq start (length l)) l) = l.
Proof.
  revert start. induction l as [|x l IH]; intros start; simpl;
    [reflexivity | now rewrite IH].
Qed.

Lemma mk_constrs_lhs name sense (con : list LinExpr) :
  map clhs (mk_constrs name sense con) = con.
Proof.
  unfold mk_constrs. rewrite map_map. cbn [clhs].
  apply map_snd_combine_seq.
Qed.

Lemma mk_constrs_length name sense (con : list LinExpr) :
  length (mk_constrs name sense con) = length con.
Proof. rewrite <- (mk_constrs_lhs name sense con) at 2. now rewrite length_map. Qed.

Lemma mk_constrs_family name sense (con : list LinExpr) :
  Forall (fun c => cname c = name /\ csense c = sense)
         (mk_constrs name sense con).
Proof.
  unfold mk_constrs. rewrite Forall_map. apply Forall_forall.
  intros ie _. split; reflexivity.
Qed.

Lemma mk_constrs_holds rho name sense (con : list LinExpr) :
  Forall (holds rho) (mk_constrs name sense con)
  <-> Forall (fun e => match sense with
                       | LessEqual => eval rho e <= 0
                       | Equal => eval rho e = 0
                       end) con.
Proof.
  rewrite <- (mk_constrs_lhs name sense con) at 2. rewrite Forall_map.
  pose proof (mk_constrs_family name sense con) as Hf.
  split; intros HF; rewrite Forall_forall in *; intros c Hc;
    specialize (HF c Hc); destruct (Hf c Hc) as [_ Hs];
    unfold holds in *; rewrite Hs in *; exact HF.
Qed.

Lemma addConstrs_added mdl name sense con :
  pconstrs (problem (addConstrs mdl name sense con))
  = pconstrs (problem mdl) ++ mk_constrs name sense con.
Proof. reflexivity. Qed.

(** ** The demand-balance constraint *)

Lemma nth_removelast_cons {T} (z d : T) (row : list T) (t : nat) :
  (t < length row)%nat ->
  nth t (removelast (z :: row)) d
  = match t with O => z | S t' => nth t' row d end.
Proof.
  revert z t. induction row as [|a row IH]; intros z t Ht; [simpl in Ht; lia|].
  change (removelast (z :: a :: row)) with (z :: removelast (a :: row)).
  destruct t as [|t']; [reflexivity|].
  cbn [nth]. rewrite IH by (simpl in Ht; lia).
  destruct t'; reflexivity.
Qed.

Lemma length_removelast_cons {T} (z : T) (row : list T) :
  length (removelast (z :: row)) = length row.
Proof.
  revert z. induction row as [|a row IH]; intros z; [reflexivity|].
  change (removelast (z :: a :: row)) with (z :: removelast (a :: row)).
  cbn [length]. now rewrite IH.
Qed.

Lemma nd_rows_rows {A B C} (f : list A -> list B) (g : list B -> list C)
    (a : ndarray A) :
  nd_rows g (nd_rows f a) = nd_rows (fun r => g (f r)) a.
Proof.
  destruct a as [m|ts]; simpl; [now rewrite map_map|].
  rewrite map_map. f_equal. apply map_ext. intros m. now rewrite map_map.
Qed.

Lemma row_entry {T} (a : ndarray T) (d : T) (k i t : nat) :
  nth t (match a with
         | Arr2 m => nth i m []
         | Arr3 ts => nth i (nth k ts []) []
         end) d
  = nd_get d a k i t.
Proof. destruct a; reflexivity. Qed.

Section Demand_balance.

Variables (rho : Var -> R) (K n s : nat).
Variables (X : mat LinExpr) (Yp Ym : ndarray Var) (D : ndarray LinExpr).
Hypothesis HX : mat_shape X n s.
Hypothesis HYp : nd_compat Yp K n s.
Hypothesis HYm : nd_compat Ym K n s.
Hypothesis HD : nd_compat D K n s.

(** The array [Ym] of the source after the zero column is prepended. *)
Local Abbreviation Ym0 :=
  (nd_rows (fun row => of_num 0 :: row) (nd_map of_var Ym)).

(** The array [con] of the source before it is flattened. *)
Local Abbreviation con :=
  (nd_map2 lin_sub
     (nd_map2 lin_sub
        (nd_map2 lin_add
           (nd_map2 lin_add (Arr2 X) (nd_rows (@removelast _) Ym0))
           (nd_map of_var Yp))
        (nd_rows (@tl _) Ym0))
     D).

Lemma carried_compat : nd_compat (nd_rows (@removelast _) Ym0) K n s.
Proof.
  rewrite nd_rows_rows.
  apply nd_compat_rows with (s := s); [|now apply nd_compat_map].
  intros row Hrow. cbv beta. now rewrite length_removelast_cons.
Qed.

Lemma current_compat : nd_compat (nd_rows (@tl _) Ym0) K n s.
Proof.
  rewrite nd_rows_rows.
  apply nd_compat_rows with (s := s); [|now apply nd_compat_map].
  intros row Hrow. exact Hrow.
Qed.

Lemma con_compat : nd_compat con K n s.
Proof.
  repeat apply nd_compat_map2; try assumption.
  - exact carried_compat.
  - now apply nd_compat_map.
  - exact current_compat.
Qed.

Lemma con_rank : is_rank3 con = is_rank3 Ym || is_rank3 Yp || is_rank3 D.
Proof.
  rewrite !is_rank3_map2.
  destruct Ym, Yp, D; reflexivity.
Qed.

Lemma row_length (a : ndarray LinExpr) (k i : nat) :
  nd_compat a K n s -> (k < K)%nat -> (i < n)%nat ->
  length (match a with
          | Arr2 m => nth i m []
          | Arr3 ts => nth i (nth k ts []) []
          end) = s.
Proof.
  intros Ha Hk Hi. destruct a as [m|ts].
  - now apply mat_shape_row with (r := n).
  - apply mat_shape_row with (r := n); [|exact Hi].
    now apply nd_compat_scenario with (K := K).
Qed.

Lemma carried_entry (k i t : nat) :
  (k < K)%nat -> (i < n)%nat -> (t < s)%nat ->
  eval rho (nd_get (of_num 0) (nd_rows (@removelast _) Ym0) k i t)
  = carried_surplus rho Ym k i t.
Proof.
  intros Hk Hi Ht. rewrite nd_rows_rows.
  pose proof (@nd_compat_map _ _ of_var Ym K n s HYm) as Hc.
  erewrite nd_get_rows by eassumption.
  rewrite nth_removelast_cons by (rewrite (row_length _ Hc Hk Hi); exact Ht).
  destruct t as [|t']; [apply eval_of_num|].
  rewrite row_entry. cbn [carried_surplus].
  erewrite (nd_get_map of_var Ym no_var) by (eassumption || lia).
  apply eval_of_var.
Qed.

Lemma current_entry (k i t : nat) :
  (k < K)%nat -> (i < n)%nat -> (t < s)%nat ->
  eval rho (nd_get (of_num 0) (nd_rows (@tl _) Ym0) k i t)
  = rho (nd_get no_var Ym k i t).
Proof.
  intros Hk Hi Ht. rewrite nd_rows_rows.
  pose proof (@nd_compat_map _ _ of_var Ym K n s HYm) as Hc.
  erewrite nd_get_rows by eassumption. cbn [tl].
  rewrite row_entry.
  erewrite (nd_get_map of_var Ym no_var) by eassumption.
  apply eval_of_var.
Qed.

Lemma con_entry (k i t : nat) :
  (k < K)%nat -> (i < n)%nat -> (t < s)%nat ->
  eval rho (nd_get (of_num 0) con k i t)
  = eval rho (mget (of_num 0) X i t) + carried_surplus rho Ym k i t
    + rho (nd_get no_var Yp k i t) - rho (nd_get no_var Ym k i t)
    - eval rho (nd_get (of_num 0) D k i t).
Proof.
  intros Hk Hi Ht.
  pose proof carried_compat as Hc1. pose proof current_compat as Hc2.
  pose proof (@nd_compat_map _ _ of_var Yp K n s HYp) as Hc3.
  assert (HX2 : nd_compat (Arr2 X) K n s) by exact HX.
  rewrite (nd_get_map2 lin_sub _ _ (of_num 0) (of_num 0) (of_num 0)
             (K:=K) (n:=n) (s:=s)); try assumption;
    [|repeat apply nd_compat_map2; assumption].
  rewrite eval_lin_sub.
  rewrite (nd_get_map2 lin_sub _ _ (of_num 0) (of_num 0) (of_num 0)
             (K:=K) (n:=n) (s:=s)); try assumption;
    [|repeat apply nd_compat_map2; assumption].
  rewrite eval_lin_sub.
  rewrite (nd_get_map2 lin_add _ _ (of_num 0) (of_num 0) (of_num 0)
             (K:=K) (n:=n) (s:=s)); try assumption;
    [|repeat apply nd_compat_map2; assumption].
  rewrite eval_lin_add.
  rewrite (nd_get_map2 lin_add _ _ (of_num 0) (of_num 0) (of_num 0)
             (K:=K) (n:=n) (s:=s)); try assumption.
  rewrite eval_lin_add.
  rewrite carried_entry, current_entry by assumption.
  erewrite (nd_get_map of_var Yp no_var) by eassumption.
  rewrite eval_of_var. reflexivity.
Qed.

(** The family "con_demand" built from [con] holds under [rho] exactly
    when the balance equation holds at every scenario, product and
    period. *)
Lemma con_demand_holds :
  is_rank3 Ym || is_rank3 Yp || is_rank3 D = true \/ K = 1%nat ->
  length (mk_constrs "con_demand" Equal (flatten con)) = (K * n * s)%nat
  /\ (Forall (holds rho) (mk_constrs "con_demand" Equal (flatten con))
      <-> forall k i t, (k < K)%nat -> (i < n)%nat -> (t < s)%nat ->
            eval rho (mget (of_num 0) X i t) + carried_surplus rho Ym k i t
            + rho (nd_get no_var Yp k i t) - rho (nd_get no_var Ym k i t)
            = eval rho (nd_get (of_num 0) D k i t)).
Proof.
  intros Hrank. rewrite <- con_rank in Hrank. split.
  - rewrite mk_constrs_length. apply length_flatten; [exact con_compat|exact Hrank].
  - rewrite mk_constrs_holds.
    rewrite (@Forall_flatten _ _ (of_num 0) con K n s con_compat Hrank).
    split; intros HF k i t Hk Hi Ht; specialize (HF k i t Hk Hi Ht).
    + rewrite con_entry in HF by assumption. lra.
    + rewrite con_entry by assumption. lra.
Qed.

End Demand_balance.

Lemma nd_shape_compat {T} (a : ndarray T) (K n s : nat) :
  nd_shape a K n s ->
  nd_compat a K n s /\ (is_rank3 a = true \/ K = 1%nat)
  /\ scenario_count a = K.
Proof.
  destruct a as [m|ts]; simpl.
  - intros [-> Hm]. repeat split; auto; apply Hm.
  - intros [Hl Hs]. repeat split; auto.
Qed.

Lemma index2_shape (r c : nat) : mat_shape (index2 r c) r c.
Proof.
  unfold index2. split; [now rewrite length_map, length_seq|].
  rewrite Forall_map. apply Forall_forall. intros i _.
  now rewrite length_map, length_seq.
Qed.

Lemma addVars_nd_compat mdl k r c lb ub ty name :
  nd_compat (snd (addVars_nd mdl k r c lb ub ty name)) k r c.
Proof.
  unfold addVars_nd. destruct (Nat.eqb k 1); cbn [snd addVars2 addVars3].
  - apply (mat_shape_map (map (mkVar name))) with (c := c);
      [intros; now rewrite length_map | apply index2_shape].
  - unfold index3, nd_compat. split;
      [now rewrite !length_map, length_seq|].
    rewrite !Forall_map. apply Forall_forall. intros j _.
    apply (mat_shape_map (map (mkVar name))) with (c := c);
      [intros; now rewrite length_map|].
    split; [now rewrite length_map, length_seq|].
    rewrite Forall_map. apply Forall_forall. intros i _.
    now rewrite length_map, length_seq.
Qed.

(** C1.  The constraints that [add_2nd_stage_constraints] adds to the
    model are the family "con_demand" of equalities, one for every
    scenario (when the variables carry a scenario axis), product and
    period; under any assignment of the variables they hold exactly when
    X plus the surplus carried over from the previous period plus the
    shortage Y+ minus the surplus Y- equals the demand, the carried-in
    surplus being zero at the first period.  The demand is the array
    passed in or, without one, the placeholder variables that the call
    creates and returns. *)
Theorem demand_balance_constraint mdl pars (X : mat LinExpr)
    (vars_2nd : Vars2 Var) (demands : option (ndarray R)) (K : nat)
    (rho : Var -> R) :
  mat_shape X (par_n pars) (par_s pars) ->
  nd_shape (var_Yp vars_2nd) K (par_n pars) (par_s pars) ->
  nd_shape (var_Ym vars_2nd) K (par_n pars) (par_s pars) ->
  (forall d, demands = Some d -> nd_shape d K (par_n pars) (par_s pars)) ->
  let r := add_2nd_stage_constraints mdl pars X vars_2nd demands in
  let demand k i t :=
    match demands with
    | Some d => nd_get 0 d k i t
    | None => rho (nd_get no_var (placeholder (snd r)) k i t)
    end in
  exists con,
    pconstrs (problem (fst r)) = pconstrs (problem mdl) ++ con
    /\ length con = (K * par_n pars * par_s pars)%nat
    /\ Forall (fun c => cname c = "con_demand"%string /\ csense c = Equal) con
    /\ (Forall (holds rho) con <->
        forall k i t,
          (k < K)%nat -> (i < par_n pars)%nat -> (t < par_s pars)%nat ->
          eval rho (mget (of_num 0) X i t)
          + carried_surplus rho (var_Ym vars_2nd) k i t
          + rho (nd_get no_var (var_Yp vars_2nd) k i t)
          - rho (nd_get no_var (var_Ym vars_2nd) k i t)
          = demand k i t).
Proof.
  intros HX HYp HYm Hd r demand.
  destruct (@nd_shape_compat _ _ _ _ _ HYp) as (Hcp & Hrp & Hcount).
  destruct (@nd_shape_compat _ _ _ _ _ HYm) as (Hcm & _ & _).
  assert (Hrank : forall D : ndarray LinExpr,
             is_rank3 (var_Ym vars_2nd) || is_rank3 (var_Yp vars_2nd)
             || is_rank3 D = true \/ K = 1%nat).
  { intros D. destruct Hrp as [Hr| ->]; [left|now right].
    rewrite Hr. now rewrite orb_true_r. }
  subst demand r. unfold add_2nd_stage_constraints.
  destruct demands as [d|].
  - destruct (@nd_shape_compat _ _ _ _ _ (Hd d eq_refl)) as (Hcd & _ & _).
    cbn [fst snd].
    destruct (@con_demand_holds rho K _ _ _ _ _ _ HX Hcp Hcm
                (@nd_compat_map _ _ of_num d K _ _ Hcd)
                (Hrank (nd_map of_num d))) as [Hlen Hiff].
    eexists. split; [apply addConstrs_added|].
    split; [exact Hlen|]. split; [apply mk_constrs_family|].
    rewrite Hiff. split; intros HF k i t Hk Hi Ht;
      specialize (HF k i t Hk Hi Ht);
      erewrite (nd_get_map of_num d 0) in * by eassumption;
      rewrite eval_of_num in *; exact HF.
  - rewrite Hcount.
    pose proof (addVars_nd_compat mdl K (par_n pars) (par_s pars) 0 (Some 0)
                  CONTINUOUS "demand") as Hcd.
    destruct (addVars_nd mdl K (par_n pars) (par_s pars) 0 (Some 0)
                CONTINUOUS "demand") as [mdl1 dv] eqn:Edv.
    cbn [fst snd placeholder] in *.
    destruct (@con_demand_holds rho K _ _ _ _ _ _ HX Hcp Hcm
                (@nd_compat_map _ _ of_var dv K _ _ Hcd)
                (Hrank (nd_map of_var dv))) as [Hlen Hiff].
    eexists. split.
    + rewrite addConstrs_added. f_equal.
      unfold addVars_nd in Edv.
      destruct (Nat.eqb K 1); inversion Edv; reflexivity.
    + split; [exact Hlen|]. split; [apply mk_constrs_family|].
      rewrite Hiff. split; intros HF k i t Hk Hi Ht;
        specialize (HF k i t Hk Hi Ht);
        erewrite (nd_get_map of_var dv no_var) in * by eassumption;
        rewrite eval_of_var in *; exact HF.
Qed.

(** ** Products of a matrix with an array of expressions *)

Lemma map2_as_map {A B C} (g : A -> B -> C) (l1 : list A) (l2 : list B)
    (da : A) (db : B) (len : nat) :
  length l1 = len -> length l2 = len ->
  map2 g l1 l2 = map (fun i => g (nth i l1 da) (nth i l2 db)) (seq 0 len).
Proof.
  revert l2 len. induction l1 as [|a l1 IH]; intros [|b l2] len H1 H2;
    simpl in *; subst len; try discriminate; [reflexivity|].
  cbn [seq map nth]. f_equal. rewrite <- seq_shift, map_map.
  apply IH; [reflexivity | now inversion H2].
Qed.

Lemma eval_lsum rho (l : list LinExpr) :
  eval rho (lsum l) = Rsum (map (eval rho) l).
Proof.
  unfold lsum. induction l as [|e l IH]; cbn [fold_right map Rsum].
  - apply eval_of_num.
  - change (ladd e (fold_right ladd lzero l))
      with (lin_add e (fold_right ladd lzero l)).
    rewrite eval_lin_add, IH. reflexivity.
Qed.

Lemma nth_map_seq {T} (f : nat -> T) (len t : nat) (d : T) :
  (t < len)%nat -> nth t (map f (seq 0 len)) d = f t.
Proof.
  intros Ht. rewrite (nth_indep _ d (f 0%nat)) by (now rewrite length_map, length_seq).
  rewrite map_nth, seq_nth by exact Ht. reflexivity.
Qed.

Lemma ncols_shape {T} (x : mat T) (r c : nat) :
  mat_shape x r c -> (1 <= r)%nat -> ncols x = c.
Proof.
  intros [Hr Hc] Hpos. destruct x as [|row x]; [simpl in Hr; lia|].
  simpl. now inversion Hc.
Qed.

Lemma length_vecmat (v : vec R) (x : mat LinExpr) (r c : nat) :
  mat_shape x r c -> (1 <= r)%nat -> length (vecmat v x) = c.
Proof.
  intros Hx Hr. unfold vecmat.
  now rewrite length_map, length_seq, (ncols_shape Hx Hr).
Qed.

Lemma eval_vecmat rho (v : vec R) (x : mat LinExpr) (r c t : nat) :
  mat_shape x r c -> (1 <= r)%nat -> length v = r -> (t < c)%nat ->
  eval rho (nth t (vecmat v x) (of_num 0))
  = Rsum_below r (fun i => nth i v 0 * eval rho (mget (of_num 0) x i t)).
Proof.
  intros Hx Hr Hv Ht. unfold vecmat.
  rewrite (ncols_shape Hx Hr), nth_map_seq by exact Ht.
  rewrite eval_lsum.
  rewrite (map2_as_map _ v x 0 [] (len := r)) by (destruct Hx; auto).
  rewrite map_map. unfold Rsum_below. f_equal. apply map_ext.
  intros i. change (lscale (nth i v 0) (nth t (nth i x []) lzero))
    with (lin_scale (nth i v 0) (mget (of_num 0) x i t)).
  apply eval_lin_scale.
Qed.

Lemma transpose_shape (a : mat R) (r c : nat) :
  mat_shape a r c -> (1 <= r)%nat -> mat_shape (transpose a) c r.
Proof.
  intros Ha Hr. unfold transpose. rewrite (ncols_shape Ha Hr).
  split; [now rewrite length_map, length_seq|].
  rewrite Forall_map. apply Forall_forall. intros j _.
  rewrite length_map. apply Ha.
Qed.

Lemma transpose_row (a : mat R) (r c j i : nat) :
  mat_shape a r c -> (1 <= r)%nat -> (j < c)%nat -> (i < r)%nat ->
  nth i (nth j (transpose a) []) 0 = mget 0 a i j.
Proof.
  intros Ha Hr Hj Hi. unfold transpose.
  rewrite (ncols_shape Ha Hr), nth_map_seq by exact Hj.
  rewrite (nth_indep _ 0 (nth j [] 0))
    by (rewrite length_map; destruct Ha; lia).
  rewrite (map_nth (fun row => nth j row 0)). reflexivity.
Qed.

Lemma matmul_shape (a : mat R) (x : mat LinExpr) (q r c : nat) :
  length a = q -> mat_shape x r c -> (1 <= r)%nat ->
  mat_shape (matmul a x) q c.
Proof.
  intros Ha Hx Hr. unfold matmul. split; [now rewrite length_map|].
  rewrite Forall_map. apply Forall_forall. intros row _.
  now apply length_vecmat with (r := r).
Qed.

Lemma eval_matmul rho (a : mat R) (x : mat LinExpr) (q r c j t : nat) :
  mat_shape a q r -> mat_shape x r c -> (1 <= r)%nat ->
  (j < q)%nat -> (t < c)%nat ->
  eval rho (mget (of_num 0) (matmul a x) j t)
  = Rsum_below r
      (fun i => nth i (nth j a []) 0 * eval rho (mget (of_num 0) x i t)).
Proof.
  intros Ha Hx Hr Hj Ht. unfold matmul.
  rewrite (mget_map_rows (fun arow => vecmat arow x) a (of_num 0) (r := q))
    by (destruct Ha; auto).
  apply eval_vecmat with (c := c); try assumption.
  now apply mat_shape_row with (r := q).
Qed.

Lemma nth_last {T} (l : list T) (d : T) :
  last l d = nth (length l - 1) l d.
Proof.
  induction l as [|a l IH]; [reflexivity|].
  destruct l as [|b l]; [reflexivity|].
  change (last (a :: b :: l) d) with (last (b :: l) d). rewrite IH.
  simpl. now rewrite Nat.sub_0_r.
Qed.

Lemma last_column_entry (a : mat R) (r c i : nat) :
  mat_shape a r c -> (i < r)%nat ->
  nth i (last_column a) 0 = mget 0 a i (c - 1).
Proof.
  intros Ha Hi. unfold last_column, mget.
  rewrite (nth_indep _ 0 (last [] 0)) by (rewrite length_map; destruct Ha; lia).
  rewrite (map_nth (fun row => last row 0)), nth_last.
  now rewrite (mat_shape_row Ha Hi).
Qed.

Lemma nth_removelast {T} (l : list T) (d : T) (t : nat) :
  (S t < length l)%nat -> nth t (removelast l) d = nth t l d.
Proof.
  destruct l as [|z row]; [simpl; lia|]. intros Ht.
  rewrite nth_removelast_cons by (simpl in Ht; lia).
  destruct t; reflexivity.
Qed.

Lemma length_removelast_pred {T} (l : list T) :
  length (removelast l) = (length l - 1)%nat.
Proof.
  destruct l as [|z row]; [reflexivity|].
  rewrite length_removelast_cons. simpl. lia.
Qed.

Lemma nth_tl {T} (l : list T) (d : T) (t : nat) :
  nth t (tl l) d = nth (S t) l d.
Proof. destruct l; [destruct t; reflexivity | reflexivity]. Qed.

(** ** The first-stage constraints *)

Lemma Rsum_below_ext (len : nat) (f g : nat -> R) :
  (forall i, (i < len)%nat -> f i = g i) ->
  Rsum_below len f = Rsum_below len g.
Proof.
  intros E. unfold Rsum_below. f_equal. apply map_ext_in.
  intros i Hi. apply in_seq in Hi. apply E. lia.
Qed.

Lemma mget_map {A B} (f : A -> B) (m : mat A) (da : A) (db : B)
    (r c i t : nat) :
  mat_shape m r c -> (i < r)%nat -> (t < c)%nat ->
  mget db (map (map f) m) i t = f (mget da m i t).
Proof.
  intros Hm Hi Ht.
  apply (@nd_get_map _ _ f (Arr2 m) da db 1 r c 0 i t Hm); auto.
Qed.

Lemma mat_shape_map_entries {A B} (f : A -> B) (m : mat A) (r c : nat) :
  mat_shape m r c -> mat_shape (map (map f) m) r c.
Proof.
  apply mat_shape_map. intros row Hrow. now rewrite length_map.
Qed.

Section First_stage.

Variables (rho : Var -> R) (pars : Pars) (vars : Vars1 Var).

Local Abbreviation n := (par_n pars).
Local Abbreviation s := (par_s pars).
Local Abbreviation m := (par_m pars).

Hypothesis Hn : (1 <= n)%nat.
Hypothesis Hm : (1 <= m)%nat.
Hypothesis HA : mat_shape (par_A pars) n m.
Hypothesis HB : mat_shape (par_B pars) m s.
Hypothesis HUB : mat_shape (par_UB pars) m s.
Hypothesis HX : mat_shape (var_X vars) n s.
Hypothesis HU : mat_shape (var_U vars) m s.
Hypothesis HZp : length (var_Zp vars) = (s - 1)%nat.
Hypothesis HZm : length (var_Zm vars) = (s - 1)%nat.

Local Abbreviation XL := (map (map of_var) (var_X vars)).
Local Abbreviation UL := (map (map of_var) (var_U vars)).

Lemma XL_shape : mat_shape XL n s.
Proof. now apply mat_shape_map_entries. Qed.

Lemma UL_shape : mat_shape UL m s.
Proof. now apply mat_shape_map_entries. Qed.

Lemma con_product_holds :
  let con :=
    mflatten (mat_map2 lin_sub
                (mat_map2 lin_sub_num (matmul (transpose (par_A pars)) XL)
                   (par_B pars)) UL) in
  length con = (m * s)%nat
  /\ (Forall (fun e => eval rho e <= 0) con <->
      forall j t, (j < m)%nat -> (t < s)%nat ->
        Rsum_below n (fun i => mget 0 (par_A pars) i j
                               * rho (mget no_var (var_X vars) i t))
        <= mget 0 (par_B pars) j t + rho (mget no_var (var_U vars) j t)).
Proof.
  intros con. subst con.
  pose proof (transpose_shape HA Hn) as HT.
  assert (HM : mat_shape (matmul (transpose (par_A pars)) XL) m s)
    by (apply matmul_shape with (r := n);
        [apply HT | apply XL_shape | exact Hn]).
  assert (H1 : mat_shape (mat_map2 lin_sub_num
                            (matmul (transpose (par_A pars)) XL)
                            (par_B pars)) m s)
    by (apply mat_shape_map2; assumption).
  assert (H2 : mat_shape (mat_map2 lin_sub
                            (mat_map2 lin_sub_num
                               (matmul (transpose (par_A pars)) XL)
                               (par_B pars)) UL) m s)
    by (apply mat_shape_map2; [assumption | apply UL_shape]).
  split; [now apply length_mflatten|].
  rewrite Forall_mflatten with (d := of_num 0) (r := m) (c := s) by exact H2.
  assert (E : forall j t, (j < m)%nat -> (t < s)%nat ->
            eval rho (mget (of_num 0)
                        (mat_map2 lin_sub
                           (mat_map2 lin_sub_num
                              (matmul (transpose (par_A pars)) XL)
                              (par_B pars)) UL) j t)
            = Rsum_below n (fun i => mget 0 (par_A pars) i j
                                     * rho (mget no_var (var_X vars) i t))
              - mget 0 (par_B pars) j t
              - rho (mget no_var (var_U vars) j t)).
  { intros j t Hj Ht.
    rewrite mget_map2 with (da := of_num 0) (db := of_num 0) (r := m) (c := s)
      by (assumption || apply UL_shape).
    rewrite eval_lin_sub.
    rewrite mget_map2 with (da := of_num 0) (db := 0) (r := m) (c := s)
      by assumption.
    rewrite eval_lin_sub_num.
    rewrite eval_matmul with (q := m) (r := n) (c := s)
      by (assumption || apply XL_shape).
    rewrite mget_map with (da := no_var) (r := m) (c := s)
      by assumption.
    rewrite eval_of_var. f_equal. f_equal.
    apply Rsum_below_ext. intros i Hi.
    rewrite transpose_row with (r := n) (c := m) by assumption.
    rewrite mget_map with (da := no_var) (r := n) (c := s)
      by assumption.
    now rewrite eval_of_var. }
  split; intros HF j t Hj Ht; specialize (HF j t Hj Ht).
  - rewrite E in HF by assumption. lra.
  - rewrite E by assumption. lra.
Qed.

Lemma con_extracap_holds :
  let con := mflatten (mat_map2 lin_sub_num UL (par_UB pars)) in
  length con = (m * s)%nat
  /\ (Forall (fun e => eval rho e <= 0) con <->
      forall j t, (j < m)%nat -> (t < s)%nat ->
        rho (mget no_var (var_U vars) j t) <= mget 0 (par_UB pars) j t).
Proof.
  intros con. subst con.
  assert (H1 : mat_shape (mat_map2 lin_sub_num UL (par_UB pars)) m s)
    by (apply mat_shape_map2; [apply UL_shape | assumption]).
  split; [now apply length_mflatten|].
  rewrite Forall_mflatten with (d := of_num 0) (r := m) (c := s) by exact H1.
  assert (E : forall j t, (j < m)%nat -> (t < s)%nat ->
            eval rho (mget (of_num 0)
                        (mat_map2 lin_sub_num UL (par_UB pars)) j t)
            = rho (mget no_var (var_U vars) j t) - mget 0 (par_UB pars) j t).
  { intros j t Hj Ht.
    rewrite mget_map2 with (da := of_num 0) (db := 0) (r := m) (c := s)
      by (assumption || apply UL_shape).
    rewrite eval_lin_sub_num.
    rewrite mget_map with (da := no_var) (r := m) (c := s) by assumption.
    now rewrite eval_of_var. }
  split; intros HF j t Hj Ht; specialize (HF j t Hj Ht).
  - rewrite E in HF by assumption. lra.
  - rewrite E by assumption. lra.
Qed.

Lemma dX_shape :
  mat_shape (mat_map2 lin_sub (map (@tl _) XL) (map (@removelast _) XL))
            n (s - 1).
Proof.
  apply mat_shape_map2.
  - apply mat_shape_map with (c := s); [|apply XL_shape].
    intros row Hrow. now rewrite length_tl, Hrow.
  - apply mat_shape_map with (c := s); [|apply XL_shape].
    intros row Hrow. now rewrite length_removelast_pred, Hrow.
Qed.

Lemma dX_entry (i t : nat) :
  (i < n)%nat -> (t < s - 1)%nat ->
  eval rho (mget (of_num 0)
              (mat_map2 lin_sub (map (@tl _) XL) (map (@removelast _) XL))
              i t)
  = rho (mget no_var (var_X vars) i (S t))
    - rho (mget no_var (var_X vars) i t).
Proof.
  intros Hi Ht.
  assert (Hrow : length (nth i XL []) = s)
    by (apply mat_shape_row with (r := n); [apply XL_shape | exact Hi]).
  rewrite mget_map2 with (da := of_num 0) (db := of_num 0)
                         (r := n) (c := (s - 1)%nat); try assumption.
  - rewrite eval_lin_sub.
    rewrite !mget_map_rows with (r := n)
      by (assumption || apply XL_shape).
    rewrite nth_tl, nth_removelast by lia.
    change (eval rho (mget (of_num 0) XL i (S t))
            - eval rho (mget (of_num 0) XL i t)
            = rho (mget no_var (var_X vars) i (S t))
              - rho (mget no_var (var_X vars) i t)).
    rewrite !mget_map with (da := no_var) (r := n) (c := s)
      by (assumption || lia).
    now rewrite !eval_of_var.
  - apply mat_shape_map with (c := s); [|apply XL_shape].
    intros row Hr. now rewrite length_tl, Hr.
  - apply mat_shape_map with (c := s); [|apply XL_shape].
    intros row Hr. now rewrite length_removelast_pred, Hr.
Qed.

Lemma con_work_holds :
  let con :=
    map2 lin_sub
      (map2 lin_sub (map of_var (var_Zp vars)) (map of_var (var_Zm vars)))
      (vecmat (last_column (par_A pars))
         (mat_map2 lin_sub (map (@tl _) XL) (map (@removelast _) XL))) in
  length con = (s - 1)%nat
  /\ (Forall (fun e => eval rho e = 0) con <->
      forall t, (t < s - 1)%nat ->
        rho (nth t (var_Zp vars) no_var) - rho (nth t (var_Zm vars) no_var)
        = Rsum_below n
            (fun i => mget 0 (par_A pars) i (m - 1)
                      * (rho (mget no_var (var_X vars) i (S t))
                         - rho (mget no_var (var_X vars) i t)))).
Proof.
  intros con. subst con.
  set (dX := mat_map2 lin_sub (map (@tl _) XL) (map (@removelast _) XL)).
  assert (Hv : length (vecmat (last_column (par_A pars)) dX) = (s - 1)%nat)
    by (apply length_vecmat with (r := n); [apply dX_shape | exact Hn]).
  assert (Hz : length (map2 lin_sub (map of_var (var_Zp vars))
                         (map of_var (var_Zm vars))) = (s - 1)%nat)
    by (rewrite length_map2, !length_map; lia).
  assert (Hlen : length (map2 lin_sub
                           (map2 lin_sub (map of_var (var_Zp vars))
                              (map of_var (var_Zm vars)))
                           (vecmat (last_column (par_A pars)) dX))
                 = (s - 1)%nat)
    by (rewrite length_map2; lia).
  split; [exact Hlen|].
  assert (E : forall t, (t < s - 1)%nat ->
            eval rho (nth t (map2 lin_sub
                               (map2 lin_sub (map of_var (var_Zp vars))
                                  (map of_var (var_Zm vars)))
                               (vecmat (last_column (par_A pars)) dX))
                        (of_num 0))
            = rho (nth t (var_Zp vars) no_var)
              - rho (nth t (var_Zm vars) no_var)
              - Rsum_below n
                  (fun i => mget 0 (par_A pars) i (m - 1)
                            * (rho (mget no_var (var_X vars) i (S t))
                               - rho (mget no_var (var_X vars) i t)))).
  { intros t Ht.
    rewrite nth_map2 with (da := of_num 0) (db := of_num 0) by lia.
    rewrite eval_lin_sub.
    rewrite nth_map2 with (da := of_num 0) (db := of_num 0)
      by (rewrite length_map; lia).
    rewrite eval_lin_sub.
    rewrite (nth_indep (map of_var (var_Zp vars)) (of_num 0) (of_var no_var))
      by (rewrite length_map; lia).
    rewrite (nth_indep (map of_var (var_Zm vars)) (of_num 0) (of_var no_var))
      by (rewrite length_map; lia).
    rewrite !map_nth, !eval_of_var.
    rewrite eval_vecmat with (r := n) (c := (s - 1)%nat);
      [ | apply dX_shape | exact Hn
        | unfold last_column; rewrite length_map; apply HA | exact Ht ].
    f_equal. apply Rsum_below_ext. intros i Hi.
    rewrite last_column_entry with (r := n) (c := m) by assumption.
    unfold dX. rewrite dX_entry by assumption. reflexivity. }
  rewrite Forall_nth. split.
  - intros HF t Ht. specialize (HF t (of_num 0)).
    rewrite Hlen in HF. specialize (HF Ht). rewrite E in HF by exact Ht. lra.
  - intros HF t d Ht. rewrite Hlen in Ht.
    rewrite (nth_indep _ d (of_num 0)) by (rewrite Hlen; exact Ht).
    rewrite E by exact Ht. specialize (HF t Ht). lra.
Qed.

End First_stage.

(** Discharges the premises of [H] that are among the hypotheses. *)
Ltac feed H :=
  repeat match type of H with
         | ?A -> _ =>
             let h := fresh in
             assert (h : A) by assumption; specialize (H h); clear h
         end.

(** C2.  [add_1st_stage_constraints] adds exactly three families of
    constraints, in this order.  (a) "con_product", one inequality for
    every resource and period: the consumption of the resource, the
    technology matrix (the transpose of A) applied to X, does not exceed
    the base capacity B plus the extra capacity U.  (b) "con_work", one
    equality for every pair of consecutive periods: Z+ minus Z- equals the
    workforce row of the technology matrix (the last column of A) applied
    to the change of X from one period to the next.  (c) "con_extracap",
    one inequality for every entry of U: U does not exceed UB. *)
Theorem first_stage_constraint_families mdl pars (vars : Vars1 Var)
    (rho : Var -> R) :
  (1 <= par_n pars)%nat ->
  (1 <= par_m pars)%nat ->
  mat_shape (par_A pars) (par_n pars) (par_m pars) ->
  mat_shape (par_B pars) (par_m pars) (par_s pars) ->
  mat_shape (par_UB pars) (par_m pars) (par_s pars) ->
  mat_shape (var_X vars) (par_n pars) (par_s pars) ->
  mat_shape (var_U vars) (par_m pars) (par_s pars) ->
  length (var_Zp vars) = (par_s pars - 1)%nat ->
  length (var_Zm vars) = (par_s pars - 1)%nat ->
  exists con_product con_work con_extracap,
    pconstrs (problem (add_1st_stage_constraints mdl pars vars))
    = pconstrs (problem mdl) ++ con_product ++ con_work ++ con_extracap
    /\ (length con_product = (par_m pars * par_s pars)%nat
        /\ Forall (fun c => cname c = "con_product"%string
                            /\ csense c = LessEqual) con_product)
    /\ (length con_work = (par_s pars - 1)%nat
        /\ Forall (fun c => cname c = "con_work"%string
                            /\ csense c = Equal) con_work)
    /\ (length con_extracap = (par_m pars * par_s pars)%nat
        /\ Forall (fun c => cname c = "con_extracap"%string
                            /\ csense c = LessEqual) con_extracap)
    /\ (Forall (holds rho) con_product <->
        forall j t, (j < par_m pars)%nat -> (t < par_s pars)%nat ->
          Rsum_below (par_n pars)
            (fun i => mget 0 (par_A pars) i j
                      * rho (mget no_var (var_X vars) i t))
          <= mget 0 (par_B pars) j t + rho (mget no_var (var_U vars) j t))
    /\ (Forall (holds rho) con_work <->
        forall t, (t < par_s pars - 1)%nat ->
          rho (nth t (var_Zp vars) no_var) - rho (nth t (var_Zm vars) no_var)
          = Rsum_below (par_n pars)
              (fun i => mget 0 (par_A pars) i (par_m pars - 1)
                        * (rho (mget no_var (var_X vars) i (S t))
                           - rho (mget no_var (var_X vars) i t))))
    /\ (Forall (holds rho) con_extracap <->
        forall j t, (j < par_m pars)%nat -> (t < par_s pars)%nat ->
          rho (mget no_var (var_U vars) j t) <= mget 0 (par_UB pars) j t).
Proof.
  intros Hn Hm HA HB HUB HX HU HZp HZm.
  pose proof (@con_product_holds rho pars vars) as P1. feed P1.
  pose proof (@con_work_holds rho pars vars) as P2. feed P2.
  pose proof (@con_extracap_holds rho pars vars) as P3. feed P3.
  cbv zeta in P1, P2, P3.
  destruct P1 as [L1 I1], P2 as [L2 I2], P3 as [L3 I3].
  unfold add_1st_stage_constraints. cbv zeta.
  rewrite !addConstrs_added, <- !app_assoc.
  do 3 eexists. split; [reflexivity|].
  rewrite !mk_constrs_length, !mk_constrs_holds.
  split; [split; [exact L1 | apply mk_constrs_family]|].
  split; [split; [exact L2 | apply mk_constrs_family]|].
  split; [split; [exact L3 | apply mk_constrs_family]|].
  split; [exact I1|]. split; [exact I2 | exact I3].
Qed.

Ltac shape_by_computation :=
  vm_compute; split; [reflexivity | repeat constructor].

(** C1, on the two-period instance with the mean demand as data. *)
Lemma demand_balance_constraint_witness :
  exists con,
    pconstrs (problem (fst (add_2nd_stage_constraints
                              (fresh_model "EV" env0) pars2
                              (map (map of_var) (var_X vars1_2)) vars2_2
                              (Some (Arr2 [[5; 5]])))))
    = [] ++ con
    /\ length con = 2%nat.
Proof.
  destruct (@demand_balance_constraint (fresh_model "EV" env0) pars2
              (map (map of_var) (var_X vars1_2)) vars2_2
              (Some (Arr2 [[5; 5]])) 1 (fun _ => 0))
    as (con & E & L & _).
  - shape_by_computation.
  - vm_compute. split; [reflexivity|]. split; [reflexivity | repeat constructor].
  - vm_compute. split; [reflexivity|]. split; [reflexivity | repeat constructor].
  - intros d Hd. inversion Hd; subst d.
    vm_compute. split; [reflexivity|]. split; [reflexivity | repeat constructor].
  - exists con. split; [exact E | exact L].
Defined.

(** C2, on the two-period instance. *)
Lemma first_stage_constraint_families_witness :
  exists con_product con_work con_extracap,
    pconstrs (problem (add_1st_stage_constraints (fresh_model "EV" env0)
                         pars2 vars1_2))
    = [] ++ con_product ++ con_work ++ con_extracap
    /\ length con_product = 2%nat
    /\ length con_work = 1%nat
    /\ length con_extracap = 2%nat.
Proof.
  destruct (@first_stage_constraint_families (fresh_model "EV" env0) pars2
              vars1_2 (fun _ => 0))
    as (c1 & c2 & c3 & E & (L1 & _) & (L2 & _) & (L3 & _) & _).
  - vm_compute. lia.
  - vm_compute. lia.
  - shape_by_computation.
  - shape_by_computation.
  - shape_by_computation.
  - shape_by_computation.
  - shape_by_computation.
  - reflexivity.
  - reflexivity.
  - exists c1, c2, c3. repeat split; assumption.
Defined.

(** ** The second-stage objective as an average *)

Lemma Rsum_map_indexed {A} (g : A -> R) (l : list A) (d : A) :
  Rsum (map g l) = Rsum_below (length l) (fun i => g (nth i l d)).
Proof.
  induction l as [|a l IH]; [reflexivity|].
  unfold Rsum_below in *. cbn [length seq map Rsum fold_right].
  rewrite <- seq_shift, map_map. cbn [nth]. f_equal. exact IH.
Qed.

Lemma Rsum_concat (m : mat R) : Rsum (concat m) = Rsum (map Rsum m).
Proof.
  induction m as [|row m IH]; [reflexivity|].
  cbn [concat map]. rewrite Rsum_app, IH. reflexivity.
Qed.

(** On arrays of the announced shape, [(cost * var).sum()] is the sum
    over the products and the periods of quantity times unit cost. *)
Lemma cost_sum2_weighted_total (cost y : mat R) (n s : nat) :
  mat_shape cost n s -> mat_shape y n s ->
  cost_sum2 cost y = weighted_total n s cost y.
Proof.
  intros Hc Hy. unfold cost_sum2, weighted_total, mflatten.
  change (@lsum R _ ?l) with (Rsum l). change (@lscale R _) with Rmult.
  pose proof (mat_shape_map2 Rmult Hc Hy) as Hp.
  rewrite Rsum_concat, (Rsum_map_indexed Rsum _ []).
  rewrite (proj1 Hp). apply Rsum_below_ext. intros i Hi.
  rewrite <- (map_id (nth i (mat_map2 Rmult cost y) [])) at 1.
  rewrite (Rsum_map_indexed (fun x => x) _ 0).
  rewrite (mat_shape_row Hp Hi). apply Rsum_below_ext. intros t Ht.
  apply (mget_map2 Rmult 0 0 0 Hc Hy Hi Ht).
Qed.

Lemma cost_sum_nd_scenarios (cost : mat R) (ys : list (mat R)) (n s : nat) :
  mat_shape cost n s -> Forall (fun y => mat_shape y n s) ys ->
  cost_sum_nd cost (Arr3 ys)
  = Rsum_below (length ys) (fun k => weighted_total n s cost (nth k ys [])).
Proof.
  intros Hc Hys. rewrite cost_sum_nd_Arr3.
  rewrite (Rsum_map_indexed (cost_sum2 cost) ys []).
  apply Rsum_below_ext. intros k Hk.
  apply cost_sum2_weighted_total; [exact Hc|].
  rewrite Forall_forall in Hys. apply Hys. now apply nth_In.
Qed.

(** C5, as amended.  [get_2nd_stage_objective] divides the summed
    shortage/surplus cost by the scenario count inferred from the shape
    of ['Y+']: by 1 for an array of rank 2, by the length S of the first
    axis for one of rank 3, where the cost is summed over the S
    scenarios; the result is the recourse cost averaged over the
    scenarios.  On a scenario replicated S times along a new first axis
    the sum runs over S copies of the scenario, and this sum is divided
    by S. *)
Theorem get_2nd_stage_objective_scenario_average
    (pars : Pars) (yp ym : mat R) (yps yms : list (mat R)) (S : nat) :
  mat_shape (par_Qp pars) (par_n pars) (par_s pars) ->
  mat_shape (par_Qm pars) (par_n pars) (par_s pars) ->
  mat_shape yp (par_n pars) (par_s pars) ->
  mat_shape ym (par_n pars) (par_s pars) ->
  Forall (fun y => mat_shape y (par_n pars) (par_s pars)) yps ->
  Forall (fun y => mat_shape y (par_n pars) (par_s pars)) yms ->
  (1 <= S)%nat ->
  length yps = S ->
  get_2nd_stage_objective pars (mkVars2 (Arr2 yp) (Arr2 ym))
    = Ok (recourse_cost pars yp ym / 1)
  /\ get_2nd_stage_objective pars (mkVars2 (Arr3 yps) (Arr3 yms))
    = Ok (summed_recourse_cost pars yps yms / INR S)
  /\ get_2nd_stage_objective pars
       (mkVars2 (Arr3 (repeat yp S)) (Arr3 (repeat ym S)))
    = Ok ((Rsum_below S
             (fun _ => weighted_total (par_n pars) (par_s pars)
                         (par_Qp pars) yp)
           + Rsum_below S
               (fun _ => weighted_total (par_n pars) (par_s pars)
                           (par_Qm pars) ym))
          / INR S).
Proof.
  intros HQp HQm Hyp Hym Hyps Hyms HS Hlen.
  assert (Hrank3 : forall us vs,
            Forall (fun y => mat_shape y (par_n pars) (par_s pars)) us ->
            Forall (fun y => mat_shape y (par_n pars) (par_s pars)) vs ->
            length us = S ->
            get_2nd_stage_objective pars (mkVars2 (Arr3 us) (Arr3 vs))
            = Ok (summed_recourse_cost pars us vs / INR S)).
  { intros us vs Hus Hvs Hl.
    unfold get_2nd_stage_objective, scenario_count.
    cbn [var_Yp var_Ym ndim shape0 Nat.eqb]. rewrite Hl.
    destruct (Nat.eqb_spec S 0) as [E|_]; [lia|].
    rewrite (cost_sum_nd_scenarios HQp Hus), (cost_sum_nd_scenarios HQm Hvs).
    unfold summed_recourse_cost. f_equal.
    change (@ldiv R _ ?x ?a) with (x / a). f_equal.
    change (@lsum R _ ?l) with (Rsum l). cbn [Rsum fold_right]. lra. }
  split; [|split].
  - unfold get_2nd_stage_objective, scenario_count, recourse_cost.
    cbn [var_Yp var_Ym ndim Nat.eqb].
    rewrite <- (cost_sum2_weighted_total HQp Hyp),
            <- (cost_sum2_weighted_total HQm Hym).
    f_equal. change (@ldiv R _ ?x ?a) with (x / a). f_equal.
    change (@lsum R _ ?l) with (Rsum l).
    cbn [Rsum fold_right]. unfold cost_sum_nd, cost_sum2. cbn [nd_map2 flatten].
    lra.
  - now apply Hrank3.
  - rewrite Hrank3;
      [| apply Forall_forall; intros y Hy; apply repeat_spec in Hy; now subst
       | apply Forall_forall; intros y Hy; apply repeat_spec in Hy; now subst
       | apply repeat_length ].
    unfold summed_recourse_cost. rewrite !repeat_length. do 3 f_equal.
    + apply Rsum_below_ext. intros k Hk. now rewrite nth_repeat_lt.
    + apply Rsum_below_ext. intros k Hk. now rewrite nth_repeat_lt.
Qed.

(** C5, as amended, on the small instance with the scenario replicated
    twice: a shortage of 2 at the unit cost 3 and a surplus of 1 at the
    unit cost 1. *)
Lemma get_2nd_stage_objective_scenario_average_witness :
  get_2nd_stage_objective pars0 (mkVars2 (Arr2 [[2]]) (Arr2 [[1]]))
    = Ok (recourse_cost pars0 [[2]] [[1]] / 1)
  /\ get_2nd_stage_objective pars0
       (mkVars2 (Arr3 (repeat [[2]] 2)) (Arr3 (repeat [[1]] 2)))
     = Ok ((Rsum_below 2 (fun _ => weighted_total 1 1 [[3]] [[2]])
            + Rsum_below 2 (fun _ => weighted_total 1 1 [[1]] [[1]]))
           / INR 2).
Proof.
  assert (Hs : forall x : R, mat_shape [[x]] 1 1)
    by (intros x; split; [reflexivity | repeat constructor]).
  assert (Hr : forall x : R,
            Forall (fun y => mat_shape y 1 1) (repeat [[x]] 2))
    by (intros x; repeat constructor).
  destruct (@get_2nd_stage_objective_scenario_average pars0 [[2]] [[1]]
              (repeat [[2]] 2) (repeat [[1]] 2) 2
              (Hs 3) (Hs 1) (Hs 2) (Hs 1) (Hr 2) (Hr 1)
              (le_S 1 1 (le_n 1)) eq_refl) as (H1 & _ & H3).
  split; [exact H1 | exact H3].
Defined.

(** C5: on binary64 numbers the value on a scenario replicated three
    times is not the value on the single scenario.  With unit costs of
    1, a shortage of 0.7 and no surplus, the single scenario gives 0.7;
    the three copies sum to 2.0999999999999996, and a third of it is
    0.6999999999999998, whether the entries are added from the first or
    from the last, and whether the sum is divided by 3 or multiplied by
    the reciprocal of 3. *)
Lemma replicated_scenario_differs_in_binary64 :
  Forall
    (fun array_sum =>
       Forall
         (fun divide =>
            Binary64.get_2nd_stage_objective array_sum divide
              Binary64.unit_costs
              (Binary64.mkVars2 (Arr2 Binary64.shortage)
                                (Arr2 Binary64.no_surplus))
            = Ok Binary64.seven_tenths
            /\ Binary64.get_2nd_stage_objective array_sum divide
                 Binary64.unit_costs
                 (Binary64.mkVars2 (Arr3 (repeat Binary64.shortage 3))
                                   (Arr3 (repeat Binary64.no_surplus 3)))
               = Ok Binary64.below_seven_tenths)
         [Binary64.true_division; Binary64.by_reciprocal])
    [Binary64.sum_forward; Binary64.sum_backward]
  /\ Binary64.below_seven_tenths <> Binary64.seven_tenths.
Proof.
  split.
  - each_entry; split; vm_compute; reflexivity.
  - intros E.
    apply (f_equal (fun x => PrimFloat.eqb x Binary64.seven_tenths)) in E.
    vm_compute in E. discriminate E.
Qed.

(* ================================================================= *)
(** * Further properties of the model builder *)

(** ** Fixing variables by their bounds *)

Lemma index_eqb_eq (a b : list nat) : index_eqb a b = true <-> a = b.
Proof.
  revert b. induction a as [|x a IH]; intros [|y b]; simpl;
    try (split; intros E; (discriminate || reflexivity)).
  rewrite andb_true_iff, Nat.eqb_eq, IH. split.
  - intros [-> ->]. reflexivity.
  - intros E. inversion E. auto.
Qed.

Lemma Var_eqb_eq (a b : Var) : Var_eqb a b = true <-> a = b.
Proof.
  unfold Var_eqb. rewrite andb_true_iff, String.eqb_eq, index_eqb_eq.
  destruct a as [na ia], b as [nb ib]; simpl. split.
  - intros [-> ->]. reflexivity.
  - intros E. inversion E. auto.
Qed.

Lemma setAttr_map (setter : Var -> R -> VarDecl -> VarDecl)
    (vars : list Var) (values : list R) (ds : list VarDecl) :
  setAttr setter vars values ds
  = map (fun d => fold_left (fun d' vx => setter (fst vx) (snd vx) d')
                            (combine vars values) d) ds.
Proof.
  unfold setAttr. generalize (combine vars values) as l.
  intros l. revert ds. induction l as [|vx l IH]; intros ds; cbn [fold_left].
  - now rewrite map_id.
  - rewrite IH, map_map. reflexivity.
Qed.

Lemma fold_set_LB (vars : list Var) (values : list R) (d : VarDecl) :
  fold_left (fun d' vx => set_LB (fst vx) (snd vx) d') (combine vars values) d
  = mkDecl (dvar d)
           (match assigned (dvar d) vars values with
            | Some x => x
            | None => LB d
            end)
           (UB d) (VTypeOf d).
Proof.
  revert values d. induction vars as [|w vars IH]; intros [|x values] d;
    try (destruct d; reflexivity).
  cbn [combine fold_left fst snd assigned]. rewrite IH. unfold set_LB.
  destruct (Var_eqb (dvar d) w); cbn [dvar LB UB VTypeOf];
    destruct (assigned (dvar d) vars values); reflexivity.
Qed.

Lemma fold_set_UB (vars : list Var) (values : list R) (d : VarDecl) :
  fold_left (fun d' vx => set_UB (fst vx) (snd vx) d') (combine vars values) d
  = mkDecl (dvar d) (LB d)
           (match assigned (dvar d) vars values with
            | Some x => Some x
            | None => UB d
            end)
           (VTypeOf d).
Proof.
  revert values d. induction vars as [|w vars IH]; intros [|x values] d;
    try (destruct d; reflexivity).
  cbn [combine fold_left fst snd assigned]. rewrite IH. unfold set_UB.
  destruct (Var_eqb (dvar d) w); cbn [dvar LB UB VTypeOf];
    destruct (assigned (dvar d) vars values); reflexivity.
Qed.

(** [fix_var] rewrites the declarations one by one. *)
Lemma fix_bounds_fixed_decl (p : Problem) (vars : list Var) (values : list R) :
  fix_bounds p vars values
  = mkProblem (map (fixed_decl vars values) (pvars p)) (pconstrs p)
              (pobjective p).
Proof.
  unfold fix_bounds. cbv zeta. f_equal.
  rewrite !setAttr_map, map_map. apply map_ext. intros d.
  rewrite fold_set_LB, fold_set_UB. unfold fixed_decl. cbn [dvar LB UB VTypeOf].
  destruct (assigned (dvar d) vars values); [reflexivity | now destruct d].
Qed.

Lemma assigned_not_In (v : Var) (vars : list Var) (values : list R) :
  ~ In v vars -> assigned v vars values = None.
Proof.
  revert values. induction vars as [|w vars IH]; intros [|x values] Hn;
    try reflexivity.
  cbn [assigned]. rewrite IH by (intros Hi; apply Hn; now right).
  destruct (Var_eqb v w) eqn:E; [|reflexivity].
  apply Var_eqb_eq in E. exfalso. apply Hn. now left.
Qed.

Lemma assigned_nth (vars : list Var) (values : list R) (k : nat) :
  NoDup vars -> length vars = length values -> (k < length vars)%nat ->
  assigned (nth k vars no_var) vars values = Some (nth k values 0).
Proof.
  revert values k. induction vars as [|w vars IH]; intros [|x values] k Hnd Hl Hk;
    simpl in Hl, Hk; try lia.
  inversion Hnd as [|w' vars' Hw Hnd']; subst.
  destruct k as [|k]; cbn [nth assigned].
  - rewrite assigned_not_In by exact Hw.
    now rewrite (proj2 (Var_eqb_eq w w) eq_refl).
  - rewrite IH by (assumption || lia). reflexivity.
Qed.

(** Which variables receive a value depends on the number of values
    only. *)
Lemma assigned_domain (v : Var) (vars : list Var) (values1 values2 : list R) :
  length values1 = length values2 ->
  assigned v vars values2 = None -> assigned v vars values1 = None.
Proof.
  revert values1 values2.
  induction vars as [|w vars IH]; intros [|x1 values1] [|x2 values2] Hl Hn;
    simpl in Hl; try discriminate; try reflexivity.
  cbn [assigned] in *.
  destruct (assigned v vars values2) eqn:E2; [discriminate|].
  rewrite (IH values1 values2) by (assumption || lia).
  destruct (Var_eqb v w); [discriminate | reflexivity].
Qed.

Lemma fixed_decl_dvar vars values d : dvar (fixed_decl vars values d) = dvar d.
Proof. unfold fixed_decl. now destruct (assigned (dvar d) vars values). Qed.

Lemma fixed_decl_overwrites vars values1 values2 d :
  length values1 = length values2 ->
  fixed_decl vars values2 (fixed_decl vars values1 d) = fixed_decl vars values2 d.
Proof.
  intros Hl. unfold fixed_decl at 1 3. rewrite fixed_decl_dvar.
  destruct (assigned (dvar d) vars values2) eqn:E2.
  - unfold fixed_decl. now destruct (assigned (dvar d) vars values1).
  - unfold fixed_decl.
    now rewrite (@assigned_domain (dvar d) vars values1 values2 Hl E2).
Qed.

Lemma fix_bounds_overwrites p vars values1 values2 :
  length values1 = length values2 ->
  fix_bounds (fix_bounds p vars values1) vars values2
  = fix_bounds p vars values2.
Proof.
  intros Hl. rewrite !fix_bounds_fixed_decl. cbn [pvars pconstrs pobjective].
  f_equal. rewrite map_map. apply map_ext. intros d.
  now apply fixed_decl_overwrites.
Qed.

(** X1.  [fix_var] sets the lower and the upper bound of every variable
    of the array to the value at the same position, and nothing else:
    the declarations keep their order, variable and type, a variable
    that is not in the array keeps its bounds, and the constraints and
    the objective of the model are untouched. *)
Theorem fix_var_sets_bounds mdl (var : ndarray Var) (value : ndarray R) :
  NoDup (flatten var) ->
  length (flatten var) = length (flatten value) ->
  exists f : VarDecl -> VarDecl,
    pvars (problem (fix_var mdl var value)) = map f (pvars (problem mdl))
    /\ (forall d, dvar (f d) = dvar d /\ VTypeOf (f d) = VTypeOf d)
    /\ (forall d k, (k < length (flatten var))%nat ->
          dvar d = nth k (flatten var) no_var ->
          LB (f d) = nth k (flatten value) 0
          /\ UB (f d) = Some (nth k (flatten value) 0))
    /\ (forall d, ~ In (dvar d) (flatten var) -> f d = d)
    /\ pconstrs (problem (fix_var mdl var value)) = pconstrs (problem mdl)
    /\ pobjective (problem (fix_var mdl var value)) = pobjective (problem mdl).
Proof.
  intros Hnd Hl. exists (fixed_decl (flatten var) (flatten value)).
  unfold fix_var. cbv zeta. cbn [problem set_problem].
  rewrite fix_bounds_fixed_decl. cbn [pvars pconstrs pobjective].
  split; [reflexivity|]. split.
  { intros d. unfold fixed_decl.
    destruct (assigned (dvar d) (flatten var) (flatten value)); auto. }
  split.
  { intros d k Hk Hd. unfold fixed_decl.
    rewrite Hd, assigned_nth by assumption. cbn [LB UB]. auto. }
  split; [|auto].
  intros d Hn. unfold fixed_decl. now rewrite assigned_not_In.
Qed.

(** X2.  Fixing the same array of variables a second time overwrites the
    first values: the model is the one obtained by the second call alone.
    This is what lets the scenario loops reuse one model. *)
Theorem fix_var_overwrites mdl (var : ndarray Var) (value1 value2 : ndarray R) :
  length (flatten value1) = length (flatten value2) ->
  fix_var (fix_var mdl var value1) var value2 = fix_var mdl var value2.
Proof.
  intros Hl. unfold fix_var. cbv zeta. unfold set_problem.
  cbn [mid mname problem outcome]. f_equal. now apply fix_bounds_overwrites.
Qed.

Ltac distinct_by_computation :=
  vm_compute; repeat (constructor; [simpl; intuition discriminate|]);
  constructor.

(** X1, on the demand placeholder of the two-period instance. *)
Lemma fix_var_sets_bounds_witness :
  let r :=
    add_2nd_stage_constraints (fresh_model "EEV" env0) pars2
      (map (map of_num) [[5; 5]]) vars2_2 None in
  exists f : VarDecl -> VarDecl,
    pvars (problem (fix_var (fst r) (placeholder (snd r)) (Arr2 [[5; 7]])))
    = map f (pvars (problem (fst r)))
    /\ (forall d, dvar d = mkVar "demand" [0; 1]%nat ->
          LB (f d) = 7 /\ UB (f d) = Some 7).
Proof.
  intros r.
  destruct (@fix_var_sets_bounds (fst r) (placeholder (snd r)) (Arr2 [[5; 7]]))
    as (f & E & _ & Hfix & _).
  - distinct_by_computation.
  - reflexivity.
  - exists f. split; [exact E|].
    intros d Hd. apply (Hfix d 1%nat); [vm_compute; lia | exact Hd].
Defined.

(** X2, on the same placeholder. *)
Lemma fix_var_overwrites_witness :
  let r :=
    add_2nd_stage_constraints (fresh_model "EEV" env0) pars2
      (map (map of_num) [[5; 5]]) vars2_2 None in
  fix_var (fix_var (fst r) (placeholder (snd r)) (Arr2 [[5; 7]]))
          (placeholder (snd r)) (Arr2 [[1; 2]])
  = fix_var (fst r) (placeholder (snd r)) (Arr2 [[1; 2]]).
Proof.
  intros r. apply fix_var_overwrites. reflexivity.
Defined.

(** ** One model for all the scenarios *)

Lemma scenario_problems_independent (demands : ndarray Var)
    (samples : list (mat R)) (len : nat) :
  Forall (fun d => length (mflatten d) = len) samples ->
  forall p,
    scenario_problems p demands samples
    = map (fun d => fix_bounds p (flatten demands) (mflatten d)) samples.
Proof.
  induction 1 as [|d rest Hd Hrest IH]; intros p; [reflexivity|].
  cbn [scenario_problems map]. rewrite flatten_Arr2. f_equal.
  rewrite IH. apply map_ext_in. intros d' Hin.
  apply fix_bounds_overwrites.
  rewrite Forall_forall in Hrest. rewrite (Hrest d' Hin). exact Hd.
Qed.

Lemma scenario_sizes (samples : list (mat R)) (n s : nat) :
  Forall (fun d => mat_shape d n s) samples ->
  Forall (fun d => length (mflatten d) = (n * s)%nat) samples.
Proof.
  intros Hs. eapply Forall_impl; [|exact Hs].
  intros d Hd. cbv beta. now apply length_mflatten.
Qed.

Section One_model_for_all_scenarios.

Context `{SolverAdapter}.

(** X3.  The loops of [optimize_EEV] and [optimize_WS] reuse one model
    and only overwrite the bounds of the demand placeholder, so the
    problem solved for a scenario is the model as built with the demand
    fixed to that scenario: nothing of the earlier scenarios is left in
    it.  So when every such solve is usable, the list returned holds, in
    order, what each scenario contributes when it is solved on its
    own. *)
Theorem scenarios_are_solved_independently pars EV_vars1 samples intvars env :
  Forall (fun d => mat_shape d (par_n pars) (par_s pars)) samples ->
  (forall mdl demands,
     EEV_model (fresh_model "EEV" env) pars EV_vars1 intvars
     = Ok (mdl, demands) ->
     let outs :=
       map (fun d => grb_optimize (problem (fix_var mdl demands (Arr2 d))))
           samples in
     Forall usable outs ->
     snd (optimize_EEV pars EV_vars1 samples intvars env)
     = Ok (flat_map objective_of outs))
  /\ (forall mdl demands,
        WS_model (fresh_model "LSDE" env) pars intvars = Ok (mdl, demands) ->
        let outs :=
          map (fun d => grb_optimize (problem (fix_var mdl demands (Arr2 d))))
              samples in
        Forall usable outs ->
        snd (optimize_WS pars samples intvars env)
        = Ok (flat_map objective_of outs)).
Proof.
  intros Hs. apply scenario_sizes in Hs.
  split; intros mdl demands E outs Hus; subst outs.
  - assert (Ep : EEV_problems pars EV_vars1 intvars samples env
                 = map (fun d => problem (fix_var mdl demands (Arr2 d)))
                       samples).
    { unfold EEV_problems. rewrite E.
      now rewrite scenario_problems_independent with (len := (par_n pars * par_s pars)%nat). }
    rewrite optimize_EEV_collects; rewrite Ep, map_map; [reflexivity | exact Hus].
  - assert (Ep : WS_problems pars intvars samples env
                 = map (fun d => problem (fix_var mdl demands (Arr2 d)))
                       samples).
    { unfold WS_problems. rewrite E.
      now rewrite scenario_problems_independent with (len := (par_n pars * par_s pars)%nat). }
    rewrite optimize_WS_collects; rewrite Ep, map_map; [reflexivity | exact Hus].
Qed.

End One_model_for_all_scenarios.

(** X3, on the small instance with the demands 5 and 20. *)
Lemma scenarios_are_solved_independently_witness :
  Forall (fun d => mat_shape d (par_n pars0) (par_s pars0)) samples0
  /\ snd (@optimize_EEV solver_capacity pars0 (plan 5) samples0 false env0)
     = Ok [1 * 5]
  /\ snd (@optimize_WS solver_capacity pars0 samples0 false env0)
     = Ok [1 * 5].
Proof.
  assert (Hs : Forall (fun d => mat_shape d (par_n pars0) (par_s pars0))
                 samples0).
  { repeat (apply Forall_cons; [shape_by_computation|]). apply Forall_nil. }
  destruct (@scenarios_are_solved_independently solver_capacity pars0 (plan 5)
              samples0 false env0 Hs) as [Heev Hws].
  split; [exact Hs|]. split.
  - destruct (@EEV_model (fresh_model "EEV" env0) pars0 (plan 5) false)
      as [[mdl demands]|e] eqn:E; [|vm_compute in E; discriminate E].
    rewrite (Heev mdl demands eq_refl).
    + vm_compute in E. inversion E; subst. vm_compute. decide_R. reflexivity.
    + vm_compute in E. inversion E; subst. vm_compute. decide_R.
      apply Forall_cons; [right; discriminate|].
      apply Forall_cons; [left; reflexivity | apply Forall_nil].
  - destruct (@WS_model (fresh_model "LSDE" env0) pars0 false)
      as [[mdl demands]|e] eqn:E; [|vm_compute in E; discriminate E].
    rewrite (Hws mdl demands eq_refl).
    + vm_compute in E. inversion E; subst. vm_compute. decide_R. reflexivity.
    + vm_compute in E. inversion E; subst. vm_compute. decide_R.
      apply Forall_cons; [right; discriminate|].
      apply Forall_cons; [left; reflexivity | apply Forall_nil].
Defined.

(** ** The variables that the builder creates *)

Lemma NoDup_map_inj {A B} (f : A -> B) (l : list A) :
  (forall x y, f x = f y -> x = y) -> NoDup l -> NoDup (map f l).
Proof.
  intros Hinj. induction 1 as [|a l Ha Hl IH]; cbn [map]; constructor.
  - rewrite in_map_iff. intros (x & E & Hx). apply Hinj in E. now subst.
  - exact IH.
Qed.

Lemma NoDup_concat_map {A B} (g : A -> list B) (l : list A) :
  NoDup l ->
  (forall x, In x l -> NoDup (g x)) ->
  (forall x y z, In x l -> In y l -> In z (g x) -> In z (g y) -> x = y) ->
  NoDup (concat (map g l)).
Proof.
  induction 1 as [|a l Ha Hl IH]; intros Hg Hsep; cbn [map concat].
  - constructor.
  - apply NoDup_app.
    + apply Hg. now left.
    + apply IH.
      * intros x Hx. apply Hg. now right.
      * intros x y z Hx Hy. apply Hsep; now right.
    + intros z Hz Hin. apply in_concat in Hin. destruct Hin as (zs & Hzs & Hz').
      apply in_map_iff in Hzs. destruct Hzs as (x & <- & Hx).
      assert (E : a = x) by (apply (Hsep a x z); auto; [now left | now right]).
      subst. contradiction.
Qed.

Lemma mflatten_map {A B} (f : A -> B) (m : mat A) :
  mflatten (map (map f) m) = map f (mflatten m).
Proof. unfold mflatten. now rewrite concat_map. Qed.

Lemma flatten_nd_map {A B} (f : A -> B) (a : ndarray A) :
  flatten (nd_map f a) = map f (flatten a).
Proof.
  destruct a as [m|ts]; cbn [nd_map flatten]; [apply mflatten_map|].
  rewrite concat_map, !map_map. f_equal. apply map_ext. intros m.
  apply mflatten_map.
Qed.

Lemma index2_NoDup (r c : nat) : NoDup (mflatten (index2 r c)).
Proof.
  unfold mflatten, index2. apply NoDup_concat_map.
  - apply seq_NoDup.
  - intros i _. apply NoDup_map_inj; [|apply seq_NoDup].
    intros x y E. now inversion E.
  - intros i i' z _ _ Hz Hz'.
    apply in_map_iff in Hz. destruct Hz as (t & <- & _).
    apply in_map_iff in Hz'. destruct Hz' as (t' & E & _). now inversion E.
Qed.

Lemma index3_NoDup (k r c : nat) :
  NoDup (flatten (Arr3 (index3 k r c))).
Proof.
  cbn [flatten]. unfold index3. rewrite map_map. apply NoDup_concat_map.
  - apply seq_NoDup.
  - intros j _. unfold mflatten. apply NoDup_concat_map.
    + apply seq_NoDup.
    + intros i _. apply NoDup_map_inj; [|apply seq_NoDup].
      intros x y E. now inversion E.
    + intros i i' z _ _ Hz Hz'.
      apply in_map_iff in Hz. destruct Hz as (t & <- & _).
      apply in_map_iff in Hz'. destruct Hz' as (t' & E & _). now inversion E.
  - intros j j' z _ _ Hz Hz'. unfold mflatten in Hz, Hz'.
    apply in_concat in Hz. destruct Hz as (row & Hrow & Hz).
    apply in_map_iff in Hrow. destruct Hrow as (i & <- & _).
    apply in_map_iff in Hz. destruct Hz as (t & <- & _).
    apply in_concat in Hz'. destruct Hz' as (row' & Hrow' & Hz').
    apply in_map_iff in Hrow'. destruct Hrow' as (i' & <- & _).
    apply in_map_iff in Hz'. destruct Hz' as (t' & E & _). now inversion E.
Qed.

Lemma mkVar_inj (name : string) (a b : list nat) :
  mkVar name a = mkVar name b -> a = b.
Proof. intros E. now inversion E. Qed.

(** What one call of [addVars] does to a model: the new variables are
    appended to the declarations with the bounds and the type given,
    they are pairwise distinct and carry the name of the group, and the
    array returned has the shape asked for. *)
Lemma addVars1_spec mdl len lb ub ty name :
  let r := addVars1 mdl len lb ub ty name in
  length (snd r) = len
  /\ NoDup (snd r)
  /\ Forall (fun v => vname v = name) (snd r)
  /\ problem (fst r)
     = mkProblem (pvars (problem mdl) ++ map (decl lb ub ty) (snd r))
                 (pconstrs (problem mdl)) (pobjective (problem mdl)).
Proof.
  cbv zeta. unfold addVars1. cbn [fst snd].
  split; [now rewrite length_map, length_seq|].
  split; [apply NoDup_map_inj; [|apply seq_NoDup];
          intros x y E; now inversion E|].
  split; [|reflexivity].
  rewrite Forall_map. apply Forall_forall. reflexivity.
Qed.

Lemma addVars2_spec mdl r c lb ub ty name :
  let res := addVars2 mdl r c lb ub ty name in
  mat_shape (snd res) r c
  /\ NoDup (mflatten (snd res))
  /\ Forall (fun v => vname v = name) (mflatten (snd res))
  /\ problem (fst res)
     = mkProblem (pvars (problem mdl) ++ map (decl lb ub ty) (mflatten (snd res)))
                 (pconstrs (problem mdl)) (pobjective (problem mdl)).
Proof.
  cbv zeta. unfold addVars2. cbn [fst snd].
  split; [apply mat_shape_map_entries, index2_shape|].
  rewrite mflatten_map.
  split; [apply NoDup_map_inj; [apply mkVar_inj | apply index2_NoDup]|].
  split; [|reflexivity].
  rewrite Forall_map. apply Forall_forall. reflexivity.
Qed.

Lemma addVars_nd_spec mdl k r c lb ub ty name :
  let res := addVars_nd mdl k r c lb ub ty name in
  nd_shape (snd res) k r c
  /\ (ndim (snd res) = 2%nat <-> k = 1%nat)
  /\ NoDup (flatten (snd res))
  /\ Forall (fun v => vname v = name) (flatten (snd res))
  /\ problem (fst res)
     = mkProblem (pvars (problem mdl) ++ map (decl lb ub ty) (flatten (snd res)))
                 (pconstrs (problem mdl)) (pobjective (problem mdl)).
Proof.
  cbv zeta. unfold addVars_nd. destruct (Nat.eqb_spec k 1) as [E|E].
  - destruct (addVars2_spec mdl r c lb ub ty name) as (Hs & Hn & Hv & Hp).
    destruct (addVars2 mdl r c lb ub ty name) as [mdl1 v].
    cbn [fst snd nd_shape ndim flatten] in *. tauto.
  - pose proof (addVars_nd_compat mdl k r c lb ub ty name) as Hc.
    unfold addVars_nd in Hc.
    destruct (Nat.eqb_spec k 1) as [E'|_]; [contradiction|].
    unfold addVars3 in *. cbn [fst snd nd_shape ndim nd_compat] in *.
    split; [exact Hc|]. split; [split; [discriminate | contradiction]|].
    change (flatten (Arr3 (map (map (map (mkVar name))) (index3 k r c))))
      with (flatten (nd_map (mkVar name) (Arr3 (index3 k r c)))).
    rewrite flatten_nd_map.
    split; [apply NoDup_map_inj; [apply mkVar_inj | apply index3_NoDup]|].
    split; [|reflexivity].
    rewrite Forall_map. apply Forall_forall. reflexivity.
Qed.

Lemma Forall_decl (P : VarDecl -> Prop) lb ub ty (vs : list Var) :
  (forall v, P (decl lb ub ty v)) -> Forall P (map (decl lb ub ty) vs).
Proof. intros HP. rewrite Forall_map. apply Forall_forall. auto. Qed.

Lemma map_dvar_decl lb ub ty (vs : list Var) :
  map dvar (map (decl lb ub ty) vs) = vs.
Proof. rewrite map_map. apply map_id. Qed.

Lemma NoDup_groups (l1 l2 : list Var) (n1 n2 : string) :
  n1 <> n2 ->
  Forall (fun v => vname v = n1) l1 -> Forall (fun v => vname v = n2) l2 ->
  NoDup l1 -> NoDup l2 -> NoDup (l1 ++ l2).
Proof.
  intros Hne H1 H2 Hn1 Hn2. apply NoDup_app; try assumption.
  intros v Hv1 Hv2. rewrite Forall_forall in H1, H2.
  apply Hne. now rewrite <- (H1 v Hv1), <- (H2 v Hv2).
Qed.

(** X4.  [add_1st_stage_variables] returns the groups X of shape (n, s),
    U of shape (m, s) and Z+, Z- of length s - 1.  Their entries are
    pairwise distinct solver variables, which the call appends to the
    declarations of the model in this order, each with lower bound 0, no
    upper bound, and the integer type exactly when [intvars] is set;
    constraints and objective are untouched. *)
Theorem add_1st_stage_variables_groups mdl pars intvars :
  let r := add_1st_stage_variables mdl pars intvars in
  let all :=
    mflatten (var_X (snd r)) ++ mflatten (var_U (snd r))
    ++ var_Zp (snd r) ++ var_Zm (snd r) in
  mat_shape (var_X (snd r)) (par_n pars) (par_s pars)
  /\ mat_shape (var_U (snd r)) (par_m pars) (par_s pars)
  /\ length (var_Zp (snd r)) = (par_s pars - 1)%nat
  /\ length (var_Zm (snd r)) = (par_s pars - 1)%nat
  /\ NoDup all
  /\ problem (fst r)
     = mkProblem
         (pvars (problem mdl)
          ++ map (decl 0 None (if intvars then INTEGER else CONTINUOUS)) all)
         (pconstrs (problem mdl)) (pobjective (problem mdl)).
Proof.
  cbv zeta. unfold add_1st_stage_variables. cbv zeta.
  change (vtype_of intvars) with (if intvars then INTEGER else CONTINUOUS).
  set (ty := if intvars then INTEGER else CONTINUOUS).
  destruct (addVars2_spec mdl (par_n pars) (par_s pars) 0 None ty "X")
    as (S1 & N1 & V1 & P1).
  destruct (addVars2 mdl (par_n pars) (par_s pars) 0 None ty "X")
    as [mdl1 X]. cbn [fst snd] in *.
  destruct (addVars2_spec mdl1 (par_m pars) (par_s pars) 0 None ty "U")
    as (S2 & N2 & V2 & P2).
  destruct (addVars2 mdl1 (par_m pars) (par_s pars) 0 None ty "U")
    as [mdl2 U]. cbn [fst snd] in *.
  destruct (addVars1_spec mdl2 (par_s pars - 1) 0 None ty "Z+")
    as (S3 & N3 & V3 & P3).
  destruct (addVars1 mdl2 (par_s pars - 1) 0 None ty "Z+")
    as [mdl3 Zp]. cbn [fst snd] in *.
  destruct (addVars1_spec mdl3 (par_s pars - 1) 0 None ty "Z-")
    as (S4 & N4 & V4 & P4).
  destruct (addVars1 mdl3 (par_s pars - 1) 0 None ty "Z-")
    as [mdl4 Zm]. cbn [fst snd var_X var_U var_Zp var_Zm] in *.
  repeat (split; [assumption|]).
  rewrite Forall_forall in V1, V2, V3, V4. split.
  - apply NoDup_app; [exact N1| |].
    + apply NoDup_app; [exact N2| |].
      * apply NoDup_app; [exact N3 | exact N4 |].
        intros v Hv Hin. apply V3 in Hv. apply V4 in Hin.
        rewrite Hv in Hin. discriminate.
      * intros v Hv Hin. apply V2 in Hv. rewrite in_app_iff in Hin.
        destruct Hin as [Hin|Hin]; [apply V3 in Hin | apply V4 in Hin];
          rewrite Hv in Hin; discriminate.
    + intros v Hv Hin. apply V1 in Hv. rewrite !in_app_iff in Hin.
      destruct Hin as [Hin|[Hin|Hin]];
        [apply V2 in Hin | apply V3 in Hin | apply V4 in Hin];
        rewrite Hv in Hin; discriminate.
  - rewrite P4, P3, P2, P1. cbn [pvars pconstrs pobjective].
    now rewrite !map_app, <- !app_assoc.
Qed.

(** X5.  [add_2nd_stage_variables] returns the groups Y+ and Y- with the
    shape (n, s) when [scenarios] is 1 and (scenarios, n, s) otherwise
    (rank 2 exactly for one scenario).  Their entries are pairwise
    distinct solver variables, appended to the declarations of the model
    with lower bound 0, no upper bound, and the integer type exactly when
    [intvars] is set; constraints and objective are untouched. *)
Theorem add_2nd_stage_variables_groups mdl pars scenarios intvars :
  let r := add_2nd_stage_variables mdl pars scenarios intvars in
  let all := flatten (var_Yp (snd r)) ++ flatten (var_Ym (snd r)) in
  nd_shape (var_Yp (snd r)) scenarios (par_n pars) (par_s pars)
  /\ nd_shape (var_Ym (snd r)) scenarios (par_n pars) (par_s pars)
  /\ (ndim (var_Yp (snd r)) = 2%nat <-> scenarios = 1%nat)
  /\ (ndim (var_Ym (snd r)) = 2%nat <-> scenarios = 1%nat)
  /\ NoDup all
  /\ problem (fst r)
     = mkProblem
         (pvars (problem mdl)
          ++ map (decl 0 None (if intvars then INTEGER else CONTINUOUS)) all)
         (pconstrs (problem mdl)) (pobjective (problem mdl)).
Proof.
  cbv zeta. unfold add_2nd_stage_variables. cbv zeta.
  change (vtype_of intvars) with (if intvars then INTEGER else CONTINUOUS).
  set (ty := if intvars then INTEGER else CONTINUOUS).
  destruct (addVars_nd_spec mdl scenarios (par_n pars) (par_s pars) 0 None
              ty "Y+") as (S1 & R1 & N1 & V1 & P1).
  destruct (addVars_nd mdl scenarios (par_n pars) (par_s pars) 0 None ty "Y+")
    as [mdl1 Yp]. cbn [fst snd] in *.
  destruct (addVars_nd_spec mdl1 scenarios (par_n pars) (par_s pars) 0 None
              ty "Y-") as (S2 & R2 & N2 & V2 & P2).
  destruct (addVars_nd mdl1 scenarios (par_n pars) (par_s pars) 0 None ty "Y-")
    as [mdl2 Ym]. cbn [fst snd var_Yp var_Ym] in *.
  repeat (split; [assumption|]). split.
  - apply (@NoDup_groups _ _ "Y+"%string "Y-"%string); try assumption.
    discriminate.
  - rewrite P2, P1. cbn [pvars pconstrs pobjective].
    now rewrite !map_app, <- !app_assoc.
Qed.

(** X6.  Called without demands, [add_2nd_stage_constraints] creates and
    returns an array of placeholder variables named "demand", of the
    shape of Y+, pairwise distinct, continuous, with both bounds at 0.
    Called with demands it creates no variable and returns nothing.  In
    both cases the objective is untouched. *)
Theorem add_2nd_stage_constraints_placeholder mdl pars (X : mat LinExpr)
    (vars_2nd : Vars2 Var) :
  (forall d,
     let r := add_2nd_stage_constraints mdl pars X vars_2nd (Some d) in
     snd r = None
     /\ pvars (problem (fst r)) = pvars (problem mdl)
     /\ pobjective (problem (fst r)) = pobjective (problem mdl))
  /\ (let r := add_2nd_stage_constraints mdl pars X vars_2nd None in
      exists dv,
        snd r = Some dv
        /\ nd_shape dv (scenario_count (var_Yp vars_2nd))
                    (par_n pars) (par_s pars)
        /\ (ndim dv = 2%nat <-> scenario_count (var_Yp vars_2nd) = 1%nat)
        /\ NoDup (flatten dv)
        /\ Forall (fun v => vname v = "demand"%string) (flatten dv)
        /\ pvars (problem (fst r))
           = pvars (problem mdl)
             ++ map (decl 0 (Some 0) CONTINUOUS) (flatten dv)
        /\ pobjective (problem (fst r)) = pobjective (problem mdl)).
Proof.
  split.
  - intros d. cbv zeta. unfold add_2nd_stage_constraints. cbv zeta.
    cbn [fst snd]. auto.
  - cbv zeta. unfold add_2nd_stage_constraints. cbv zeta.
    destruct (addVars_nd_spec mdl (scenario_count (var_Yp vars_2nd))
                (par_n pars) (par_s pars) 0 (Some 0) CONTINUOUS "demand")
      as (S1 & R1 & N1 & V1 & P1).
    destruct (addVars_nd mdl (scenario_count (var_Yp vars_2nd))
                (par_n pars) (par_s pars) 0 (Some 0) CONTINUOUS "demand")
      as [mdl1 dv]. cbn [fst snd] in *.
    exists dv. unfold addConstrs. cbn [problem set_problem pvars pobjective].
    rewrite P1. cbn [pvars pobjective]. auto 10.
Qed.

(** ** The objective builders on variables and on numbers *)

Lemma eval_scaled_vars rho (cost : vec R) (var : vec Var) :
  map (eval rho) (map2 lin_scale cost (map of_var var))
  = map2 Rmult cost (map rho var).
Proof.
  revert var. induction cost as [|c cost IH]; intros [|v var];
    try reflexivity.
  cbn [map map2]. now rewrite IH, eval_lin_scale, eval_of_var.
Qed.

Lemma eval_scaled_mat rho (cost : mat R) (var : mat Var) :
  map (eval rho)
      (mflatten (mat_map2 lin_scale cost (map (map of_var) var)))
  = mflatten (mat_map2 Rmult cost (map (map rho) var)).
Proof.
  unfold mflatten, mat_map2. revert var.
  induction cost as [|c cost IH]; intros [|v var]; try reflexivity.
  cbn [map map2 concat]. now rewrite map_app, IH, eval_scaled_vars.
Qed.


Lemma eval_cost_sum2 rho (cost : mat R) (var : mat Var) :
  eval rho (cost_sum2 cost (map (map of_var) var))
  = cost_sum2 cost (map (map rho) var).
Proof.
  unfold cost_sum2. rewrite eval_lsum. change (@lsum R _ ?l) with (Rsum l).
  change (@lscale LinExpr _) with lin_scale. change (@lscale R _) with Rmult.
  now rewrite eval_scaled_mat.
Qed.

Lemma eval_cost_sum_nd rho (cost : mat R) (var : ndarray Var) :
  eval rho (cost_sum_nd cost (nd_map of_var var))
  = cost_sum_nd cost (nd_map rho var).
Proof.
  destruct var as [y|ys].
  - apply eval_cost_sum2.
  - unfold cost_sum_nd. rewrite eval_lsum. change (@lsum R _ ?l) with (Rsum l). f_equal.
    cbn [nd_map nd_map2 flatten].
    change (@lscale LinExpr _) with lin_scale. change (@lscale R _) with Rmult.
    rewrite concat_map, !map_map. f_equal. apply map_ext. intros y.
    apply eval_scaled_mat.
Qed.


Lemma eval_2nd_stage_objective rho pars (vars : Vars2 Var) :
  rmap (eval rho) (get_2nd_stage_objective pars (Vars2_map of_var vars))
  = get_2nd_stage_objective pars (Vars2_map rho vars).
Proof.
  unfold get_2nd_stage_objective, Vars2_map. cbn [var_Yp var_Ym]. cbv zeta.
  rewrite !scenario_count_nd_map.
  destruct (Nat.eqb (scenario_count (var_Yp vars)) 0); [reflexivity|].
  cbn [rmap rbind]. f_equal.
  change (@ldiv LinExpr _ ?e ?a) with (lin_scale (1 / a) e).
  change (@ldiv R _ ?x ?a) with (x / a).
  rewrite eval_lin_scale, eval_lsum. change (@lsum R _ ?l) with (Rsum l).
  cbn [map].
  rewrite !eval_cost_sum_nd. unfold Rdiv. ring.
Qed.


(** ** The deterministic models as a whole *)

Lemma add_1st_stage_variables_shape mdl pars intvars :
  let r := add_1st_stage_variables mdl pars intvars in
  mat_shape (var_X (snd r)) (par_n pars) (par_s pars)
  /\ mat_shape (var_U (snd r)) (par_m pars) (par_s pars)
  /\ length (var_Zp (snd r)) = (par_s pars - 1)%nat
  /\ length (var_Zm (snd r)) = (par_s pars - 1)%nat
  /\ pconstrs (problem (fst r)) = pconstrs (problem mdl).
Proof.
  cbv zeta. unfold add_1st_stage_variables, addVars2, addVars1. cbv zeta.
  cbn [fst snd var_X var_U var_Zp var_Zm].
  split; [apply mat_shape_map_entries, index2_shape|].
  split; [apply mat_shape_map_entries, index2_shape|].
  split; [now rewrite length_map, length_seq|].
  split; [now rewrite length_map, length_seq | reflexivity].
Qed.

Lemma add_2nd_stage_variables_shape mdl pars k intvars :
  let r := add_2nd_stage_variables mdl pars k intvars in
  nd_shape (var_Yp (snd r)) k (par_n pars) (par_s pars)
  /\ nd_shape (var_Ym (snd r)) k (par_n pars) (par_s pars)
  /\ pconstrs (problem (fst r)) = pconstrs (problem mdl).
Proof.
  cbv zeta. unfold add_2nd_stage_variables. cbv zeta.
  destruct (addVars_nd_spec mdl k (par_n pars) (par_s pars) 0 None
              (vtype_of intvars) "Y+") as (S1 & _ & _ & _ & P1).
  destruct (addVars_nd mdl k (par_n pars) (par_s pars) 0 None
              (vtype_of intvars) "Y+") as [mdl1 Yp]. cbn [fst snd] in *.
  destruct (addVars_nd_spec mdl1 k (par_n pars) (par_s pars) 0 None
              (vtype_of intvars) "Y-") as (S2 & _ & _ & _ & P2).
  destruct (addVars_nd mdl1 k (par_n pars) (par_s pars) 0 None
              (vtype_of intvars) "Y-") as [mdl2 Ym].
  cbn [fst snd var_Yp var_Ym] in *.
  split; [exact S1|]. split; [exact S2|]. now rewrite P2, P1.
Qed.

(** The constraints of the first stage, as one list. *)
Lemma first_stage_constraints_hold mdl pars (vars : Vars1 Var)
    (rho : Var -> R) :
  (1 <= par_n pars)%nat ->
  (1 <= par_m pars)%nat ->
  mat_shape (par_A pars) (par_n pars) (par_m pars) ->
  mat_shape (par_B pars) (par_m pars) (par_s pars) ->
  mat_shape (par_UB pars) (par_m pars) (par_s pars) ->
  mat_shape (var_X vars) (par_n pars) (par_s pars) ->
  mat_shape (var_U vars) (par_m pars) (par_s pars) ->
  length (var_Zp vars) = (par_s pars - 1)%nat ->
  length (var_Zm vars) = (par_s pars - 1)%nat ->
  exists con,
    pconstrs (problem (add_1st_stage_constraints mdl pars vars))
    = pconstrs (problem mdl) ++ con
    /\ length con
       = (par_m pars * par_s pars + (par_s pars - 1)
          + par_m pars * par_s pars)%nat
    /\ (Forall (holds rho) con <->
        (forall j t, (j < par_m pars)%nat -> (t < par_s pars)%nat ->
           Rsum_below (par_n pars)
             (fun i => mget 0 (par_A pars) i j
                       * rho (mget no_var (var_X vars) i t))
           <= mget 0 (par_B pars) j t + rho (mget no_var (var_U vars) j t))
        /\ (forall t, (t < par_s pars - 1)%nat ->
              rho (nth t (var_Zp vars) no_var)
              - rho (nth t (var_Zm vars) no_var)
              = Rsum_below (par_n pars)
                  (fun i => mget 0 (par_A pars) i (par_m pars - 1)
                            * (rho (mget no_var (var_X vars) i (S t))
                               - rho (mget no_var (var_X vars) i t))))
        /\ (forall j t, (j < par_m pars)%nat -> (t < par_s pars)%nat ->
              rho (mget no_var (var_U vars) j t)
              <= mget 0 (par_UB pars) j t)).
Proof.
  intros Hn Hm HA HB HUB HX HU HZp HZm.
  pose proof (@con_product_holds rho pars vars) as P1. feed P1.
  pose proof (@con_work_holds rho pars vars) as P2. feed P2.
  pose proof (@con_extracap_holds rho pars vars) as P3. feed P3.
  cbv zeta in P1, P2, P3.
  destruct P1 as [L1 I1], P2 as [L2 I2], P3 as [L3 I3].
  unfold add_1st_stage_constraints. cbv zeta.
  rewrite !addConstrs_added, <- !app_assoc.
  eexists. split; [reflexivity|].
  rewrite !length_app, !mk_constrs_length, !Forall_app, !mk_constrs_holds.
  split; [lia|]. rewrite I1, I2, I3. tauto.
Qed.

(** The constraints of the second stage for demands given as data. *)
Lemma demand_constraints_hold mdl pars (X : mat LinExpr)
    (vars_2nd : Vars2 Var) (d : ndarray R) (K : nat) (rho : Var -> R) :
  mat_shape X (par_n pars) (par_s pars) ->
  nd_shape (var_Yp vars_2nd) K (par_n pars) (par_s pars) ->
  nd_shape (var_Ym vars_2nd) K (par_n pars) (par_s pars) ->
  nd_compat d K (par_n pars) (par_s pars) ->
  exists con,
    pconstrs (problem (fst (add_2nd_stage_constraints mdl pars X vars_2nd
                              (Some d))))
    = pconstrs (problem mdl) ++ con
    /\ length con = (K * par_n pars * par_s pars)%nat
    /\ (Forall (holds rho) con <->
        forall k i t,
          (k < K)%nat -> (i < par_n pars)%nat -> (t < par_s pars)%nat ->
          eval rho (mget (of_num 0) X i t)
          + carried_surplus rho (var_Ym vars_2nd) k i t
          + rho (nd_get no_var (var_Yp vars_2nd) k i t)
          - rho (nd_get no_var (var_Ym vars_2nd) k i t)
          = nd_get 0 d k i t).
Proof.
  intros HX HYp HYm Hcd.
  destruct (@nd_shape_compat _ _ _ _ _ HYp) as (Hcp & Hrp & Hcount).
  destruct (@nd_shape_compat _ _ _ _ _ HYm) as (Hcm & _ & _).
  assert (Hrank : is_rank3 (var_Ym vars_2nd) || is_rank3 (var_Yp vars_2nd)
                  || is_rank3 (nd_map of_num d) = true \/ K = 1%nat).
  { destruct Hrp as [Hr| ->]; [left|now right].
    rewrite Hr. now rewrite orb_true_r. }
  unfold add_2nd_stage_constraints. cbn [fst snd].
  destruct (@con_demand_holds rho K _ _ _ _ _ _ HX Hcp Hcm
              (@nd_compat_map _ _ of_num d K _ _ Hcd) Hrank) as [Hlen Hiff].
  eexists. split; [apply addConstrs_added|].
  split; [exact Hlen|].
  rewrite Hiff. split; intros HF k i t Hk Hi Ht;
    specialize (HF k i t Hk Hi Ht);
    erewrite (nd_get_map of_num d 0) in * by eassumption;
    rewrite eval_of_num in *; exact HF.
Qed.

(** Both stages on variables of the right shapes, for demands given as
    data. *)
Lemma stage_constraints_hold mdl pars (vars1 : Vars1 Var) (vars2 : Vars2 Var)
    (d : ndarray R) (K : nat) (rho : Var -> R) :
  consistent pars ->
  mat_shape (var_X vars1) (par_n pars) (par_s pars) ->
  mat_shape (var_U vars1) (par_m pars) (par_s pars) ->
  length (var_Zp vars1) = (par_s pars - 1)%nat ->
  length (var_Zm vars1) = (par_s pars - 1)%nat ->
  nd_shape (var_Yp vars2) K (par_n pars) (par_s pars) ->
  nd_shape (var_Ym vars2) K (par_n pars) (par_s pars) ->
  nd_compat d K (par_n pars) (par_s pars) ->
  exists con,
    pconstrs
      (problem
         (fst (add_2nd_stage_constraints
                 (add_1st_stage_constraints mdl pars vars1) pars
                 (map (map of_var) (var_X vars1)) vars2 (Some d))))
    = pconstrs (problem mdl) ++ con
    /\ length con
       = (par_m pars * par_s pars + (par_s pars - 1)
          + par_m pars * par_s pars + K * par_n pars * par_s pars)%nat
    /\ (Forall (holds rho) con <->
        capacity_respected pars rho vars1
        /\ workforce_balanced pars rho vars1
        /\ extra_capacity_bounded pars rho vars1
        /\ demand_balanced pars rho (var_X vars1) vars2 K (nd_get 0 d)).
Proof.
  intros (Hn & Hm & HA & HB & HUB) HX HU HZp HZm HYp HYm Hd.
  destruct (@first_stage_constraints_hold mdl pars vars1 rho
              Hn Hm HA HB HUB HX HU HZp HZm) as (con1 & E1 & L1 & I1).
  destruct (@demand_constraints_hold
              (add_1st_stage_constraints mdl pars vars1) pars
              (map (map of_var) (var_X vars1)) vars2 d K rho
              (mat_shape_map_entries of_var HX) HYp HYm Hd)
    as (con2 & E2 & L2 & I2).
  exists (con1 ++ con2). rewrite E2, E1, <- app_assoc.
  split; [reflexivity|]. rewrite length_app, Forall_app, L1, L2.
  split; [lia|]. rewrite I1, I2.
  assert (Hbal : (forall k i t,
                    (k < K)%nat -> (i < par_n pars)%nat ->
                    (t < par_s pars)%nat ->
                    eval rho (mget (of_num 0)
                                (map (map of_var) (var_X vars1)) i t)
                    + carried_surplus rho (var_Ym vars2) k i t
                    + rho (nd_get no_var (var_Yp vars2) k i t)
                    - rho (nd_get no_var (var_Ym vars2) k i t)
                    = nd_get 0 d k i t)
                 <-> demand_balanced pars rho (var_X vars1) vars2 K
                       (nd_get 0 d)).
  { unfold demand_balanced.
    split; intros HF k i t Hk Hi Ht; specialize (HF k i t Hk Hi Ht);
      rewrite mget_map with (da := no_var) (r := par_n pars) (c := par_s pars)
        in * by assumption;
      rewrite eval_of_var in *; exact HF. }
  rewrite Hbal. unfold capacity_respected, workforce_balanced,
    extra_capacity_bounded. tauto.
Qed.

(** X8.  The model that [optimize_EV] hands to the optimiser.  For
    consistent parameters its constraints are those of the two stages
    and no others, m s + (s - 1) + m s + n s in number: an assignment of
    the variables satisfies them exactly when capacity, workforce and
    extra capacity are respected and the demand balance holds against
    the mean demand, which is cast to 64-bit integers first when
    [intvars] is set (a mean demand of 2^63 or more enters as -2^63). *)
Theorem EV_model_constraints mdl pars intvars mdl' vars1 vars2
    (rho : Var -> R) :
  consistent pars ->
  mat_shape (par_demand_mean pars) (par_n pars) (par_s pars) ->
  EV_model mdl pars intvars = Ok (mdl', vars1, vars2) ->
  exists con,
    pconstrs (problem mdl') = pconstrs (problem mdl) ++ con
    /\ length con
       = (par_m pars * par_s pars + (par_s pars - 1)
          + par_m pars * par_s pars + 1 * par_n pars * par_s pars)%nat
    /\ (Forall (holds rho) con <->
        capacity_respected pars rho vars1
        /\ workforce_balanced pars rho vars1
        /\ extra_capacity_bounded pars rho vars1
        /\ demand_balanced pars rho (var_X vars1) vars2 1
             (fun _ i t =>
                convert intvars (mget 0 (par_demand_mean pars) i t))).
Proof.
  intros Hpars Hd E. unfold EV_model in E.
  pose proof (add_1st_stage_variables_shape mdl pars intvars) as S1.
  destruct (add_1st_stage_variables mdl pars intvars) as [mdl1 v1].
  pose proof (add_2nd_stage_variables_shape mdl1 pars 1 intvars) as S2.
  destruct (add_2nd_stage_variables mdl1 pars 1 intvars) as [mdl2 v2].
  cbv zeta in S1, S2. cbn [fst snd] in S1, S2.
  destruct S1 as (HX & HU & HZp & HZm & P1), S2 as (HYp & HYm & P2).
  inv_rbind E. cbv zeta in E.
  set (d := if intvars
            then map (map (fun x => IZR (astype_int x))) (par_demand_mean pars)
            else par_demand_mean pars) in E.
  assert (Hshape : nd_compat (Arr2 d) 1 (par_n pars) (par_s pars)).
  { subst d. destruct intvars; [now apply mat_shape_map_entries | exact Hd]. }
  set (mdl3 := setObjective mdl2 _) in E.
  destruct (@stage_constraints_hold mdl3 pars v1 v2 (Arr2 d) 1 rho
              Hpars HX HU HZp HZm HYp HYm Hshape) as (con & Ec & Lc & Ic).
  destruct (add_2nd_stage_constraints _ _ _ _ _) as [mdl4 o].
  inversion E; subst mdl' vars1 vars2. cbn [fst] in Ec.
  exists con. split; [rewrite Ec; subst mdl3; cbn; now rewrite P2, P1|].
  split; [exact Lc|]. rewrite Ic.
  assert (Hbal : demand_balanced pars rho (var_X v1) v2 1 (nd_get 0 (Arr2 d))
                 <-> demand_balanced pars rho (var_X v1) v2 1
                       (fun _ i t =>
                          convert intvars (mget 0 (par_demand_mean pars) i t))).
  { unfold demand_balanced.
    split; intros HF k i t Hk Hi Ht; specialize (HF k i t Hk Hi Ht);
      cbn [nd_get] in *; subst d; destruct intvars; cbn [convert] in *;
      try exact HF;
      rewrite mget_map with (da := 0) (r := par_n pars) (c := par_s pars)
        in * by assumption;
      exact HF. }
  rewrite Hbal. tauto.
Qed.

(** X9.  The large-scale deterministic equivalent that [optimize_TS]
    hands to the optimiser for a sample of scenarios of shape (n, s).
    Its constraints are the first-stage ones, once, and the demand
    balance of every scenario of the sample: an assignment satisfies them
    exactly when capacity, workforce and extra capacity are respected and
    the balance holds, in every scenario k, against the demand of the
    k-th scenario. *)
Theorem TS_model_constraints mdl pars samples intvars mdl' vars1 vars2
    (rho : Var -> R) :
  consistent pars ->
  Forall (fun d => mat_shape d (par_n pars) (par_s pars)) samples ->
  TS_model mdl pars samples intvars = Ok (mdl', vars1, vars2) ->
  exists con,
    pconstrs (problem mdl') = pconstrs (problem mdl) ++ con
    /\ length con
       = (par_m pars * par_s pars + (par_s pars - 1)
          + par_m pars * par_s pars
          + length samples * par_n pars * par_s pars)%nat
    /\ (Forall (holds rho) con <->
        capacity_respected pars rho vars1
        /\ workforce_balanced pars rho vars1
        /\ extra_capacity_bounded pars rho vars1
        /\ demand_balanced pars rho (var_X vars1) vars2 (length samples)
             (fun k i t => mget 0 (nth k samples []) i t)).
Proof.
  intros Hpars Hd E. unfold TS_model in E. cbv zeta in E.
  pose proof (add_1st_stage_variables_shape mdl pars intvars) as S1.
  destruct (add_1st_stage_variables mdl pars intvars) as [mdl1 v1].
  pose proof (add_2nd_stage_variables_shape mdl1 pars (length samples) intvars)
    as S2.
  destruct (add_2nd_stage_variables mdl1 pars (length samples) intvars)
    as [mdl2 v2].
  cbv zeta in S1, S2. cbn [fst snd] in S1, S2.
  destruct S1 as (HX & HU & HZp & HZm & P1), S2 as (HYp & HYm & P2).
  inv_rbind E. cbv zeta in E.
  assert (Hshape : nd_compat (Arr3 samples) (length samples)
                     (par_n pars) (par_s pars)) by (split; [reflexivity|exact Hd]).
  set (mdl3 := setObjective mdl2 _) in E.
  destruct (@stage_constraints_hold mdl3 pars v1 v2 (Arr3 samples)
              (length samples) rho
              Hpars HX HU HZp HZm HYp HYm Hshape) as (con & Ec & Lc & Ic).
  destruct (add_2nd_stage_constraints _ _ _ _ _) as [mdl4 o].
  inversion E; subst mdl' vars1 vars2. cbn [fst] in Ec.
  exists con. split; [rewrite Ec; subst mdl3; cbn; now rewrite P2, P1|].
  split; [exact Lc|]. rewrite Ic. reflexivity.
Qed.

Ltac consistent_by_computation :=
  repeat split; vm_compute; try lia; repeat constructor.

(** X8, on the two-period instance: seven constraints. *)
Lemma EV_model_constraints_witness :
  exists mdl vars1 vars2 con,
    EV_model (fresh_model "EV" env0) pars2 false = Ok (mdl, vars1, vars2)
    /\ pconstrs (problem mdl) = [] ++ con
    /\ length con = 7%nat.
Proof.
  destruct (EV_model (fresh_model "EV" env0) pars2 false)
    as [[[mdl vars1] vars2]|e] eqn:E; [|vm_compute in E; discriminate E].
  destruct (@EV_model_constraints (fresh_model "EV" env0) pars2 false
              mdl vars1 vars2 (fun _ => 0)) as (con & Ec & Lc & _).
  - consistent_by_computation.
  - shape_by_computation.
  - exact E.
  - exists mdl, vars1, vars2, con. auto.
Defined.

(** X9, on the two-period instance with two scenarios: nine
    constraints. *)
Lemma TS_model_constraints_witness :
  exists mdl vars1 vars2 con,
    TS_model (fresh_model "LSDE" env0) pars2 [[[5; 5]]; [[4; 6]]] false
    = Ok (mdl, vars1, vars2)
    /\ pconstrs (problem mdl) = [] ++ con
    /\ length con = 9%nat.
Proof.
  destruct (TS_model (fresh_model "LSDE" env0) pars2 [[[5; 5]]; [[4; 6]]] false)
    as [[[mdl vars1] vars2]|e] eqn:E; [|vm_compute in E; discriminate E].
  destruct (@TS_model_constraints (fresh_model "LSDE" env0) pars2
              [[[5; 5]]; [[4; 6]]] false mdl vars1 vars2 (fun _ => 0))
    as (con & Ec & Lc & _).
  - consistent_by_computation.
  - repeat (apply Forall_cons; [shape_by_computation|]). apply Forall_nil.
  - exact E.
  - exists mdl, vars1, vars2, con. auto.
Defined.

Lemma add_2nd_stage_constraints_objective mdl pars (X : mat LinExpr)
    (vars_2nd : Vars2 Var) (demands : option (ndarray R)) :
  pobjective (problem (fst (add_2nd_stage_constraints mdl pars X vars_2nd
                              demands)))
  = pobjective (problem mdl).
Proof.
  unfold add_2nd_stage_constraints. cbv zeta.
  destruct demands as [d|]; [reflexivity|].
  unfold addVars_nd. destruct (Nat.eqb _ 1); reflexivity.
Qed.



(** ** The workforce constraint over the whole horizon *)

Lemma Rsum_below_S (p : nat) (f : nat -> R) :
  Rsum_below (S p) f = Rsum_below p f + f p.
Proof.
  unfold Rsum_below. rewrite seq_S, map_app, Rsum_app. simpl. lra.
Qed.

Lemma Rsum_below_plus (p : nat) (f g : nat -> R) :
  Rsum_below p (fun i => f i + g i) = Rsum_below p f + Rsum_below p g.
Proof.
  induction p as [|p IH]; [unfold Rsum_below; simpl; lra|].
  rewrite !Rsum_below_S, IH. lra.
Qed.

Lemma Rsum_below_scal (p : nat) (c : R) (f : nat -> R) :
  Rsum_below p (fun i => c * f i) = c * Rsum_below p f.
Proof.
  induction p as [|p IH]; [unfold Rsum_below; simpl; lra|].
  rewrite !Rsum_below_S, IH. lra.
Qed.

Lemma Rsum_below_swap (p q : nat) (f : nat -> nat -> R) :
  Rsum_below p (fun t => Rsum_below q (fun i => f i t))
  = Rsum_below q (fun i => Rsum_below p (fun t => f i t)).
Proof.
  induction p as [|p IH].
  - change (0 = Rsum_below q (fun _ => 0)).
    induction q as [|q IHq]; [reflexivity|].
    rewrite Rsum_below_S, <- IHq. lra.
  - rewrite Rsum_below_S, IH, <- Rsum_below_plus.
    apply Rsum_below_ext. intros i _. now rewrite Rsum_below_S.
Qed.

Lemma Rsum_below_telescope (p : nat) (x : nat -> R) :
  Rsum_below p (fun t => x (S t) - x t) = x p - x 0%nat.
Proof.
  induction p as [|p IH]; [unfold Rsum_below; simpl; lra|].
  rewrite Rsum_below_S, IH. lra.
Qed.

(** X11.  Summed over the horizon, the workforce constraints telescope:
    under any assignment that satisfies the constraints added by
    [add_1st_stage_constraints], the total of Z+ minus Z- over all the
    changes of period equals the workforce used by the production of the
    last period minus the workforce used by that of the first. *)
Theorem workforce_changes_telescope mdl pars (vars : Vars1 Var)
    (rho : Var -> R) :
  consistent pars ->
  mat_shape (var_X vars) (par_n pars) (par_s pars) ->
  mat_shape (var_U vars) (par_m pars) (par_s pars) ->
  length (var_Zp vars) = (par_s pars - 1)%nat ->
  length (var_Zm vars) = (par_s pars - 1)%nat ->
  Forall (holds rho)
    (pconstrs (problem (add_1st_stage_constraints mdl pars vars))) ->
  Rsum_below (par_s pars - 1)
    (fun t => rho (nth t (var_Zp vars) no_var)
              - rho (nth t (var_Zm vars) no_var))
  = Rsum_below (par_n pars)
      (fun i => mget 0 (par_A pars) i (par_m pars - 1)
                * (rho (mget no_var (var_X vars) i (par_s pars - 1))
                   - rho (mget no_var (var_X vars) i 0))).
Proof.
  intros (Hn & Hm & HA & HB & HUB) HX HU HZp HZm Hall.
  destruct (@first_stage_constraints_hold mdl pars vars rho
              Hn Hm HA HB HUB HX HU HZp HZm) as (con & E & _ & I).
  rewrite E, Forall_app in Hall. destruct Hall as [_ Hcon].
  apply I in Hcon. destruct Hcon as (_ & Hwork & _).
  rewrite (@Rsum_below_ext _ _ _ Hwork).
  rewrite Rsum_below_swap. apply Rsum_below_ext. intros i _.
  rewrite Rsum_below_scal. f_equal.
  apply (Rsum_below_telescope (par_s pars - 1)
           (fun t => rho (mget no_var (var_X vars) i t))).
Qed.

(** X11, on the two-period instance: the workforce rises by 2 as the
    production goes from 3 to 5. *)
Lemma workforce_changes_telescope_witness :
  Forall (holds assignment2)
    (pconstrs (problem (add_1st_stage_constraints (fresh_model "EV" env0)
                          pars2 vars1_2)))
  /\ Rsum_below (par_s pars2 - 1)
       (fun t => assignment2 (nth t (var_Zp vars1_2) no_var)
                 - assignment2 (nth t (var_Zm vars1_2) no_var))
     = Rsum_below (par_n pars2)
         (fun i => mget 0 (par_A pars2) i (par_m pars2 - 1)
                   * (assignment2 (mget no_var (var_X vars1_2) i
                                     (par_s pars2 - 1))
                      - assignment2 (mget no_var (var_X vars1_2) i 0))).
Proof.
  assert (Hall : Forall (holds assignment2)
                   (pconstrs (problem (add_1st_stage_constraints
                                         (fresh_model "EV" env0) pars2
                                         vars1_2)))).
  { vm_compute. repeat (apply Forall_cons; [lra|]). apply Forall_nil. }
  split; [exact Hall|].
  apply (@workforce_changes_telescope (fresh_model "EV" env0) pars2 vars1_2
           assignment2).
  - consistent_by_computation.
  - shape_by_computation.
  - shape_by_computation.
  - reflexivity.
  - reflexivity.
  - exact Hall.
Defined.

(* ================================================================= *)
(** * Further properties of the procedures *)

(** ** The purchase probability of [optimize_TS] *)

Lemma mapR_length {A B} (f : A -> result B) (l : list A) (l' : list B) :
  mapR f l = Ok l' -> length l' = length l.
Proof.
  revert l'. induction l as [|a l IH]; intros l' E; cbn [mapR] in E.
  - inversion E. reflexivity.
  - inv_rbind E. inv_rbind E. inversion E; subst. cbn [length].
    f_equal. now apply IH.
Qed.

Lemma var2val_mat_size mdl (o : mat Var) (m : mat R) :
  var2val_mat mdl o = Ok m -> length (mflatten m) = length (mflatten o).
Proof.
  unfold var2val_mat, mflatten. revert m.
  induction o as [|r o IH]; intros m E; cbn [mapR] in E.
  - inversion E. reflexivity.
  - inv_rbind E. inv_rbind E. inversion E; subst. cbn [concat].
    rewrite !length_app. f_equal; [|now apply IH].
    eapply mapR_length. exact Hres.
Qed.

Lemma var2val_nd_size mdl (o : ndarray Var) (a : ndarray R) :
  var2val_nd mdl o = Ok a -> length (flatten a) = length (flatten o).
Proof.
  destruct o as [o|os]; unfold var2val_nd, rmap; intros E; inv_rbind E;
    inversion E; subst; cbn [flatten].
  - eapply var2val_mat_size; eassumption.
  - clear E. revert a0 Hres.
    induction os as [|o os IH]; intros ms E; cbn [mapR] in E.
    + inversion E. reflexivity.
    + inv_rbind E. inv_rbind E. inversion E; subst. cbn [map concat].
      rewrite !length_app. f_equal; [|now apply IH].
      eapply var2val_mat_size; eassumption.
Qed.

Lemma positive_fraction_range (a : ndarray R) :
  match positive_fraction a with
  | Some p => 0 <= p <= 1
  | None => flatten a = []
  end.
Proof.
  unfold positive_fraction. cbv zeta.
  set (l := flatten a).
  set (k := length (filter (fun x => if Rlt_dec 0 x then true else false) l)).
  assert (Hk : (k <= length l)%nat) by apply filter_length_le.
  unfold np_div. destruct (Req_dec_T (INR (length l)) 0) as [E|E].
  - change (INR (length l) = INR 0) in E. apply INR_eq in E.
    now apply length_zero_iff_nil.
  - assert (Hpos : 0 < INR (length l)).
    { destruct (Rle_lt_or_eq_dec 0 (INR (length l)) (pos_INR _)) as [?|E'];
        [assumption | now symmetry in E']. }
    apply le_INR in Hk. pose proof (pos_INR k) as H0.
    split.
    + apply Rmult_le_pos; [exact H0 | left; now apply Rinv_0_lt_compat].
    + apply (Rmult_le_reg_r (INR (length l))); [exact Hpos|].
      unfold Rdiv. rewrite Rmult_assoc, Rinv_l by exact E. lra.
Qed.

Lemma TS_model_scenarios mdl pars samples intvars mdl' vars1 vars2 :
  TS_model mdl pars samples intvars = Ok (mdl', vars1, vars2) ->
  (1 <= length samples)%nat
  /\ length (flatten (var_Yp vars2))
     = (length samples * par_n pars * par_s pars)%nat.
Proof.
  intros E. unfold TS_model in E. cbv zeta in E.
  destruct (add_1st_stage_variables mdl pars intvars) as [mdl1 v1].
  pose proof (add_2nd_stage_variables_shape mdl1 pars (length samples) intvars)
    as S2.
  destruct (add_2nd_stage_variables mdl1 pars (length samples) intvars)
    as [mdl2 v2].
  cbv zeta in S2. cbn [fst snd] in S2. destruct S2 as (HYp & _ & _).
  destruct (@nd_shape_compat _ _ _ _ _ HYp) as (Hc & Hr & Hcount).
  inv_rbind E. cbv zeta in E.
  destruct (add_2nd_stage_constraints _ _ _ _ _) as [mdl4 o].
  inversion E; subst mdl' vars1 vars2. split.
  - unfold get_2nd_stage_objective in Hres. cbv zeta in Hres.
    unfold Vars2_map in Hres. cbn [var_Yp] in Hres.
    rewrite scenario_count_nd_map, Hcount in Hres.
    destruct (Nat.eqb_spec (length samples) 0) as [E0|E0]; [discriminate|lia].
  - now apply length_flatten.
Qed.

Section Purchase_probability.

Context `{SolverAdapter}.

(** X12.  The purchase probability that [optimize_TS] returns is the
    share of the entries of Y+ that are positive in the solution: a
    number between 0 and 1.  It is nan only when Y+ has no entry at all,
    that is when there is no product or no period. *)
Theorem optimize_TS_purchase_probability pars samples intvars env env'
    objval sol1 prob :
  optimize_TS pars samples intvars env = (env', Ok (objval, sol1, prob)) ->
  match prob with
  | Some p => 0 <= p <= 1
  | None => par_n pars = 0%nat \/ par_s pars = 0%nat
  end.
Proof.
  intros E. unfold optimize_TS in E.
  apply bind_Ok_inv in E. destruct E as (e1 & mdl0 & _ & E).
  apply bind_Ok_inv in E. destruct E as (e2 & [[mdl vars1] vars2] & Em & E).
  apply bind_Ok_inv in E. destruct E as (e3 & mdl1 & _ & E).
  apply bind_Ok_inv in E. destruct E as (e4 & obj & _ & E).
  apply bind_Ok_inv in E. destruct E as (e5 & s1 & _ & E).
  apply bind_Ok_inv in E. destruct E as (e6 & s2 & Ev & E).
  cbv zeta in E.
  apply bind_Ok_inv in E. destruct E as (e7 & u & _ & E).
  apply ret_inv in E. destruct E as [_ E].
  inversion E; subst objval sol1 prob. clear E.
  apply lift_inv in Em, Ev. destruct Em as [_ Em], Ev as [_ Ev].
  symmetry in Em, Ev.
  apply TS_model_scenarios in Em. destruct Em as [HS Hsize].
  pose proof (positive_fraction_range (var_Yp s2)) as Hr.
  destruct (positive_fraction (var_Yp s2)) as [p|]; [exact Hr|].
  unfold Vars2_values in Ev.
  apply rbind_Ok_inv in Ev. destruct Ev as (yp & Hyp & Ev).
  apply rbind_Ok_inv in Ev. destruct Ev as (ym & _ & Ev).
  inversion Ev; subst s2. clear Ev.
  unfold Vars2_map in Hr. cbn [var_Yp] in Hr.
  apply var2val_nd_size in Hyp.
  assert (Hz : length (flatten (nd_map (convert intvars) yp)) = 0%nat)
    by now rewrite Hr.
  rewrite flatten_nd_map, length_map, Hyp, Hsize in Hz.
  apply Nat.eq_mul_0 in Hz. destruct Hz as [Hz|Hz]; [|now right].
  apply Nat.eq_mul_0 in Hz. destruct Hz as [Hz|Hz]; [lia | now left].
Qed.

End Purchase_probability.

(** X12, on the small instance with the single scenario of demand 5:
    the optimum produces the demand, so no entry of Y+ is positive. *)
Lemma optimize_TS_purchase_probability_witness :
  exists mdl vars1 vars2 sv env' objval sol1 p,
    TS_model (fresh_model "LSDE" env0) pars0 [[[5]]] false
    = Ok (mdl, vars1, vars2)
    /\ @grb_optimize solver_mean (problem mdl)
       = Ok (mkOutcome OPTIMAL (Some sv))
    /\ optimum (problem mdl) sv
    /\ @optimize_TS solver_mean pars0 [[[5]]] false env0
       = (env', Ok (objval, sol1, Some p))
    /\ 0 <= p <= 1.
Proof.
  destruct (TS_model (fresh_model "LSDE" env0) pars0 [[[5]]] false)
    as [[[mdl vars1] vars2]|e'] eqn:Em; [|vm_compute in Em; discriminate Em].
  assert (Eo : @grb_optimize solver_mean (problem mdl)
               = Ok (mkOutcome OPTIMAL
                       (Some (mkSol (1 * 5 + (3 * 0 + 1 * 0))
                                (fun v =>
                                   if String.eqb (vname v) "X" then 5
                                   else if String.eqb (vname v) "Y+" then 0
                                   else if String.eqb (vname v) "Y-" then 0
                                   else 0))))).
  { apply solve_mean_produces; [|lra].
    vm_compute in Em. inversion Em; subst. vm_compute. lra. }
  pose proof (@optimize_TS_solution solver_mean pars0 [[[5]]] false env0
                mdl vars1 vars2 _ _ Em Eo eq_refl) as Hs.
  destruct (@optimize_TS solver_mean pars0 [[[5]]] false env0)
    as [env' [[[objval sol1] [p|]]|e]] eqn:E.
  - eexists mdl, vars1, vars2, _, env', objval, sol1, p.
    split; [reflexivity|]. split; [exact Eo|]. split.
    + vm_compute in Em. inversion Em; subst. optimum_by_computation.
    + split; [reflexivity|].
      apply (@optimize_TS_purchase_probability solver_mean pars0 [[[5]]]
               false env0 env' objval sol1 (Some p) E).
  - exfalso.
    destruct (@optimize_TS_purchase_probability solver_mean pars0 [[[5]]]
                false env0 env' objval sol1 None E) as [Hz|Hz];
      discriminate Hz.
  - exfalso. cbn [snd] in Hs. discriminate Hs.
Defined.

(** ** Samples without scenarios *)

Section Empty_samples.

Context `{SolverAdapter} `{Sampler} `{Statistics}.

Lemma no_scenario_no_objective mdl pars intvars :
  get_2nd_stage_objective pars
    (Vars2_map of_var (snd (add_2nd_stage_variables mdl pars 0 intvars)))
  = Raised ZeroDivisionError.
Proof. reflexivity. Qed.

(** X13.  With a sample that holds no scenario, [optimize_TS] does not
    return: the second-stage objective divides by the number of
    scenarios, so the call fails with a division by zero before anything
    is solved, and the model created stays live.  [run_MRP] fails in the
    same way for a sample size of 0, before any sample is drawn.  The
    scenario loops of [optimize_EEV] and [optimize_WS] just do not run:
    the list returned is empty. *)
Theorem procedures_on_empty_samples pars EV_vars1 solution alpha replicas
    intvars seed env :
  optimize_TS pars [] intvars env
  = (env_with_model env, Raised ZeroDivisionError)
  /\ run_MRP pars solution 0 alpha replicas intvars seed env
     = (env_with_model env, Raised ZeroDivisionError)
  /\ snd (optimize_EEV pars EV_vars1 [] intvars env) = Ok []
  /\ snd (optimize_WS pars [] intvars env) = Ok [].
Proof.
  split; [|split; [|split]].
  - unfold optimize_TS. rewrite bind_new_Model.
    assert (E : TS_model (fresh_model "LSDE" env) pars [] intvars
                = Raised ZeroDivisionError).
    { unfold TS_model. cbv zeta.
      destruct (add_1st_stage_variables _ pars intvars) as [mdl1 v1].
      cbn [length].
      pose proof (no_scenario_no_objective mdl1 pars intvars) as E.
      destruct (add_2nd_stage_variables mdl1 pars 0 intvars) as [mdl2 v2].
      cbn [snd] in E. now rewrite E. }
    now rewrite (bind_lift_Raised _ _ E).
  - unfold run_MRP, MRP_gaps. cbv zeta.
    assert (E : MRP_model (fresh_model "LSDE" env) pars 0 intvars
                = Raised ZeroDivisionError).
    { unfold MRP_model. cbv zeta.
      destruct (add_1st_stage_variables _ pars intvars) as [mdl1 v1].
      pose proof (no_scenario_no_objective mdl1 pars intvars) as E.
      destruct (add_2nd_stage_variables mdl1 pars 0 intvars) as [mdl2 v2].
      cbn [snd] in E. now rewrite E. }
    unfold bind at 1. rewrite bind_new_Model.
    now rewrite (bind_lift_Raised _ _ E).
  - unfold optimize_EEV. rewrite bind_new_Model.
    destruct (EEV_model_Ok (fresh_model "EEV" env) pars EV_vars1 intvars)
      as [[mdl demands] E].
    erewrite bind_lift_Ok by exact E. reflexivity.
  - unfold optimize_WS. rewrite bind_new_Model.
    destruct (WS_model_Ok (fresh_model "LSDE" env) pars intvars)
      as [[mdl demands] E].
    erewrite bind_lift_Ok by exact E. reflexivity.
Qed.

End Empty_samples.

(** ** When the scenario loops return *)

Section Scenario_loop_returns.

Context `{SolverAdapter}.

Lemma solve_scenarios_usable (demands : ndarray Var) (samples : list (mat R)) :
  forall (mdl : Model) (results : list R) r,
    solve_scenarios mdl demands samples results = Ok r ->
    Forall usable
      (map grb_optimize (scenario_problems (problem mdl) demands samples)).
Proof.
  induction samples as [|d rest IH]; intros mdl results r E.
  - constructor.
  - cbn [scenario_problems map]. cbn [solve_scenarios] in E.
    unfold optimize in E.
    change (problem (fix_var mdl demands (Arr2 d)))
      with (fix_bounds (problem mdl) (flatten demands) (flatten (Arr2 d)))
      in E.
    set (p' := fix_bounds (problem mdl) (flatten demands) (flatten (Arr2 d)))
      in *.
    destruct (grb_optimize p') as [o|e] eqn:Eo; [|discriminate E].
    cbn [rbind] in E. unfold Status_of in E. cbn [outcome] in E.
    set (mdl1 := mkModel _ _ _ o) in E.
    assert (Hp : problem mdl1 = p') by reflexivity.
    destruct (Status_eqb (status o) INFEASIBLE) eqn:Es; cbn [negb] in E.
    + constructor.
      * left. now apply Status_eqb_eq.
      * rewrite <- Hp. eapply IH. exact E.
    + unfold ObjVal in E. cbn [outcome mdl1] in E.
      destruct (solution o) as [sv|] eqn:Esol; [|discriminate E].
      cbn [rbind] in E. constructor.
      * right. cbn [usable]. rewrite Esol. discriminate.
      * rewrite <- Hp. eapply IH. exact E.
Qed.

(** X14.  [optimize_EEV] and [optimize_WS] return a list exactly when
    every solve of their loop is usable, that is when it does not raise
    and, unless its status is INFEASIBLE, leaves an objective value.  A
    solve that is not usable makes the whole call fail: no partial list
    is ever returned.  In particular a list returned has at most one
    entry per scenario. *)
Theorem scenario_loops_return_iff_usable pars EV_vars1 samples intvars env :
  let eev := map grb_optimize (EEV_problems pars EV_vars1 intvars samples env) in
  let ws := map grb_optimize (WS_problems pars intvars samples env) in
  ((exists results,
      snd (optimize_EEV pars EV_vars1 samples intvars env) = Ok results)
   <-> Forall usable eev)
  /\ ((exists results,
         snd (optimize_WS pars samples intvars env) = Ok results)
      <-> Forall usable ws)
  /\ (forall results,
        snd (optimize_EEV pars EV_vars1 samples intvars env) = Ok results ->
        (length results <= length samples)%nat)
  /\ (forall results,
        snd (optimize_WS pars samples intvars env) = Ok results ->
        (length results <= length samples)%nat).
Proof.
  intros eev ws.
  assert (Heev : (exists results,
                    snd (optimize_EEV pars EV_vars1 samples intvars env)
                    = Ok results) -> Forall usable eev).
  { intros [results E]. subst eev. unfold EEV_problems.
    unfold optimize_EEV in E. rewrite bind_new_Model in E.
    destruct (EEV_model_Ok (fresh_model "EEV" env) pars EV_vars1 intvars)
      as [[mdl demands] Em].
    rewrite Em. erewrite bind_lift_Ok in E by exact Em. cbv beta iota in E.
    destruct (solve_scenarios mdl demands samples []) as [r|e] eqn:Es.
    - eapply solve_scenarios_usable. exact Es.
    - rewrite bind_lift_Raised_c in E. discriminate E. }
  assert (Hws : (exists results,
                   snd (optimize_WS pars samples intvars env) = Ok results)
                -> Forall usable ws).
  { intros [results E]. subst ws. unfold WS_problems.
    unfold optimize_WS in E. rewrite bind_new_Model in E.
    destruct (WS_model_Ok (fresh_model "LSDE" env) pars intvars)
      as [[mdl demands] Em].
    rewrite Em. erewrite bind_lift_Ok in E by exact Em. cbv beta iota in E.
    destruct (solve_scenarios mdl demands samples []) as [r|e] eqn:Es.
    - eapply solve_scenarios_usable. exact Es.
    - rewrite bind_lift_Raised_c in E. discriminate E. }
  split; [|split; [|split]].
  - split; [exact Heev|]. intros Hus. eexists.
    apply optimize_EEV_collects. exact Hus.
  - split; [exact Hws|]. intros Hus. eexists.
    apply optimize_WS_collects. exact Hus.
  - intros results E.
    assert (Hus : Forall usable eev) by (apply Heev; eauto).
    pose proof (collected_length Hus) as Hc.
    rewrite (optimize_EEV_collects _ _ _ _ _ Hus) in E.
    inversion E; subst results. subst eev.
    rewrite length_map, EEV_problems_length in Hc. lia.
  - intros results E.
    assert (Hus : Forall usable ws) by (apply Hws; eauto).
    pose proof (collected_length Hus) as Hc.
    rewrite (optimize_WS_collects _ _ _ _ Hus) in E.
    inversion E; subst results. subst ws.
    rewrite length_map, WS_problems_length in Hc. lia.
Qed.

End Scenario_loop_returns.

(** X14, on the small instance: the capacity solver is usable on both
    scenarios, and one objective comes back for the two of them. *)
Lemma scenario_loops_return_iff_usable_witness :
  (exists results,
     snd (@optimize_EEV solver_capacity pars0 (plan 5) samples0 false env0)
     = Ok results)
  /\ ~ (exists results,
          snd (@optimize_EEV (constant_solver (Ok (mkOutcome INF_OR_UNBD None)))
                 pars0 (plan 5) samples0 false env0)
          = Ok results).
Proof.
  split.
  - apply (proj1 (@scenario_loops_return_iff_usable solver_capacity pars0
                    (plan 5) samples0 false env0)).
    vm_compute. decide_R.
    apply Forall_cons; [right; discriminate|].
    apply Forall_cons; [left; reflexivity | apply Forall_nil].
  - intros Hret.
    apply (proj1 (@scenario_loops_return_iff_usable
                    (constant_solver (Ok (mkOutcome INF_OR_UNBD None)))
                    pars0 (plan 5) samples0 false env0)) in Hret.
    vm_compute in Hret. inversion Hret as [|r rs Hr _]; subst.
    simpl in Hr. destruct Hr as [Hr|Hr].
    + discriminate Hr.
    + now apply Hr.
Defined.

(** ** Solves that leave no solution *)

Section No_solution.

Context `{SolverAdapter}.

(** X15.  [optimize_EV] and [optimize_TS] never look at the status of
    the solve.  When the optimiser reports an outcome without a solution
    (an infeasible or unbounded model, for one), reading the objective
    value fails with an attribute error, and the model is not
    released. *)
Theorem no_solution_is_an_error pars samples intvars env :
  (forall mdl vars1 vars2 o,
     EV_model (fresh_model "EV" env) pars intvars = Ok (mdl, vars1, vars2) ->
     grb_optimize (problem mdl) = Ok o ->
     solution o = None ->
     optimize_EV pars intvars env
     = (env_with_model env, Raised AttributeError))
  /\ (forall mdl vars1 vars2 o,
        TS_model (fresh_model "LSDE" env) pars samples intvars
        = Ok (mdl, vars1, vars2) ->
        grb_optimize (problem mdl) = Ok o ->
        solution o = None ->
        optimize_TS pars samples intvars env
        = (env_with_model env, Raised AttributeError)).
Proof.
  split; intros mdl vars1 vars2 o Em Eo Es.
  - unfold optimize_EV. rewrite bind_new_Model.
    erewrite bind_lift_Ok by exact Em. cbv beta iota.
    erewrite bind_lift_Ok by (apply optimize_solved; exact Eo).
    erewrite bind_lift_Raised; [reflexivity|].
    unfold ObjVal. cbn [outcome]. now rewrite Es.
  - unfold optimize_TS. rewrite bind_new_Model.
    erewrite bind_lift_Ok by exact Em. cbv beta iota.
    erewrite bind_lift_Ok by (apply optimize_solved; exact Eo).
    erewrite bind_lift_Raised; [reflexivity|].
    unfold ObjVal. cbn [outcome]. now rewrite Es.
Qed.

End No_solution.

(** X15, on the small instance with a solver that finds every model
    infeasible. *)
Lemma no_solution_is_an_error_witness :
  @optimize_EV (constant_solver (Ok (mkOutcome INFEASIBLE None))) pars0 false
     env0
  = (env_with_model env0, Raised AttributeError).
Proof.
  destruct (EV_model (fresh_model "EV" env0) pars0 false)
    as [[[mdl vars1] vars2]|e] eqn:E; [|vm_compute in E; discriminate E].
  apply (proj1 (@no_solution_is_an_error
                  (constant_solver (Ok (mkOutcome INFEASIBLE None)))
                  pars0 [] false env0)
           mdl vars1 vars2 (mkOutcome INFEASIBLE None) E);
    reflexivity.
Defined.

(** ** The integer cast on integers *)

(** X16.  The conversion applied to the values of a returned solution
    (and, in [optimize_EV], to the mean demand when [intvars] is set)
    leaves every integer of the 64-bit range as it is, whatever the
    flag; and it changes nothing when applied twice.  So a solution that
    the optimiser reports at exactly integral values between -2^63 and
    2^63 - 1 is returned unchanged. *)
Theorem convert_keeps_integers (intvars : bool) (z : Z) (x : R) :
  (int64_min <= z <= int64_max)%Z ->
  convert intvars (IZR z) = IZR z
  /\ convert intvars (convert intvars x) = convert intvars x.
Proof.
  intros Hz. destruct intvars; cbn [convert]; [|auto].
  split; [now rewrite astype_int_IZR|].
  rewrite astype_int_IZR; [reflexivity | apply astype_int_bounds].
Qed.

(** X16, on the integer 5 and on the number 5/2. *)
Lemma convert_keeps_integers_witness :
  convert true 5 = 5
  /\ convert true (convert true (5 / 2)) = convert true (5 / 2).
Proof.
  apply (@convert_keeps_integers true 5 (5 / 2)).
  unfold int64_min, int64_max. lia.
Defined.

(** ** The bound returned by [run_MRP] *)

Lemma gap_upper_bound_above_mean (t : R) (replicas : Z) (G : list R) :
  (2 <= replicas)%Z -> 0 <= t ->
  G_mean replicas G <= gap_upper_bound t replicas G.
Proof.
  intros Hrep Ht. unfold gap_upper_bound.
  assert (Hr : 2 <= IZR replicas) by (apply IZR_le in Hrep; exact Hrep).
  assert (Hs : 0 < sqrt (IZR replicas)) by (apply sqrt_lt_R0; lra).
  pose proof (sqrt_pos (Rsum (map (fun g => (g - G_mean replicas G) ^ 2) G)
                        / (IZR replicas - 1))) as Hd.
  fold (G_sample_std replicas G) in Hd.
  assert (0 <= t * G_sample_std replicas G / sqrt (IZR replicas)); [|lra].
  apply Rmult_le_pos; [now apply Rmult_le_pos|].
  left. now apply Rinv_0_lt_compat.
Qed.

Section Bound_returned.

Context `{SolverAdapter} `{Sampler} `{Statistics}.

(** X17.  For two replicas or more and a quantile that is not negative
    (a confidence level of one half or more), [run_MRP] returns a
    number, and this bound is at least the mean of the per-replica gap
    values: the term added to the mean is not negative. *)
Theorem run_MRP_bound_above_mean pars solution sample_size alpha replicas
    intvars seed env env' (G : list R) (t : R) :
  (2 <= replicas)%Z ->
  t_ppf alpha (replicas - 1) = Some t ->
  0 <= t ->
  MRP_gaps pars solution sample_size replicas intvars seed env
  = (env', Ok G) ->
  exists b,
    run_MRP pars solution sample_size alpha replicas intvars seed env
    = (env', Ok (Some b))
    /\ G_mean replicas G <= b.
Proof.
  intros Hrep Ht Hpos E.
  exists (gap_upper_bound t replicas G). split.
  - unfold run_MRP. erewrite bind_run_Ok by exact E. unfold lift.
    f_equal. apply confidence_bound_two_or_more; try assumption.
    eapply MRP_gaps_length. exact E.
  - now apply gap_upper_bound_above_mean.
Qed.

End Bound_returned.

(** X17, on the small instance: with the seed 5 both replicas yield
    -5, and the bound returned is at least their mean. *)
Lemma run_MRP_bound_above_mean_witness :
  exists env' b,
    @run_MRP solver0 sampler0 statistics0 pars0 (plan 0) 1 (95 / 100) 2
      false (Some 5%Z) env0
    = (env', Ok (Some b))
    /\ G_mean 2 [-5; -5] <= b.
Proof.
  destruct (@MRP_gaps solver0 sampler0 pars0 (plan 0) 1 2 false (Some 5%Z) env0)
    as [env' r] eqn:E.
  assert (Hr : r = Ok [-5; -5]).
  { replace r
      with (snd (@MRP_gaps solver0 sampler0 pars0 (plan 0) 1 2 false
                   (Some 5%Z) env0))
      by (rewrite E; reflexivity).
    vm_compute. decide_R. f_equal. f_equal; [lra|]. f_equal. lra. }
  subst r.
  destruct (@run_MRP_bound_above_mean solver0 sampler0 statistics0 pars0
              (plan 0) 1 (95 / 100) 2 false (Some 5%Z) env0 env' [-5; -5] 2)
    as (b & Eb & Hb); [lia | reflexivity | lra | exact E |].
  exists env', b. split; [exact Eb | exact Hb].
Defined.

(** ** Replicas without a seed *)

Section Unseeded_replicas.

Context `{SolverAdapter} `{Sampler}.

(** X18.  Without a seed every replica of [run_MRP] asks the sampler for
    a new sample of the requested size, one call per replica and no
    other: after a run that completes, the samples handed out are the
    [replicas] successive draws of the random source, in order. *)
Theorem unseeded_replicas_draw_successive_samples pars solution sample_size
    replicas intvars env env' G :
  MRP_gaps pars solution sample_size replicas intvars None env
  = (env', Ok G) ->
  drawn env'
  = drawn env
    ++ successive_draws sample_size pars intvars (entropy env)
         (Z.to_nat replicas).
Proof.
  unfold MRP_gaps. intros E.
  apply bind_Ok_inv in E. destruct E as (e1 & mdl0 & E1 & E).
  apply bind_Ok_inv in E. destruct E as (e2 & [[mdl vars1] demands] & E2 & E).
  apply bind_Ok_inv in E. destruct E as (e3 & sub0 & E3 & E).
  apply bind_Ok_inv in E.
  destruct E as (e4 & [[sub sub_X] sub_demand] & E4 & E).
  apply bind_Ok_inv in E. destruct E as (e5 & [[mdl1 sub1] G1] & E5 & E).
  apply bind_Ok_inv in E. destruct E as (e6 & u1 & E6 & E).
  apply bind_Ok_inv in E. destruct E as (e7 & u2 & E7 & E).
  apply ret_inv in E. destruct E as [-> _].
  apply MRP_loop_drawn_unseeded in E5. rewrite length_seq in E5.
  apply lift_inv in E2, E4. destruct E2 as [-> _], E4 as [-> _].
  inversion E1; subst. inversion E3; subst.
  inversion E6; subst. inversion E7; subst.
  exact E5.
Qed.

End Unseeded_replicas.

(** X18, on the small instance: the two replicas receive the first two
    draws of the random source. *)
Lemma unseeded_replicas_draw_successive_samples_witness :
  exists env' G,
    @MRP_gaps solver0 sampler0 pars0 (plan 0) 1 2 false None env0
    = (env', Ok G)
    /\ drawn env'
       = [] ++ @successive_draws sampler0 1 pars0 false 0 2.
Proof.
  destruct (@MRP_gaps solver0 sampler0 pars0 (plan 0) 1 2 false None env0)
    as [env' [G|e]] eqn:E.
  - exists env', G. split; [reflexivity|].
    apply (@unseeded_replicas_draw_successive_samples solver0 sampler0 pars0
             (plan 0) 1 2 false env0 env' G E).
  - exfalso. vm_compute in E. discriminate E.
Defined.

(** ** What the inner loop of [run_MRP] accumulates *)

Lemma fixed_decl_VTypeOf vars values d :
  VTypeOf (fixed_decl vars values d) = VTypeOf d.
Proof. unfold fixed_decl. now destruct (assigned (dvar d) vars values). Qed.

Lemma fixed_decl_unassigned vars values d :
  assigned (dvar d) vars values = None -> fixed_decl vars values d = d.
Proof. unfold fixed_decl. now intros ->. Qed.

Lemma fixed_decl_assigned vars values d x :
  assigned (dvar d) vars values = Some x ->
  fixed_decl vars values d = mkDecl (dvar d) x (Some x) (VTypeOf d).
Proof. unfold fixed_decl. now intros ->. Qed.

(** Fixing X to the candidate after fixing the demand to a scenario
    leaves nothing of an earlier pass of the loop in the bounds. *)
Lemma fixed_decl_pass (X D : list Var) (c xk d1 d2 : list R) (e : VarDecl) :
  length xk = length c -> length d1 = length d2 ->
  fixed_decl X c
    (fixed_decl D d2
       (fixed_decl X xk (fixed_decl X c (fixed_decl D d1 e))))
  = fixed_decl X c (fixed_decl D d2 e).
Proof.
  intros Hx Hd.
  destruct (assigned (dvar e) X c) as [x|] eqn:Ec.
  - rewrite !(@fixed_decl_assigned X c _ x)
      by (now rewrite !fixed_decl_dvar).
    now rewrite !fixed_decl_dvar, !fixed_decl_VTypeOf.
  - assert (Ek : assigned (dvar e) X xk = None)
      by exact (@assigned_domain (dvar e) X xk c Hx Ec).
    rewrite (@fixed_decl_unassigned X c (fixed_decl D d2 e))
      by (now rewrite fixed_decl_dvar).
    rewrite (@fixed_decl_unassigned X c (fixed_decl D d1 e))
      by (now rewrite fixed_decl_dvar).
    rewrite (@fixed_decl_unassigned X xk (fixed_decl D d1 e))
      by (now rewrite fixed_decl_dvar).
    rewrite (@fixed_decl_overwrites D d1 d2 e Hd).
    apply fixed_decl_unassigned. now rewrite fixed_decl_dvar.
Qed.

Lemma fix_bounds_pass (p : Problem) (X D : list Var) (c xk d1 d2 : list R) :
  length xk = length c -> length d1 = length d2 ->
  fix_bounds
    (fix_bounds
       (fix_bounds (fix_bounds (fix_bounds p D d1) X c) X xk)
       D d2)
    X c
  = fix_bounds (fix_bounds p D d2) X c.
Proof.
  intros Hx Hd. rewrite !fix_bounds_fixed_decl.
  cbn [pvars pconstrs pobjective]. f_equal. rewrite !map_map.
  apply map_ext. intros e. now apply fixed_decl_pass.
Qed.

Section Inner_loop.

Context `{SolverAdapter}.

Variables (pars : Pars) (candidate x_k : Vars1 R) (S : nat) (sample : Sample).
Variables (sub_X : mat Var) (sub_demand : ndarray Var) (sub0 : Model).
Variable len : nat.

Hypothesis Hsample : Forall (fun d => length (mflatten d) = len) sample.
Hypothesis HX :
  length (mflatten (var_X x_k)) = length (mflatten (var_X candidate)).

(** The recourse value depends on the problem that the submodel holds
    once the two placeholders are fixed, and on nothing else. *)
Lemma recourse_value_problem (sub sub' : Model) (d : mat R) :
  fix_bounds (fix_bounds (problem sub) (flatten sub_demand) (mflatten d))
             (mflatten sub_X) (mflatten (var_X candidate))
  = fix_bounds (fix_bounds (problem sub') (flatten sub_demand) (mflatten d))
               (mflatten sub_X) (mflatten (var_X candidate)) ->
  recourse_value sub sub_X sub_demand candidate d
  = recourse_value sub' sub_X sub_demand candidate d.
Proof.
  intros E. unfold recourse_value, optimize. cbv zeta.
  cbn [fix_var set_problem problem flatten]. rewrite E.
  destruct (grb_optimize _) as [o|e]; reflexivity.
Qed.

Lemma sample_at_size (i : nat) (d : mat R) :
  sample_at sample i = Ok d -> length (mflatten d) = len.
Proof.
  unfold sample_at. destruct (nth_error sample i) as [d'|] eqn:E;
    [|discriminate].
  intros E'. inversion E'; subst d'. apply nth_error_In in E.
  rewrite Forall_forall in Hsample. now apply Hsample.
Qed.

Lemma MRP_scenarios_value (l : list nat) :
  forall sub G_k sub' G_k',
    (forall d, length (mflatten d) = len ->
       fix_bounds (fix_bounds (problem sub) (flatten sub_demand) (mflatten d))
                  (mflatten sub_X) (mflatten (var_X candidate))
       = fix_bounds
           (fix_bounds (problem sub0) (flatten sub_demand) (mflatten d))
           (mflatten sub_X) (mflatten (var_X candidate))) ->
    foldR (MRP_scenario pars candidate x_k S sample sub_X sub_demand)
          l (sub, G_k) = Ok (sub', G_k') ->
    exists objs,
      mapR (fun i =>
              d <- sample_at sample i ;;
              recourse_value sub0 sub_X sub_demand candidate d)%res
           l = Ok objs
      /\ G_k'
         = fold_left
             (fun G o =>
                G + ((get_1st_stage_objective pars candidate + o)
                     - (get_1st_stage_objective pars x_k + o)) / INR S)
             objs G_k.
Proof.
  induction l as [|i l IH]; intros sub G_k sub' G_k' Inv E.
  - inversion E; subst. exists []. split; reflexivity.
  - cbn [foldR] in E. inv_rbind E. destruct a as [sub1 G1].
    apply MRP_scenario_gap_ignores_recourse in Hres.
    destruct Hres as (d & o & Ed & Eo & EG & Ep).
    pose proof (sample_at_size _ Ed) as Hd.
    rewrite (recourse_value_problem sub sub0 d (Inv d Hd)) in Eo.
    apply IH in E.
    + destruct E as (objs & Eobjs & EG').
      exists (o :: objs). split.
      * cbn [mapR]. rewrite Ed. cbn [rbind]. rewrite Eo. cbn [rbind].
        rewrite Eobjs. reflexivity.
      * cbn [fold_left]. rewrite <- EG. exact EG'.
    + intros d' Hd'. rewrite Ep.
      rewrite fix_bounds_pass by (assumption || congruence).
      now apply Inv.
Qed.

(** X19.  The inner loop of [run_MRP] over the scenarios of a replica.
    For scenarios of one size, and a solution [x_k] of the size of the
    candidate, the loop solves the submodel once per scenario, with X
    fixed to the candidate, and the problem solved for a scenario is the
    submodel as built with the two placeholders fixed: nothing of the
    earlier passes is left in it.  The value accumulated is, scenario
    after scenario, the total cost of the candidate minus the total cost
    of [x_k] divided by S, where both totals are formed with the same
    recourse value, that of the candidate: the recourse value of [x_k]
    is never computed. *)
Theorem inner_loop_uses_one_recourse_value (sub' : Model) (G_k : R) :
  foldR (MRP_scenario pars candidate x_k S sample sub_X sub_demand)
        (seq 0 S) (sub0, 0) = Ok (sub', G_k) ->
  exists objs,
    mapR (fun i =>
            d <- sample_at sample i ;;
            recourse_value sub0 sub_X sub_demand candidate d)%res
         (seq 0 S) = Ok objs
    /\ length objs = S
    /\ G_k = accumulated_gap pars candidate x_k S objs.
Proof.
  intros E. apply MRP_scenarios_value in E; [|reflexivity].
  destruct E as (objs & Eobjs & EG). exists objs.
  split; [exact Eobjs|]. split; [|exact EG].
  apply mapR_length in Eobjs. now rewrite Eobjs, length_seq.
Qed.

End Inner_loop.

(** X19, on the small instance: the candidate produces nothing, the
    solution of the replica produces 5 and the demand is 5.  The
    recourse value of the candidate is 15, and the loop accumulates
    ((0 + 15) - (5 + 15)) / 1. *)
Lemma inner_loop_uses_one_recourse_value_witness :
  exists sub sub_X sub_demand sub' G_k objs,
    MRP_submodel (fresh_model "sub" (env_with_model env0)) pars0 false
    = Ok (sub, sub_X, sub_demand)
    /\ foldR (@MRP_scenario solver0 pars0 (plan 0) (plan 5) 1 [[[5]]]
                sub_X sub_demand)
             (seq 0 1) (sub, 0) = Ok (sub', G_k)
    /\ mapR (fun i =>
               d <- sample_at [[[5]]] i ;;
               @recourse_value solver0 sub sub_X sub_demand (plan 0) d)%res
            (seq 0 1) = Ok objs
    /\ G_k = accumulated_gap pars0 (plan 0) (plan 5) 1 objs
    /\ objs = [15].
Proof.
  destruct (MRP_submodel (fresh_model "sub" (env_with_model env0)) pars0 false)
    as [[[sub sub_X] sub_demand]|e] eqn:E2;
    [|vm_compute in E2; discriminate E2].
  destruct (foldR (@MRP_scenario solver0 pars0 (plan 0) (plan 5) 1 [[[5]]]
                     sub_X sub_demand) (seq 0 1) (sub, 0))
    as [[sub' G_k]|e] eqn:E.
  - assert (Hs : Forall (fun d : mat R => length (mflatten d) = 1%nat)
                   [[[5]]])
      by (apply Forall_cons; [reflexivity | apply Forall_nil]).
    destruct (@inner_loop_uses_one_recourse_value solver0 pars0 (plan 0)
                (plan 5) 1 [[[5]]] sub_X sub_demand sub 1
                Hs eq_refl sub' G_k E)
      as (objs & Eobjs & _ & EG).
    exists sub, sub_X, sub_demand, sub', G_k, objs.
    split; [reflexivity|]. split; [exact E|]. split; [exact Eobjs|].
    split; [exact EG|].
    vm_compute in E2. inversion E2; subst. clear - Eobjs.
    vm_compute in Eobjs. revert Eobjs. decide_R. intros Eobjs.
    inversion Eobjs as [Eo]. f_equal. lra.
  - exfalso. vm_compute in E2. inversion E2; subst.
    vm_compute in E. revert E. decide_R. discriminate.
Defined.

(** ** The library state after [optimize_WS] *)

Section Wait_and_see.

Context `{SolverAdapter}.

(** X20.  [optimize_WS] never releases the model it creates.  Whatever
    the sample and whatever the solves do, when the call ends, with a
    list or with an exception, the library state is the initial one with
    that model added to the live models. *)
Theorem optimize_WS_keeps_its_model pars samples intvars env :
  fst (optimize_WS pars samples intvars env) = env_with_model env.
Proof.
  unfold optimize_WS. rewrite bind_new_Model.
  destruct (WS_model_Ok (fresh_model "LSDE" env) pars intvars)
    as [[mdl demands] E].
  erewrite bind_lift_Ok by exact E. cbv beta iota.
  destruct (solve_scenarios mdl demands samples []) as [[mdl' results]|e].
  - rewrite bind_lift_Ok_c. reflexivity.
  - rewrite bind_lift_Raised_c. reflexivity.
Qed.

End Wait_and_see.

(** ** The demand placeholder, entry by entry *)

Lemma nth_mflatten {T} (m : mat T) (r c i t : nat) (d : T) :
  mat_shape m r c -> (i < r)%nat -> (t < c)%nat ->
  nth (i * c + t) (mflatten m) d = mget d m i t.
Proof.
  unfold mflatten, mget. revert r i.
  induction m as [|row m IH]; intros r i [Hl Hrows] Hi Ht;
    simpl in Hl; [lia|].
  inversion Hrows as [|row' m' Hrow Hm]; subst. cbn [concat].
  destruct i as [|i].
  - cbn [nth]. rewrite Nat.mul_0_l, Nat.add_0_l. apply app_nth1. lia.
  - cbn [nth]. replace (S i * length row + t)%nat
      with (length row + (i * length row + t))%nat by lia.
    rewrite app_nth2_plus.
    apply (IH (length m) i); [split; [reflexivity | exact Hm] | lia | exact Ht].
Qed.

Lemma nth_flatten {T} (a : ndarray T) (K n s k i t : nat) (d : T) :
  nd_compat a K n s -> is_rank3 a = true \/ K = 1%nat ->
  (k < K)%nat -> (i < n)%nat -> (t < s)%nat ->
  nth ((k * n + i) * s + t) (flatten a) d = nd_get d a k i t.
Proof.
  destruct a as [m|ts]; cbn [nd_compat is_rank3 flatten nd_get].
  - intros Hm [Hr| ->] Hk Hi Ht; [discriminate|].
    replace k with 0%nat by lia. cbn [Nat.mul Nat.add].
    now apply nth_mflatten with (r := n).
  - intros [Hl Hts] _ Hk Hi Ht. subst K. revert k Hk.
    induction ts as [|m ts IH]; intros k Hk; simpl in Hk; [lia|].
    inversion Hts as [|m' ts' Hm Hts']; subst. cbn [map concat].
    assert (Hlen : length (mflatten m) = (n * s)%nat)
      by now apply length_mflatten.
    assert (Hlt : (i * s + t < n * s)%nat) by nia.
    destruct k as [|k].
    + cbn [nth Nat.mul Nat.add]. rewrite app_nth1 by lia.
      now apply nth_mflatten with (r := n).
    + cbn [nth]. replace ((S k * n + i) * s + t)%nat
        with (length (mflatten m) + ((k * n + i) * s + t))%nat by nia.
      rewrite app_nth2_plus. apply IH; [exact Hts' | lia].
Qed.

Lemma flatten_index_bound (K n s k i t : nat) :
  (k < K)%nat -> (i < n)%nat -> (t < s)%nat ->
  ((k * n + i) * s + t < K * n * s)%nat.
Proof.
  intros Hk Hi Ht.
  assert (H1 : (S k * n <= K * n)%nat) by (apply Nat.mul_le_mono_r; lia).
  assert (H2 : ((k * n + i + 1) * s <= K * n * s)%nat)
    by (apply Nat.mul_le_mono_r; simpl in H1; lia).
  replace ((k * n + i + 1) * s)%nat with ((k * n + i) * s + s)%nat in H2
    by ring.
  lia.
Qed.

(** X21.  [fix_var] pairs variables and values entry by entry.  When it
    is applied to the demand placeholder that [add_2nd_stage_constraints]
    created and to an array of demands of the same shape (a single
    scenario of shape (n, s), or a sample of shape (S, n, s)), the
    placeholder of scenario k, product i and period t is declared in the
    resulting model, and each of its declarations has both bounds at the
    demand of scenario k, product i and period t. *)
Theorem placeholder_is_fixed_entry_by_entry mdl pars (X : mat LinExpr)
    (vars_2nd : Vars2 Var) (D : ndarray R) (k i t : nat) :
  let K := scenario_count (var_Yp vars_2nd) in
  let r := add_2nd_stage_constraints mdl pars X vars_2nd None in
  let v := nd_get no_var (placeholder (snd r)) k i t in
  let p := problem (fix_var (fst r) (placeholder (snd r)) D) in
  nd_compat D K (par_n pars) (par_s pars) ->
  is_rank3 D = true \/ K = 1%nat ->
  (k < K)%nat -> (i < par_n pars)%nat -> (t < par_s pars)%nat ->
  (exists decl, In decl (pvars p) /\ dvar decl = v)
  /\ (forall decl, In decl (pvars p) -> dvar decl = v ->
        LB decl = nd_get 0 D k i t /\ UB decl = Some (nd_get 0 D k i t)).
Proof.
  intros K r v p HD HrD Hk Hi Ht. subst p v r K.
  unfold add_2nd_stage_constraints. cbv zeta.
  set (K := scenario_count (var_Yp vars_2nd)) in *.
  destruct (addVars_nd_spec mdl K (par_n pars) (par_s pars) 0 (Some 0)
              CONTINUOUS "demand") as (S1 & R1 & N1 & _ & P1).
  destruct (addVars_nd mdl K (par_n pars) (par_s pars) 0 (Some 0)
              CONTINUOUS "demand") as [mdl1 dv].
  cbn [fst snd placeholder] in *.
  destruct (@nd_shape_compat _ _ _ _ _ S1) as (Hc & Hr & _).
  pose proof (@flatten_index_bound K (par_n pars) (par_s pars) k i t
                Hk Hi Ht) as Hidx.
  assert (Hlv : length (flatten dv) = (K * par_n pars * par_s pars)%nat)
    by now apply length_flatten.
  assert (HlD : length (flatten D) = (K * par_n pars * par_s pars)%nat)
    by now apply length_flatten.
  assert (Ha : assigned (nd_get no_var dv k i t) (flatten dv) (flatten D)
               = Some (nd_get 0 D k i t)).
  { rewrite <- (@nth_flatten _ dv K (par_n pars) (par_s pars) k i t no_var)
      by assumption.
    rewrite <- (@nth_flatten _ D K (par_n pars) (par_s pars) k i t 0)
      by assumption.
    apply assigned_nth; [exact N1 | lia | lia]. }
  unfold fix_var. cbv zeta. cbn [problem set_problem].
  rewrite fix_bounds_fixed_decl. cbn [pvars].
  unfold addConstrs. cbn [problem set_problem pvars]. rewrite P1.
  cbn [pvars]. split.
  - exists (fixed_decl (flatten dv) (flatten D)
              (decl 0 (Some 0) CONTINUOUS (nd_get no_var dv k i t))).
    split; [|apply fixed_decl_dvar].
    apply in_map, in_or_app. right. apply in_map.
    rewrite <- (@nth_flatten _ dv K (par_n pars) (par_s pars) k i t no_var)
      by assumption.
    apply nth_In. lia.
  - intros d' Hin Hv. apply in_map_iff in Hin.
    destruct Hin as (d0 & <- & _).
    rewrite fixed_decl_dvar in Hv. unfold fixed_decl.
    rewrite Hv, Ha. cbn [LB UB]. auto.
Qed.

(** X21, on the two-period instance: the placeholder of the second
    period is fixed at the demand of the second period. *)
Lemma placeholder_is_fixed_entry_by_entry_witness :
  let r :=
    add_2nd_stage_constraints (fresh_model "EEV" env0) pars2
      (map (map of_num) [[5; 5]]) vars2_2 None in
  exists decl,
    In decl (pvars (problem (fix_var (fst r) (placeholder (snd r))
                               (Arr2 [[5; 7]]))))
    /\ dvar decl = mkVar "demand" [0; 1]%nat
    /\ LB decl = 7 /\ UB decl = Some 7.
Proof.
  intros r.
  destruct (@placeholder_is_fixed_entry_by_entry
              (fresh_model "EEV" env0) pars2 (map (map of_num) [[5; 5]])
              vars2_2 (Arr2 [[5; 7]]) 0 0 1
              ltac:(shape_by_computation)
              (or_intror eq_refl)
              (le_n 1) (le_n 1) (le_n 2))
    as [(decl & Hin & Hv) Hall].
  exists decl. split; [exact Hin|]. split; [exact Hv|].
  exact (Hall decl Hin Hv).
Defined.

(** ** The objectives of the models with a given first stage *)

(** X22.  In the model of [optimize_EEV] the first stage is a number:
    under any assignment, the objective evaluates to the first-stage cost
    of the given EV solution plus the second-stage objective of the
    values of Y+ and Y-.  In the submodel of [run_MRP] the objective is
    the second-stage objective alone. *)
Theorem objectives_with_given_first_stage mdl pars (EV_vars1 : Vars1 R)
    intvars (rho : Var -> R) :
  (forall mdl' demands,
     EEV_model mdl pars EV_vars1 intvars = Ok (mdl', demands) ->
     exists c2,
       get_2nd_stage_objective pars
         (Vars2_map rho (snd (add_2nd_stage_variables mdl pars 1 intvars)))
       = Ok c2
       /\ eval rho (pobjective (problem mdl'))
          = get_1st_stage_objective pars EV_vars1 + c2)
  /\ (forall sub' sub_X sub_demand,
        MRP_submodel mdl pars intvars = Ok (sub', sub_X, sub_demand) ->
        exists c2,
          get_2nd_stage_objective pars
            (Vars2_map rho
               (snd (add_2nd_stage_variables
                       (fst (addVars2 mdl (par_n pars) (par_s pars) 0
                               (Some 0) CONTINUOUS "X"))
                       pars 1 intvars)))
          = Ok c2
          /\ eval rho (pobjective (problem sub')) = c2).
Proof.
  split.
  - intros mdl' demands E. unfold EEV_model in E.
    destruct (add_2nd_stage_variables mdl pars 1 intvars) as [mdl2 v2].
    cbn [snd]. inv_rbind E. cbv zeta in E.
    set (mdl3 := setObjective mdl2 _) in E.
    pose proof (add_2nd_stage_constraints_objective mdl3 pars
                  (map (map of_num) (var_X EV_vars1)) v2 None) as Ho.
    destruct (add_2nd_stage_constraints mdl3 pars
                (map (map of_num) (var_X EV_vars1)) v2 None) as [mdl4 o].
    inversion E; subst mdl' demands. cbn [fst] in Ho. rewrite Ho.
    pose proof (eval_2nd_stage_objective rho pars v2) as H2.
    rewrite Hres in H2. cbn [rmap rbind] in H2.
    exists (eval rho a). split; [now symmetry|].
    subst mdl3. cbn [setObjective set_problem problem pobjective].
    change (@ladd LinExpr _) with lin_add.
    now rewrite eval_lin_add, eval_of_num.
  - intros sub' sub_X sub_demand E. unfold MRP_submodel in E. cbv zeta in E.
    destruct (addVars2 mdl (par_n pars) (par_s pars) 0 (Some 0) CONTINUOUS "X")
      as [sub1 sX]. cbn [fst].
    destruct (add_2nd_stage_variables sub1 pars 1 intvars) as [sub2 v2].
    cbn [snd]. inv_rbind E. cbv zeta in E.
    set (sub3 := setObjective sub2 _) in E.
    pose proof (add_2nd_stage_constraints_objective sub3 pars
                  (map (map of_var) sX) v2 None) as Ho.
    destruct (add_2nd_stage_constraints sub3 pars (map (map of_var) sX) v2
                None) as [sub4 o].
    inversion E; subst sub' sub_X sub_demand. cbn [fst] in Ho. rewrite Ho.
    pose proof (eval_2nd_stage_objective rho pars v2) as H2.
    rewrite Hres in H2. cbn [rmap rbind] in H2.
    exists (eval rho a). split; [now symmetry | reflexivity].
Qed.

(** X22, on the one-period instance with every variable at 1: the
    production of the EV solution costs 5, a shortage of 1 costs 3 and a
    surplus of 1 costs 1. *)
Lemma objectives_with_given_first_stage_witness :
  exists mdl' demands,
    EEV_model (fresh_model "EEV" env0) pars0 (plan 5) false
    = Ok (mdl', demands)
    /\ eval (fun _ => 1) (pobjective (problem mdl')) = 5 + 4.
Proof.
  destruct (EEV_model (fresh_model "EEV" env0) pars0 (plan 5) false)
    as [[mdl' demands]|e] eqn:E; [|vm_compute in E; discriminate E].
  destruct (proj1 (@objectives_with_given_first_stage (fresh_model "EEV" env0)
                     pars0 (plan 5) false (fun _ => 1))
              mdl' demands E) as (c2 & E2 & Eo).
  exists mdl', demands. split; [reflexivity|].
  rewrite Eo. vm_compute in E2. inversion E2; subst c2.
  vm_compute. lra.
Defined.

(** ** A quantile that is not a number *)

Section Quantile_not_finite.

Context `{SolverAdapter} `{Sampler} `{Statistics}.

(** X23.  When the quantile function gives no finite number (a
    confidence level outside its domain, or no degree of freedom),
    [run_MRP] does not fail for that: once its replicas have run, and
    unless [replicas] is 1, it returns a value that is not a finite
    number. *)
Theorem run_MRP_without_quantile pars solution sample_size alpha replicas
    intvars seed env env' (G : list R) :
  replicas <> 1%Z ->
  t_ppf alpha (replicas - 1) = nan ->
  MRP_gaps pars solution sample_size replicas intvars seed env
  = (env', Ok G) ->
  run_MRP pars solution sample_size alpha replicas intvars seed env
  = (env', Ok nan).
Proof.
  intros Hrep Ht E. unfold run_MRP. erewrite bind_run_Ok by exact E.
  unfold lift. f_equal. unfold confidence_bound, py_truediv.
  destruct (Z.eqb_spec (replicas - 1) 0) as [E0|_]; [lia|].
  cbn [rbind]. cbv zeta. rewrite Ht. f_equal.
  unfold np_mul at 1, np_lift2. cbn [np_div].
  unfold np_add, np_lift2. now destruct (np_mean G).
Qed.

End Quantile_not_finite.

(** X23, on the small instance with the level 2, outside the domain of
    the quantile function. *)
Lemma run_MRP_without_quantile_witness :
  exists env',
    @run_MRP solver0 sampler0 statistics_open_interval pars0 (plan 0) 1 2 2
      false (Some 5%Z) env0
    = (env', Ok nan).
Proof.
  destruct (@MRP_gaps solver0 sampler0 pars0 (plan 0) 1 2 false (Some 5%Z) env0)
    as [env' [G|e]] eqn:E; [|exfalso; vm_compute in E; discriminate E].
  exists env'.
  apply (@run_MRP_without_quantile solver0 sampler0 statistics_open_interval
           pars0 (plan 0) 1 2 2 false (Some 5%Z) env0 env' G).
  - discriminate.
  - cbn [t_ppf statistics_open_interval].
    destruct (Rlt_dec 0 2) as [_|Hn]; [|exfalso; lra].
    destruct (Rlt_dec 2 1) as [Hl|_]; [exfalso; lra | reflexivity].
  - exact E.
Defined.

(** ** The models with a demand placeholder *)

(** The constraints of the second stage when the demand is a
    placeholder. *)
Lemma placeholder_constraints_hold mdl pars (X : mat LinExpr)
    (vars_2nd : Vars2 Var) (K : nat) (rho : Var -> R) :
  mat_shape X (par_n pars) (par_s pars) ->
  nd_shape (var_Yp vars_2nd) K (par_n pars) (par_s pars) ->
  nd_shape (var_Ym vars_2nd) K (par_n pars) (par_s pars) ->
  exists con,
    pconstrs (problem (fst (add_2nd_stage_constraints mdl pars X vars_2nd
                              None)))
    = pconstrs (problem mdl) ++ con
    /\ length con = (K * par_n pars * par_s pars)%nat
    /\ (Forall (holds rho) con <->
        forall k i t,
          (k < K)%nat -> (i < par_n pars)%nat -> (t < par_s pars)%nat ->
          eval rho (mget (of_num 0) X i t)
          + carried_surplus rho (var_Ym vars_2nd) k i t
          + rho (nd_get no_var (var_Yp vars_2nd) k i t)
          - rho (nd_get no_var (var_Ym vars_2nd) k i t)
          = rho (nd_get no_var
                   (placeholder
                      (snd (add_2nd_stage_constraints mdl pars X vars_2nd
                              None))) k i t)).
Proof.
  intros HX HYp HYm.
  destruct (@nd_shape_compat _ _ _ _ _ HYp) as (Hcp & Hrp & Hcount).
  destruct (@nd_shape_compat _ _ _ _ _ HYm) as (Hcm & _ & _).
  assert (Hrank : forall D : ndarray LinExpr,
             is_rank3 (var_Ym vars_2nd) || is_rank3 (var_Yp vars_2nd)
             || is_rank3 D = true \/ K = 1%nat).
  { intros D. destruct Hrp as [Hr| ->]; [left|now right].
    rewrite Hr. now rewrite orb_true_r. }
  unfold add_2nd_stage_constraints. rewrite Hcount.
  pose proof (addVars_nd_compat mdl K (par_n pars) (par_s pars) 0 (Some 0)
                CONTINUOUS "demand") as Hcd.
  destruct (addVars_nd mdl K (par_n pars) (par_s pars) 0 (Some 0)
              CONTINUOUS "demand") as [mdl1 dv] eqn:Edv.
  cbn [fst snd placeholder] in *.
  destruct (@con_demand_holds rho K _ _ _ _ _ _ HX Hcp Hcm
              (@nd_compat_map _ _ of_var dv K _ _ Hcd)
              (Hrank (nd_map of_var dv))) as [Hlen Hiff].
  eexists. split.
  - rewrite addConstrs_added. f_equal.
    unfold addVars_nd in Edv.
    destruct (Nat.eqb K 1); inversion Edv; reflexivity.
  - split; [exact Hlen|].
    rewrite Hiff. split; intros HF k i t Hk Hi Ht;
      specialize (HF k i t Hk Hi Ht);
      erewrite (nd_get_map of_var dv no_var) in * by eassumption;
      rewrite eval_of_var in *; exact HF.
Qed.

(** X24.  The model on which the loop of [optimize_EEV] runs.  Its
    constraints are the n s demand-balance equalities and no others, with
    the production of the given EV solution as a number and the demand
    as the placeholder returned: an assignment satisfies them exactly
    when, for every product and period, the given production plus the
    surplus carried over plus the shortage minus the surplus equals the
    value of the placeholder. *)
Theorem EEV_model_constraints mdl pars (EV_vars1 : Vars1 R) intvars mdl'
    demands (rho : Var -> R) :
  let vars2 := snd (add_2nd_stage_variables mdl pars 1 intvars) in
  mat_shape (var_X EV_vars1) (par_n pars) (par_s pars) ->
  EEV_model mdl pars EV_vars1 intvars = Ok (mdl', demands) ->
  exists con,
    pconstrs (problem mdl') = pconstrs (problem mdl) ++ con
    /\ length con = (1 * par_n pars * par_s pars)%nat
    /\ (Forall (holds rho) con <->
        forall i t, (i < par_n pars)%nat -> (t < par_s pars)%nat ->
          mget 0 (var_X EV_vars1) i t
          + carried_surplus rho (var_Ym vars2) 0 i t
          + rho (nd_get no_var (var_Yp vars2) 0 i t)
          - rho (nd_get no_var (var_Ym vars2) 0 i t)
          = rho (nd_get no_var demands 0 i t)).
Proof.
  intros vars2 HX E. subst vars2. unfold EEV_model in E.
  pose proof (add_2nd_stage_variables_shape mdl pars 1 intvars) as S2.
  destruct (add_2nd_stage_variables mdl pars 1 intvars) as [mdl2 v2].
  cbv zeta in S2. cbn [fst snd] in *. destruct S2 as (HYp & HYm & P2).
  inv_rbind E. cbv zeta in E.
  set (mdl3 := setObjective mdl2 _) in E.
  destruct (@placeholder_constraints_hold mdl3 pars
              (map (map of_num) (var_X EV_vars1)) v2 1 rho
              (mat_shape_map_entries of_num HX) HYp HYm)
    as (con & Ec & Lc & Ic).
  destruct (add_2nd_stage_constraints mdl3 pars
              (map (map of_num) (var_X EV_vars1)) v2 None) as [mdl4 o].
  inversion E; subst mdl' demands. cbn [fst snd] in *.
  exists con. split; [rewrite Ec; subst mdl3; cbn; now rewrite P2|].
  split; [exact Lc|]. rewrite Ic.
  split.
  - intros HF i t Hi Ht. specialize (HF 0%nat i t (le_n 1) Hi Ht).
    rewrite mget_map with (da := 0) (r := par_n pars) (c := par_s pars)
      in HF by assumption.
    now rewrite eval_of_num in HF.
  - intros HF k i t Hk Hi Ht. replace k with 0%nat by lia.
    rewrite mget_map with (da := 0) (r := par_n pars) (c := par_s pars)
      by assumption.
    rewrite eval_of_num. now apply HF.
Qed.

(** X24, on the two-period instance: two constraints. *)
Lemma EEV_model_constraints_witness :
  exists mdl' demands con,
    EEV_model (fresh_model "EEV" env0) pars2 (mkVars1 [[3; 5]] [[0; 0]] [2] [0])
      false
    = Ok (mdl', demands)
    /\ pconstrs (problem mdl') = [] ++ con
    /\ length con = 2%nat.
Proof.
  destruct (EEV_model (fresh_model "EEV" env0) pars2
              (mkVars1 [[3; 5]] [[0; 0]] [2] [0]) false)
    as [[mdl' demands]|e] eqn:E; [|vm_compute in E; discriminate E].
  destruct (@EEV_model_constraints (fresh_model "EEV" env0) pars2
              (mkVars1 [[3; 5]] [[0; 0]] [2] [0]) false mdl' demands
              (fun _ => 0)) as (con & Ec & Lc & _).
  - shape_by_computation.
  - exact E.
  - exists mdl', demands, con. auto.
Defined.

(** Both stages on variables of the right shapes, with the demand as a
    placeholder. *)
Lemma stage_constraints_hold_placeholder mdl pars (vars1 : Vars1 Var)
    (vars2 : Vars2 Var) (K : nat) (rho : Var -> R) :
  consistent pars ->
  mat_shape (var_X vars1) (par_n pars) (par_s pars) ->
  mat_shape (var_U vars1) (par_m pars) (par_s pars) ->
  length (var_Zp vars1) = (par_s pars - 1)%nat ->
  length (var_Zm vars1) = (par_s pars - 1)%nat ->
  nd_shape (var_Yp vars2) K (par_n pars) (par_s pars) ->
  nd_shape (var_Ym vars2) K (par_n pars) (par_s pars) ->
  let r :=
    add_2nd_stage_constraints (add_1st_stage_constraints mdl pars vars1) pars
      (map (map of_var) (var_X vars1)) vars2 None in
  exists con,
    pconstrs (problem (fst r)) = pconstrs (problem mdl) ++ con
    /\ length con
       = (par_m pars * par_s pars + (par_s pars - 1)
          + par_m pars * par_s pars + K * par_n pars * par_s pars)%nat
    /\ (Forall (holds rho) con <->
        capacity_respected pars rho vars1
        /\ workforce_balanced pars rho vars1
        /\ extra_capacity_bounded pars rho vars1
        /\ demand_balanced pars rho (var_X vars1) vars2 K
             (fun k i t => rho (nd_get no_var (placeholder (snd r)) k i t))).
Proof.
  intros (Hn & Hm & HA & HB & HUB) HX HU HZp HZm HYp HYm r. subst r.
  destruct (@first_stage_constraints_hold mdl pars vars1 rho
              Hn Hm HA HB HUB HX HU HZp HZm) as (con1 & E1 & L1 & I1).
  destruct (@placeholder_constraints_hold
              (add_1st_stage_constraints mdl pars vars1) pars
              (map (map of_var) (var_X vars1)) vars2 K rho
              (mat_shape_map_entries of_var HX) HYp HYm)
    as (con2 & E2 & L2 & I2).
  exists (con1 ++ con2). rewrite E2, E1, <- app_assoc.
  split; [reflexivity|]. rewrite length_app, Forall_app, L1, L2.
  split; [lia|]. rewrite I1, I2.
  set (dv := placeholder _).
  assert (Hbal : (forall k i t,
                    (k < K)%nat -> (i < par_n pars)%nat ->
                    (t < par_s pars)%nat ->
                    eval rho (mget (of_num 0)
                                (map (map of_var) (var_X vars1)) i t)
                    + carried_surplus rho (var_Ym vars2) k i t
                    + rho (nd_get no_var (var_Yp vars2) k i t)
                    - rho (nd_get no_var (var_Ym vars2) k i t)
                    = rho (nd_get no_var dv k i t))
                 <-> demand_balanced pars rho (var_X vars1) vars2 K
                       (fun k i t => rho (nd_get no_var dv k i t))).
  { unfold demand_balanced.
    split; intros HF k i t Hk Hi Ht; specialize (HF k i t Hk Hi Ht);
      rewrite mget_map with (da := no_var) (r := par_n pars) (c := par_s pars)
        in * by assumption;
      rewrite eval_of_var in *; exact HF. }
  rewrite Hbal. unfold capacity_respected, workforce_balanced,
    extra_capacity_bounded. tauto.
Qed.

(** X25.  The models on which the loops of [optimize_WS] and [run_MRP]
    run.  For consistent parameters their constraints are those of the
    first stage, once, and the demand balance of every scenario (one for
    WS, [sample_size] for the MRP), the demand being the placeholder
    returned: an assignment satisfies them exactly when capacity,
    workforce and extra capacity are respected and the balance holds, in
    every scenario, against the value of the placeholder. *)
Theorem placeholder_model_constraints mdl pars intvars (S : nat)
    (rho : Var -> R) :
  let vars1 := snd (add_1st_stage_variables mdl pars intvars) in
  let vars2 K :=
    snd (add_2nd_stage_variables (fst (add_1st_stage_variables mdl pars intvars))
           pars K intvars) in
  consistent pars ->
  (forall mdl' demands,
     WS_model mdl pars intvars = Ok (mdl', demands) ->
     exists con,
       pconstrs (problem mdl') = pconstrs (problem mdl) ++ con
       /\ length con
          = (par_m pars * par_s pars + (par_s pars - 1)
             + par_m pars * par_s pars + 1 * par_n pars * par_s pars)%nat
       /\ (Forall (holds rho) con <->
           capacity_respected pars rho vars1
           /\ workforce_balanced pars rho vars1
           /\ extra_capacity_bounded pars rho vars1
           /\ demand_balanced pars rho (var_X vars1) (vars2 1%nat) 1
                (fun k i t => rho (nd_get no_var demands k i t))))
  /\ (forall mdl' vars1' demands,
        MRP_model mdl pars S intvars = Ok (mdl', vars1', demands) ->
        vars1' = vars1
        /\ exists con,
             pconstrs (problem mdl') = pconstrs (problem mdl) ++ con
             /\ length con
                = (par_m pars * par_s pars + (par_s pars - 1)
                   + par_m pars * par_s pars + S * par_n pars * par_s pars)%nat
             /\ (Forall (holds rho) con <->
                 capacity_respected pars rho vars1
                 /\ workforce_balanced pars rho vars1
                 /\ extra_capacity_bounded pars rho vars1
                 /\ demand_balanced pars rho (var_X vars1) (vars2 S) S
                      (fun k i t => rho (nd_get no_var demands k i t)))).
Proof.
  intros vars1 vars2 Hpars. subst vars1 vars2.
  pose proof (add_1st_stage_variables_shape mdl pars intvars) as S1.
  cbv zeta in S1.
  split.
  - intros mdl' demands E. unfold WS_model in E.
    destruct (add_1st_stage_variables mdl pars intvars) as [mdl1 v1].
    cbn [fst snd] in *. destruct S1 as (HX & HU & HZp & HZm & P1).
    pose proof (add_2nd_stage_variables_shape mdl1 pars 1 intvars) as S2.
    destruct (add_2nd_stage_variables mdl1 pars 1 intvars) as [mdl2 v2].
    cbv zeta in S2. cbn [fst snd] in *. destruct S2 as (HYp & HYm & P2).
    inv_rbind E. cbv zeta in E.
    set (mdl3 := setObjective mdl2 _) in E.
    destruct (@stage_constraints_hold_placeholder mdl3 pars v1 v2 1 rho
                Hpars HX HU HZp HZm HYp HYm) as (con & Ec & Lc & Ic).
    destruct (add_2nd_stage_constraints
                (add_1st_stage_constraints mdl3 pars v1) pars
                (map (map of_var) (var_X v1)) v2 None) as [mdl4 o].
    inversion E; subst mdl' demands. cbn [fst snd] in *.
    exists con. split; [rewrite Ec; subst mdl3; cbn; now rewrite P2, P1|].
    split; [exact Lc | exact Ic].
  - intros mdl' vars1' demands E. unfold MRP_model in E. cbv zeta in E.
    destruct (add_1st_stage_variables mdl pars intvars) as [mdl1 v1].
    cbn [fst snd] in *. destruct S1 as (HX & HU & HZp & HZm & P1).
    pose proof (add_2nd_stage_variables_shape mdl1 pars S intvars) as S2.
    destruct (add_2nd_stage_variables mdl1 pars S intvars) as [mdl2 v2].
    cbv zeta in S2. cbn [fst snd] in *. destruct S2 as (HYp & HYm & P2).
    inv_rbind E. cbv zeta in E.
    set (mdl3 := setObjective mdl2 _) in E.
    destruct (@stage_constraints_hold_placeholder mdl3 pars v1 v2 S rho
                Hpars HX HU HZp HZm HYp HYm) as (con & Ec & Lc & Ic).
    destruct (add_2nd_stage_constraints
                (add_1st_stage_constraints mdl3 pars v1) pars
                (map (map of_var) (var_X v1)) v2 None) as [mdl4 o].
    inversion E; subst mdl' vars1' demands. cbn [fst snd] in *.
    split; [reflexivity|].
    exists con. split; [rewrite Ec; subst mdl3; cbn; now rewrite P2, P1|].
    split; [exact Lc | exact Ic].
Qed.

(** X25, on the two-period instance: the wait-and-see model has seven
    constraints. *)
Lemma placeholder_model_constraints_witness :
  exists mdl' demands con,
    WS_model (fresh_model "LSDE" env0) pars2 false = Ok (mdl', demands)
    /\ pconstrs (problem mdl') = [] ++ con
    /\ length con = 7%nat.
Proof.
  destruct (WS_model (fresh_model "LSDE" env0) pars2 false)
    as [[mdl' demands]|e] eqn:E; [|vm_compute in E; discriminate E].
  destruct (proj1 (@placeholder_model_constraints (fresh_model "LSDE" env0)
                     pars2 false 1 (fun _ => 0)
                     ltac:(consistent_by_computation))
              mdl' demands E) as (con & Ec & Lc & _).
  exists mdl', demands, con. auto.
Defined.
